(** * Dynamic UAV design system: dependency graph, saga engine, scheduler

    A shallow embedding of the coordination core of the repository:
    - [backend/services/dependency_manager.py]  (module [DependencyManager])
    - [backend/services/agent_lifecycle_manager.py]  (module [Lifecycle])
    - [backend/langgraph/state.py], [backend/agents/base_agent.py],
      [workflows/langgraph.py]  (modules [Scheduler], [GlobalState])

    Python dictionaries that are iterated are association lists in
    insertion order; dictionaries and sets that are only queried are
    [gmap]s and [gset]s; Python integers are [Z].  Recursive functions
    take a bound on their depth and return [None] when it is reached;
    each is shown to return on the inputs the statements range over, or
    to reach every bound.
    The recursion limit of the interpreter is not modelled. *)

From stdpp Require Import base gmap sets list strings relations pretty.
From Stdlib Require Import ZArith Lia.


(** ** Insertion-ordered dictionaries with string keys *)

Module PyDict.
Section Dict.
Context {V : Type}.

(** [d.get(k)] *)
Fixpoint dict_get (k : string) (d : list (string * V)) : option V :=
  match d with
  | [] => None
  | (k', v) :: d' => if decide (k = k') then Some v else dict_get k d'
  end.

(** [k in d] *)
Definition dict_mem (k : string) (d : list (string * V)) : bool :=
  bool_decide (is_Some (dict_get k d)).

(** [d[k] = v]: an existing key keeps its position, a new key goes last. *)
Fixpoint dict_set (k : string) (v : V) (d : list (string * V)) : list (string * V) :=
  match d with
  | [] => [(k, v)]
  | (k', v') :: d' =>
      if decide (k = k') then (k', v) :: d' else (k', v') :: dict_set k v d'
  end.

(** In-place mutation of the object stored under [k] (no effect on the
    keys or their order). *)
Fixpoint dict_alter (f : V → V) (k : string) (d : list (string * V)) : list (string * V) :=
  match d with
  | [] => []
  | (k', v') :: d' =>
      if decide (k = k') then (k', f v') :: d' else (k', v') :: dict_alter f k d'
  end.

Definition dict_keys (d : list (string * V)) : list string := d.*1.
Definition dict_values (d : list (string * V)) : list V := d.*2.

End Dict.
End PyDict.
Import PyDict.

(** ** backend/models/agent.py *)

Module Models.

Inductive AgentStatus := INACTIVE | RUNNING | ERROR | CONFIGURING.

(** The columns of an [Agent] row that the dependency manager reads.
    [dependencies] is a JSON column: [None] stands for a null value. *)
Record Agent := mkAgent {
  id : Z;
  name : string;
  status : AgentStatus;
  dependencies : option (list string)
}.

End Models.

(** ** backend/services/dependency_manager.py *)

Module DependencyManager.

Record DependencyNode := mkNode {
  name : string;
  id : Z;
  dependencies : list string;
  dependents : list string
}.

Record DeletionPlan := mkPlan {
  target_agent : string;
  can_delete_safely : bool;
  dependent_agents : list string;
  cascade_deletion_required : bool;
  deletion_order : list string;
  warnings : list string
}.

Definition set_dependencies (deps : list string) (n : DependencyNode) : DependencyNode :=
  mkNode (name n) (id n) deps (dependents n).

Definition set_dependents (ds : list string) (n : DependencyNode) : DependencyNode :=
  mkNode (name n) (id n) (dependencies n) ds.

(** [node.dependents.append(agent_name)] *)
Definition append_dependent (agent_name : string) (n : DependencyNode) : DependencyNode :=
  set_dependents (dependents n ++ [agent_name]) n.

(** The [where] clause of the query in [get_dependency_graph]. *)
Definition selected (a : Models.Agent) : bool :=
  match Models.status a with
  | Models.INACTIVE | Models.RUNNING => true
  | _ => false
  end.

(** First loop of [get_dependency_graph]: one node per selected agent,
    its dependencies restricted to the selected names. *)
Definition build_nodes (agents : list Models.Agent) : list (string * DependencyNode) :=
  let agent_names : gset string := list_to_set (Models.name <$> agents) in
  foldl (λ nodes agent,
           let dependencies :=
             filter (λ dep, dep ∈ agent_names) (default [] (Models.dependencies agent)) in
           dict_set (Models.name agent)
                    (mkNode (Models.name agent) (Models.id agent) dependencies [])
                    nodes)
        [] agents.

(** Inner loop of the second pass: [agent_name] is appended to the
    [dependents] of each of its dependencies that is a key. *)
Definition populate_one (agent_name : string) (deps : list string)
    (nodes : list (string * DependencyNode)) : list (string * DependencyNode) :=
  foldl (λ acc dependency,
           if dict_mem dependency acc
           then dict_alter (append_dependent agent_name) dependency acc
           else acc)
        nodes deps.

(** Second loop, shared with [update_agent_dependencies].  It mutates
    [dependents] only, so the names and dependency lists it iterates
    over are those of [items]. *)
Definition populate_dependents (items nodes : list (string * DependencyNode))
    : list (string * DependencyNode) :=
  foldl (λ acc item, populate_one item.1 (dependencies item.2) acc) nodes items.

(** [db] is the content of the agents table. *)
Definition get_dependency_graph (db : list Models.Agent) : list (string * DependencyNode) :=
  let agents := filter (λ a, selected a = true) db in
  let nodes := build_nodes agents in
  populate_dependents nodes nodes.

(** *** detect_circular_dependencies *)

(** The three variables the nested [dfs] closes over. *)
Record dfs_state := mkDfs {
  circular_deps : list (list string);
  visited : gset string;
  path : list string
}.

(** [path.index(x)] for [x] on the path. *)
Fixpoint index (x : string) (l : list string) : nat :=
  match l with
  | [] => 0
  | y :: l' => if decide (x = y) then 0 else S (index x l')
  end.

(** [path.pop()] *)
Definition pop (l : list string) : list string := take (length l - 1) l.

Definition node_dependencies (nodes : list (string * DependencyNode)) (k : string) : list string :=
  match dict_get k nodes with
  | Some node => dependencies node
  | None => []
  end.

(** The nested function [dfs]; [fuel] bounds the recursion depth and
    [None] means it was exhausted. *)
Fixpoint dfs (fuel : nat) (nodes : list (string * DependencyNode))
    (node_name : string) (st : dfs_state) : option dfs_state :=
  match fuel with
  | O => None
  | S fuel' =>
      if bool_decide (node_name ∈ path st) then
        let cycle_start := index node_name (path st) in
        let cycle := drop cycle_start (path st) ++ [node_name] in
        Some (mkDfs (circular_deps st ++ [cycle]) (visited st) (path st))
      else if bool_decide (node_name ∈ visited st) then Some st
      else
        let st1 := mkDfs (circular_deps st) ({[node_name]} ∪ visited st)
                         (path st ++ [node_name]) in
        st2 ← foldl (λ acc dependency, acc ≫= dfs fuel' nodes dependency)
                    (Some st1) (node_dependencies nodes node_name);
        Some (mkDfs (circular_deps st2) (visited st2) (pop (path st2)))
  end.

(** [for node_name in nodes: dfs(node_name)] *)
Definition dfs_all (fuel : nat) (nodes : list (string * DependencyNode))
    (names : list string) (st : dfs_state) : option dfs_state :=
  foldl (λ acc node_name, acc ≫= dfs fuel nodes node_name) (Some st) names.

(** The recursion depth never exceeds the number of keys plus one. *)
Definition detect_circular_dependencies (nodes : list (string * DependencyNode))
    : option (list (list string)) :=
  circular_deps <$> dfs_all (S (length nodes)) nodes (dict_keys nodes) (mkDfs [] ∅ []).

(** *** find_orphaned_dependencies *)

Definition orphan_message (node_name dependency : string) : string :=
  node_name +:+ " depends on non-existent agent: " +:+ dependency.

Definition find_orphaned_dependencies (nodes : list (string * DependencyNode)) : list string :=
  let agent_names : gset string := list_to_set (dict_keys nodes) in
  foldl (λ orphaned node,
           foldl (λ orphaned dependency,
                    if bool_decide (dependency ∉ agent_names)
                    then orphaned ++ [orphan_message (name node) dependency]
                    else orphaned)
                 orphaned (dependencies node))
        [] (dict_values nodes).

(** *** _calculate_dependency_chain_length *)

(** [visited.copy()] hands every child its own set, and [visited.add]
    happens before the copies are taken. *)
Fixpoint chain_length (fuel : nat) (nodes : list (string * DependencyNode))
    (agent_name : string) (visited : gset string) : option Z :=
  match fuel with
  | O => None
  | S fuel' =>
      if bool_decide (agent_name ∈ visited) then Some 0%Z
      else
        let visited := {[agent_name]} ∪ visited in
        match dict_get agent_name nodes with
        | None => Some 1%Z
        | Some node =>
            if bool_decide (dependencies node = []) then Some 1%Z
            else
              max_depth ← foldl (λ acc dependency,
                                   max_depth ← acc;
                                   depth ← chain_length fuel' nodes dependency visited;
                                   Some (Z.max max_depth depth))
                                (Some 0%Z) (dependencies node);
              Some (max_depth + 1)%Z
        end
  end.

(** Called with [visited=None]. *)
Definition _calculate_dependency_chain_length (agent_name : string)
    (nodes : list (string * DependencyNode)) : option Z :=
  chain_length (S (length nodes)) nodes agent_name ∅.

(** *** _calculate_cascade_deletion_order *)

Definition node_dependents (nodes : list (string * DependencyNode)) (k : string) : list string :=
  match dict_get k nodes with
  | Some node => dependents node
  | None => []
  end.

(** The [while to_process] loop; [to_process.pop()] takes the last
    element and [extend] adds at the end. *)
Fixpoint collect_affected (fuel : nat) (nodes : list (string * DependencyNode))
    (to_process : list string) (affected_agents : gset string) : option (gset string) :=
  match fuel with
  | O => None
  | S fuel' =>
      match last to_process with
      | None => Some affected_agents
      | Some current =>
          let to_process := pop to_process in
          if bool_decide (current ∈ affected_agents)
          then collect_affected fuel' nodes to_process affected_agents
          else
            let affected_agents := {[current]} ∪ affected_agents in
            if dict_mem current nodes
            then collect_affected fuel' nodes
                   (to_process ++ node_dependents nodes current) affected_agents
            else collect_affected fuel' nodes to_process affected_agents
      end
  end.

(** Every iteration pops one entry, and the entries pushed over the whole
    loop are the start name and the dependents of each key at most once. *)
Definition collect_fuel (nodes : list (string * DependencyNode)) : nat :=
  2 + sum_list ((λ node, length (dependents node)) <$> dict_values nodes).

(** The nested function [add_to_order] on the pair
    [(deletion_order, processed)]. *)
Fixpoint add_to_order (fuel : nat) (nodes : list (string * DependencyNode))
    (affected_agents : gset string) (agent : string)
    (st : list string * gset string) : option (list string * gset string) :=
  match fuel with
  | O => None
  | S fuel' =>
      if bool_decide (agent ∈ st.2) || bool_decide (agent ∉ affected_agents) then Some st
      else
        st1 ← (if dict_mem agent nodes
               then foldl (λ acc dependent,
                             s ← acc;
                             if bool_decide (dependent ∈ affected_agents)
                             then add_to_order fuel' nodes affected_agents dependent s
                             else Some s)
                          (Some st) (node_dependents nodes agent)
               else Some st);
        if bool_decide (agent ∉ st1.2)
        then Some (st1.1 ++ [agent], {[agent]} ∪ st1.2)
        else Some st1
  end.

(** [set_iter] is the order in which Python iterates over a set; the
    language fixes only that every element comes exactly once. *)
Definition _calculate_cascade_deletion_order (set_iter : gset string → list string)
    (agent_name : string) (nodes : list (string * DependencyNode)) : option (list string) :=
  affected_agents ← collect_affected (collect_fuel nodes) nodes [agent_name] ∅;
  st ← foldl (λ acc agent, acc ≫= add_to_order (S (length nodes)) nodes affected_agents agent)
             (Some ([], ∅)) (set_iter affected_agents);
  Some st.1.

(** *** analyze_deletion_impact *)

Definition analyze_deletion_impact (set_iter : gset string → list string)
    (db : list Models.Agent) (agent_name : string) : option DeletionPlan :=
  let nodes := get_dependency_graph db in
  match dict_get agent_name nodes with
  | None =>
      Some (mkPlan agent_name false [] false []
                   ["Agent " +:+ agent_name +:+ " not found"])
  | Some target_node =>
      let dependent_agents := dependents target_node in
      let can_delete_safely := bool_decide (length dependent_agents = 0) in
      if can_delete_safely
      then Some (mkPlan agent_name true [] false [agent_name] [])
      else
        deletion_order ← _calculate_cascade_deletion_order set_iter agent_name nodes;
        let warnings :=
          if bool_decide (5 < length deletion_order)
          then ["Cascade deletion would affect " +:+ pretty (length deletion_order)
                  +:+ " agents"]
          else [] in
        Some (mkPlan agent_name false dependent_agents true deletion_order warnings)
  end.

(** *** update_agent_dependencies *)

(** [str.lower] on the ASCII letters.  Bytes outside [A-Z] are kept, and
    no character outside ASCII lowers to a letter of "coordinator", so
    the comparison below is the source's. *)
Definition lower_ascii (c : Ascii.ascii) : Ascii.ascii :=
  let n := Ascii.nat_of_ascii c in
  if bool_decide (65 ≤ n ≤ 90) then Ascii.ascii_of_nat (n + 32) else c.

Fixpoint lower (s : string) : string :=
  match s with
  | EmptyString => EmptyString
  | String c s' => String (lower_ascii c) (lower s')
  end.

(** The dictionary the call returns; absent keys are [None]. *)
Record UpdateResult := mkUpdateResult {
  success : bool;
  error : option string;
  circular_dependencies : option (list (list string));
  updated_dependencies : option (list string);
  previous_dependencies : option (list string)
}.

Definition failure (msg : string) : UpdateResult :=
  mkUpdateResult false (Some msg) None None None.

(** [agent.dependencies = new_dependencies] on the rows named [agent_name]. *)
Definition store_dependencies (agent_name : string) (new_dependencies : list string)
    (db : list Models.Agent) : list Models.Agent :=
  (λ a, if decide (Models.name a = agent_name)
        then Models.mkAgent (Models.id a) (Models.name a) (Models.status a)
                            (Some new_dependencies)
        else a) <$> db.

(** [select(Agent).where(Agent.name == agent_name)] *)
Definition rows_named (agent_name : string) (db : list Models.Agent) : list Models.Agent :=
  filter (λ a : Models.Agent, Models.name a = agent_name) db.

(** [for node in test_nodes.values(): node.dependents = []] *)
Definition clear_dependents (nodes : list (string * DependencyNode))
    : list (string * DependencyNode) :=
  (λ item, (item.1, set_dependents [] item.2)) <$> nodes.

(** [commit_ok] tells whether [db.commit()] returns or raises.  The result
    is paired with the content of the agents table after the call.

    [test_nodes = nodes.copy()] copies the dictionary, not the
    [DependencyNode] objects in it: both dictionaries have the same keys
    bound to the same objects, so every attribute assignment made through
    [test_nodes] is an assignment to the objects of [nodes].  The objects
    are therefore threaded once, as [shared], and both names read it. *)
Definition update_agent_dependencies (commit_ok : bool) (db : list Models.Agent)
    (agent_name : string) (new_dependencies : list string)
    : option (UpdateResult * list Models.Agent) :=
  if bool_decide (lower agent_name = "coordinator")
     && negb (bool_decide (new_dependencies = []))
  then Some (failure ("The coordinator agent cannot have dependencies. "
                      +:+ "It must coordinate all other agents independently."), db)
  else
    let nodes := get_dependency_graph db in
    if negb (dict_mem agent_name nodes)
    then Some (failure ("Agent " +:+ agent_name +:+ " not found"), db)
    else
      let shared := dict_alter (set_dependencies new_dependencies) agent_name nodes in
      let shared := clear_dependents shared in
      let shared := populate_dependents shared shared in
      let test_nodes := shared in
      let nodes := shared in
      circular_deps ← detect_circular_dependencies test_nodes;
      if negb (bool_decide (circular_deps = []))
      then Some (mkUpdateResult false
                   (Some "Update would create circular dependencies")
                   (Some circular_deps) None None, db)
      else
        match rows_named agent_name db with
        | [] => Some (failure ("Agent " +:+ agent_name +:+ " not found"), db)
        | [_] =>
            if commit_ok
            then Some (mkUpdateResult true None None (Some new_dependencies)
                         (Some (node_dependencies nodes agent_name)),
                       store_dependencies agent_name new_dependencies db)
            else Some (failure "Failed to update dependencies: commit failed", db)
        | _ => Some (failure "Failed to update dependencies: Multiple rows were found", db)
        end.

(** *** validate_dependencies *)

Module Validation.
Record DependencyValidationResult := mkValidation {
  is_valid : bool;
  issues : list string;
  warnings : list string;
  circular_dependencies : list (list string);
  orphaned_dependencies : list string
}.
End Validation.

Definition cycle_issue (cycle : list string) : string :=
  "Circular dependency detected: " +:+ String.concat " -> " cycle.

Definition chain_warning (node_name : string) (chain_length : Z) : string :=
  "Agent " +:+ node_name +:+ " has very long dependency chain ("
    +:+ pretty chain_length +:+ " levels)".

Definition validate_dependencies (db : list Models.Agent)
    : option Validation.DependencyValidationResult :=
  let nodes := get_dependency_graph db in
  circular_deps ← detect_circular_dependencies nodes;
  let issues := cycle_issue <$> circular_deps in
  let orphaned := find_orphaned_dependencies nodes in
  warnings ← foldl (λ acc node_name,
                      warnings ← acc;
                      chain_length ← _calculate_dependency_chain_length node_name nodes;
                      Some (if bool_decide (5 < chain_length)%Z
                            then warnings ++ [chain_warning node_name chain_length]
                            else warnings))
                   (Some orphaned) (dict_keys nodes);
  Some (Validation.mkValidation (bool_decide (length issues = 0)) issues warnings
          circular_deps orphaned).

(** *** execute_safe_deletion *)

Module Deletion.
(** The dictionary the call returns; absent keys are [None]. *)
Record DeletionResult := mkDeletionResult {
  success : bool;
  error : option string;
  deletion_plan : option DeletionPlan;
  requires_cascade : option bool;
  deleted_agents : option (list string);
  cascade_deletion : option bool
}.
End Deletion.

(** [db.delete(agent)] for the row named [agent_name]. *)
Definition delete_rows (agent_name : string) (db : list Models.Agent) : list Models.Agent :=
  filter (λ a : Models.Agent, Models.name a ≠ agent_name) db.

(** The [for agent_to_delete in plan.deletion_order] loop on the rows of
    the session; [scalar_one_or_none] raises when several rows match. *)
Fixpoint cascade_loop (order : list string) (db : list Models.Agent)
    (deleted_agents : list string) : list Models.Agent * list string + string :=
  match order with
  | [] => inl (db, deleted_agents)
  | agent_to_delete :: order' =>
      match rows_named agent_to_delete db with
      | [] => cascade_loop order' db deleted_agents
      | [_] => cascade_loop order' (delete_rows agent_to_delete db)
                            (deleted_agents ++ [agent_to_delete])
      | _ => inr "Multiple rows were found when one or none was required"
      end
  end.

(** [repr] renders a list of names as Python prints it; [commit_ok]
    tells whether [db.commit()] returns or raises. *)
Definition execute_safe_deletion (set_iter : gset string → list string)
    (repr : list string → string) (commit_ok : bool)
    (db : list Models.Agent) (agent_name : string) (force_cascade : bool)
    : option (Deletion.DeletionResult * list Models.Agent) :=
  plan ← analyze_deletion_impact set_iter db agent_name;
  if negb (can_delete_safely plan) && negb force_cascade then
    Some (Deletion.mkDeletionResult false
            (Some ("Cannot delete agent " +:+ agent_name +:+ ": has dependent agents "
                   +:+ repr (dependent_agents plan)))
            (Some plan) (Some true) None None, db)
  else if force_cascade && cascade_deletion_required plan then
    match cascade_loop (deletion_order plan) db [] with
    | inl (db', deleted_agents) =>
        if commit_ok
        then Some (Deletion.mkDeletionResult true None (Some plan) None
                     (Some deleted_agents) (Some true), db')
        else Some (Deletion.mkDeletionResult false
                     (Some "Cascade deletion failed: commit failed")
                     (Some plan) None None None, db)
    | inr e =>
        Some (Deletion.mkDeletionResult false (Some ("Cascade deletion failed: " +:+ e))
                (Some plan) None None None, db)
    end
  else
    match rows_named agent_name db with
    | [] =>
        Some (Deletion.mkDeletionResult false (Some ("Agent " +:+ agent_name +:+ " not found"))
                None None None None, db)
    | [_] =>
        if commit_ok
        then Some (Deletion.mkDeletionResult true None (Some plan) None
                     (Some [agent_name]) (Some false), delete_rows agent_name db)
        else Some (Deletion.mkDeletionResult false (Some "Deletion failed: commit failed")
                     None None None None, db)
    | _ =>
        Some (Deletion.mkDeletionResult false
                (Some "Deletion failed: Multiple rows were found when one or none was required")
                None None None None, db)
    end.

(** *** get_dependency_report *)

(** Truth value of a list. *)
Definition nonempty (l : list string) : bool :=
  match l with [] => false | _ => true end.

Record DependencyReport := mkReport {
  validation : Validation.DependencyValidationResult;
  total_agents : nat;
  agents_with_dependencies : nat;
  agents_with_dependents : nat;
  isolated_agents : list string;
  root_agents : list string;
  leaf_agents : list string;
  dependency_graph : list (string * (list string * list string))
}.

(** The three list comprehensions over [nodes.items()]. *)
Definition names_where (test : DependencyNode → bool)
    (nodes : list (string * DependencyNode)) : list string :=
  (filter (λ item : string * DependencyNode, test item.2 = true) nodes).*1.

Definition get_dependency_report (db : list Models.Agent) : option DependencyReport :=
  let nodes := get_dependency_graph db in
  validation ← validate_dependencies db;
  Some (mkReport validation
          (length nodes)
          (length (filter (λ node, nonempty (dependencies node) = true) (dict_values nodes)))
          (length (filter (λ node, nonempty (dependents node) = true) (dict_values nodes)))
          (names_where (λ node, negb (nonempty (dependencies node))
                                && negb (nonempty (dependents node))) nodes)
          (names_where (λ node, negb (nonempty (dependencies node))
                                && nonempty (dependents node)) nodes)
          (names_where (λ node, nonempty (dependencies node)
                                && negb (nonempty (dependents node))) nodes)
          ((λ item : string * DependencyNode,
              (item.1, (dependencies item.2, dependents item.2))) <$> nodes)).

(** *** Vocabulary of the statements *)

(** [x] lists [y] among its dependencies ([x] is then a key). *)
Definition depends_on (nodes : list (string * DependencyNode)) (x y : string) : Prop :=
  y ∈ node_dependencies nodes x.

(** No agent reaches itself along one or more dependency edges. *)
Definition acyclic (nodes : list (string * DependencyNode)) : Prop :=
  ∀ x, ¬ tc (depends_on nodes) x x.

(** The states around the body of [dfs]. *)
Definition report (node_name : string) (st : dfs_state) : dfs_state :=
  mkDfs (circular_deps st ++ [drop (index node_name (path st)) (path st) ++ [node_name]])
        (visited st) (path st).

Definition push (node_name : string) (st : dfs_state) : dfs_state :=
  mkDfs (circular_deps st) ({[node_name]} ∪ visited st) (path st ++ [node_name]).

Definition popped (st : dfs_state) : dfs_state :=
  mkDfs (circular_deps st) (visited st) (pop (path st)).

(** The runs of [dfs] that return, as a relation between the state at
    the call and the state at the return; [dfs_list_rel] is the loop over
    a list of names. *)
Inductive dfs_rel (nodes : list (string * DependencyNode))
    : string → dfs_state → dfs_state → Prop :=
  | dfs_on_path n st :
      n ∈ path st → dfs_rel nodes n st (report n st)
  | dfs_seen n st :
      n ∉ path st → n ∈ visited st → dfs_rel nodes n st st
  | dfs_fresh n st st2 :
      n ∉ path st → n ∉ visited st →
      dfs_list_rel nodes (node_dependencies nodes n) (push n st) st2 →
      dfs_rel nodes n st (popped st2)
with dfs_list_rel (nodes : list (string * DependencyNode))
    : list string → dfs_state → dfs_state → Prop :=
  | dfs_list_nil st : dfs_list_rel nodes [] st st
  | dfs_list_cons d ds st st1 st2 :
      dfs_rel nodes d st st1 → dfs_list_rel nodes ds st1 st2 →
      dfs_list_rel nodes (d :: ds) st st2.

Scheme dfs_rel_mut := Minimality for dfs_rel Sort Prop
  with dfs_list_rel_mut := Minimality for dfs_list_rel Sort Prop.
Combined Scheme dfs_mutind from dfs_rel_mut, dfs_list_rel_mut.

(** A reported cycle that contains both [a] and [b]. *)
Definition reports_both (a b : string) (st : dfs_state) : Prop :=
  ∃ cycle, cycle ∈ circular_deps st ∧ a ∈ cycle ∧ b ∈ cycle.

(** Finished nodes: visited and no longer on the path.  In a run that
    has reported nothing they are closed under dependencies and lie on
    no cycle. *)
Definition finished_ok (nodes : list (string * DependencyNode)) (st : dfs_state) : Prop :=
  (∀ u d, u ∈ visited st → u ∉ path st → depends_on nodes u d →
          d ∈ visited st ∧ d ∉ path st)
  ∧ (∀ u, u ∈ visited st → u ∉ path st → ¬ tc (depends_on nodes) u u)
  ∧ (∀ x, x ∈ path st → x ∈ visited st).

(** The hypothetical graph of a proposal: the current graph with the
    dependency list of [agent_name] replaced by [new_dependencies]. *)
Definition proposed_graph (db : list Models.Agent) (agent_name : string)
    (new_dependencies : list string) : list (string * DependencyNode) :=
  dict_alter (set_dependencies new_dependencies) agent_name (get_dependency_graph db).


(** [y] is listed among the dependents of [x]. *)
Definition dependent_of (nodes : list (string * DependencyNode)) (x y : string) : Prop :=
  y ∈ node_dependents nodes x.

(** [x] occurs in [l] strictly before [y]. *)
Definition before (l : list string) (x y : string) : Prop :=
  ∃ l1 l2 l3, l = l1 ++ x :: l2 ++ y :: l3.

(** The pair [(deletion_order, processed)] during [add_to_order]:
    [processed] is the set of the listed agents, no agent is listed
    twice, all are affected, and every listed agent comes after all of
    its affected dependents. *)
Definition order_ok (nodes : list (string * DependencyNode)) (affected_agents : gset string)
    (st : list string * gset string) : Prop :=
  (∀ x, x ∈ st.2 ↔ x ∈ st.1)
  ∧ NoDup st.1
  ∧ (∀ x, x ∈ st.1 → x ∈ affected_agents)
  ∧ (∀ y d, y ∈ st.1 → dependent_of nodes y d → d ∈ affected_agents → before st.1 d y).

(** What is left to do in the [while to_process] loop: the entries of
    the stack and the dependents of the keys not yet collected. *)
Definition collect_weight (nodes : list (string * DependencyNode))
    (affected_agents : gset string) : nat :=
  sum_list ((λ item : string * DependencyNode,
               if decide (item.1 ∈ affected_agents) then 0
               else length (dependents item.2)) <$> nodes).

(** Consecutive elements of [l] are dependency edges. *)
Fixpoint walk (nodes : list (string * DependencyNode)) (l : list string) : Prop :=
  match l with
  | x :: l' =>
      match l' with
      | y :: _ => depends_on nodes x y ∧ walk nodes l'
      | [] => True
      end
  | [] => True
  end.

(** A walk along dependency edges that ends where it starts. *)
Definition closed_walk (nodes : list (string * DependencyNode)) (cycle : list string) : Prop :=
  (∃ x middle, cycle = x :: middle ++ [x]) ∧ walk nodes cycle.

(** The nodes of the first loop: dependency lists within [names], empty
    dependents, distinct keys. *)
Definition fresh_nodes (names : gset string) (nodes : list (string * DependencyNode)) : Prop :=
  NoDup nodes.*1
  ∧ ∀ k node, dict_get k nodes = Some node →
      dependents node = [] ∧ ∀ dep, dep ∈ dependencies node → dep ∈ names.

End DependencyManager.

(** ** backend/services/agent_lifecycle_manager.py *)

Module Lifecycle.

(** A Python call either returns a value or raises. *)
Inductive Outcome (A : Type) : Type :=
  | Returned (a : A)
  | Raised (msg : string).
Arguments Returned {A} a.
Arguments Raised {A} msg.

Section Saga.
(** [Any] is the type of parameter values and step results. *)
Context {Any : Type}.

Record OperationStep := mkStep {
  name : string;
  service : string;
  operation : string;
  parameters : list (string * Any);
  rollback_operation : option string;
  rollback_parameters : option (list (string * Any));
  completed : bool;
  result : option Any;
  error : option string
}.

Record AtomicOperation := mkOperation {
  operation_id : string;
  operation_type : string;
  steps : list OperationStep;
  completed_steps : list nat;
  failed_step : option nat;
  success : bool;
  error_message : option string;
  rollback_completed : bool
}.

(** What the engine asks of the outside world, in order. *)
Inductive Call :=
  | ExecuteStep (step : OperationStep)
  | DbRollback.

(** The collaborators behind [_execute_step] (dependency manager, agent
    factory, prompt manager, workflow builder, database session): what a
    call returns or raises may depend on everything done before. *)
Record World := mkWorld {
  perform : list Call → OperationStep → Outcome Any;
  db_rollback : list Call → Outcome unit
}.

(** The operations each [_execute_*_step] dispatches on. *)
Definition service_operations (service : string) : option (string * list string) :=
  if decide (service = "dependency_manager") then
    Some ("dependency manager",
          ["validate_circular_dependencies"; "analyze_deletion_impact";
           "execute_safe_deletion"; "update_agent_dependencies"])
  else if decide (service = "agent_factory") then
    Some ("agent factory",
          ["validate_agent_files"; "create_agent"; "update_agent_files";
           "delete_agent"; "update_agent_metadata"])
  else if decide (service = "prompt_manager") then
    Some ("prompt manager",
          ["cascade_update_on_agent_addition"; "cascade_update_on_agent_removal";
           "cascade_update_on_agent_modification"])
  else if decide (service = "workflow_builder") then
    Some ("workflow builder", ["rebuild_workflow_on_agent_change"])
  else if decide (service = "database") then
    Some ("database",
          ["create_agent_record"; "update_agent_record"; "delete_agent_record"])
  else None.

Definition _execute_step (w : World) (history : list Call) (step : OperationStep)
    : Outcome Any :=
  match service_operations (service step) with
  | None => Raised ("Unknown service: " +:+ service step)
  | Some (label, operations) =>
      if bool_decide (operation step ∈ operations)
      then perform w history step
      else Raised ("Unknown " +:+ label +:+ " operation: " +:+ operation step)
  end.

(** Truth value of an [Optional[str]]. *)
Definition truthy (s : option string) : bool :=
  match s with
  | Some s => negb (bool_decide (s = ""))
  | None => false
  end.

(** The [OperationStep] built inside [_rollback_operation]. *)
Definition rollback_step (step : OperationStep) : OperationStep :=
  mkStep ("rollback_" +:+ name step) (service step)
         (default "" (rollback_operation step))
         (default [] (rollback_parameters step))
         None None false None None.

(** The [for i in reversed(operation.completed_steps)] loop; [todo] is
    what is left of the reversed list.  [operation.steps[i]] raises
    [IndexError] out of range, outside every [try]. *)
Fixpoint rollback_loop (w : World) (steps : list OperationStep) (todo : list nat)
    (history : list Call) : Outcome (list Call) :=
  match todo with
  | [] => Returned history
  | i :: todo' =>
      match steps !! i with
      | None => Raised "list index out of range"
      | Some step =>
          if truthy (rollback_operation step)
          then
            let history' := history ++ [ExecuteStep (rollback_step step)] in
            match _execute_step w history (rollback_step step) with
            | Returned _ => rollback_loop w steps todo' history'
            | Raised _ => (* printed; the sweep goes on *)
                rollback_loop w steps todo' history'
            end
          else rollback_loop w steps todo' history
      end
  end.

Definition set_rollback_completed (operation : AtomicOperation) : AtomicOperation :=
  mkOperation (operation_id operation) (operation_type operation) (steps operation)
              (completed_steps operation) (failed_step operation) (success operation)
              (error_message operation) true.

Definition _rollback_operation (w : World) (operation : AtomicOperation)
    (history : list Call) : Outcome (AtomicOperation * list Call) :=
  match rollback_loop w (steps operation) (reverse (completed_steps operation)) history with
  | Raised msg => Raised msg
  | Returned history =>
      let history' := history ++ [DbRollback] in
      match db_rollback w history with
      | Returned _ => Returned (set_rollback_completed operation, history')
      | Raised _ => (* printed *)
          Returned (set_rollback_completed operation, history')
      end
  end.

(** The dictionary [_execute_atomic_operation] returns; absent keys are
    [None]. *)
Record OperationResult := mkResult {
  res_success : bool;
  res_message : option string;
  res_steps_completed : option nat;
  res_error : option string;
  res_failed_step : option string;
  res_rollback_completed : option bool;
  res_operation_id : string
}.

Definition step_completed (step_result : Any) (step : OperationStep) : OperationStep :=
  mkStep (name step) (service step) (operation step) (parameters step)
         (rollback_operation step) (rollback_parameters step)
         true (Some step_result) (error step).

Definition step_failed (e : string) (step : OperationStep) : OperationStep :=
  mkStep (name step) (service step) (operation step) (parameters step)
         (rollback_operation step) (rollback_parameters step)
         (completed step) (result step) (Some e).

(** The body of the [for i, step in enumerate(operation.steps)] loop on
    the steps from index [i] on. *)
Fixpoint execute_from (w : World) (i : nat) (todo : list OperationStep)
    (operation : AtomicOperation) (history : list Call)
    : Outcome (OperationResult * AtomicOperation * list Call) :=
  match todo with
  | [] =>
      let operation :=
        mkOperation (operation_id operation) (operation_type operation) (steps operation)
                    (completed_steps operation) (failed_step operation) true
                    (error_message operation) (rollback_completed operation) in
      Returned (mkResult true
                  (Some ("Atomic " +:+ operation_type operation +:+ " completed successfully"))
                  (Some (length (completed_steps operation))) None None None
                  (operation_id operation),
                operation, history)
  | step :: todo' =>
      match _execute_step w history step with
      | Returned step_result =>
          let operation :=
            mkOperation (operation_id operation) (operation_type operation)
                        (alter (step_completed step_result) i (steps operation))
                        (completed_steps operation ++ [i]) (failed_step operation)
                        (success operation) (error_message operation)
                        (rollback_completed operation) in
          execute_from w (S i) todo' operation (history ++ [ExecuteStep step])
      | Raised e =>
          let message :=
            "Step " +:+ pretty (i + 1) +:+ " (" +:+ name step +:+ ") failed: " +:+ e in
          let operation :=
            mkOperation (operation_id operation) (operation_type operation)
                        (alter (step_failed e) i (steps operation))
                        (completed_steps operation) (Some i)
                        (success operation) (Some message)
                        (rollback_completed operation) in
          match _rollback_operation w operation (history ++ [ExecuteStep step]) with
          | Raised msg => Raised msg
          | Returned (operation, history) =>
              Returned (mkResult false None None (error_message operation)
                          (Some (name step)) (Some (rollback_completed operation))
                          (operation_id operation),
                        operation, history)
          end
      end
  end.

(** [active_operations] holds the operation while it runs and drops it
    in the [finally] clause, so the registry is the same before and
    after the call and is left out. *)
Definition _execute_atomic_operation (w : World) (operation : AtomicOperation)
    (history : list Call) : Outcome (OperationResult * AtomicOperation * list Call) :=
  execute_from w 0 (steps operation) operation history.

(** *** Vocabulary of the statements *)

(** The compensating call a completed step receives: none when its
    [rollback_operation] is absent or empty. *)
Definition compensation (step : OperationStep) : option Call :=
  if truthy (rollback_operation step)
  then Some (ExecuteStep (rollback_step step))
  else None.

End Saga.
Arguments OperationStep : clear implicits.
Arguments AtomicOperation : clear implicits.
Arguments Call : clear implicits.
Arguments World : clear implicits.

(** *** delete_agent_atomically *)

(** The parameter values of the deletion steps. *)
Inductive Value :=
  | VNone
  | VBool (b : bool)
  | VStr (s : string).

(** The steps [delete_agent_atomically] declares. *)
Definition delete_agent_steps (agent_name : string) (force_cascade : bool)
    : list (@OperationStep Value) :=
  [ mkStep "analyze_deletion_impact" "dependency_manager" "analyze_deletion_impact"
           [("agent_name", VStr agent_name)] None None false None None;
    mkStep "execute_dependency_deletion" "dependency_manager" "execute_safe_deletion"
           [("agent_name", VStr agent_name); ("force_cascade", VBool force_cascade)]
           (Some "restore_deleted_agents") (Some [("deletion_plan", VNone)])
           false None None;
    mkStep "delete_agent_files" "agent_factory" "delete_agent"
           [("agent_name", VStr agent_name)]
           (Some "restore_agent")
           (Some [("agent_name", VStr agent_name); ("backup_config", VNone)])
           false None None;
    mkStep "update_prompts" "prompt_manager" "cascade_update_on_agent_removal"
           [("agent_name", VStr agent_name)]
           (Some "cascade_update_on_agent_addition") (Some [("agent_name", VStr agent_name)])
           false None None;
    mkStep "rebuild_workflow" "workflow_builder" "rebuild_workflow_on_agent_change"
           [("operation", VStr "remove"); ("agent_name", VStr agent_name)]
           (Some "rebuild_workflow_on_agent_change")
           (Some [("operation", VStr "add"); ("agent_name", VStr agent_name)])
           false None None ].

(** The operation [delete_agent_atomically] hands to
    [_execute_atomic_operation]; [operation_id] is the caller's or the
    generated one. *)
Definition delete_agent_operation (agent_name : string) (force_cascade : bool)
    (operation_id : string) : @AtomicOperation Value :=
  mkOperation operation_id "delete_agent" (delete_agent_steps agent_name force_cascade)
              [] None false None false.

(** *** _execute_dependency_manager_step *)

(** The branch for [validate_circular_dependencies]: the graph of the
    table, with a temporary node for the agent written over what the
    graph has under that name; [repr] renders the list of cycles as
    Python prints it. *)
Definition validate_circular_dependencies (repr : list (list string) → string)
    (db : list Models.Agent) (agent_name : string) (dependencies : list string)
    : option (Outcome (list (string * bool))) :=
  let current_nodes := DependencyManager.get_dependency_graph db in
  let temp_node := DependencyManager.mkNode agent_name (-1) dependencies [] in
  let current_nodes := dict_set agent_name temp_node current_nodes in
  circular_deps ← DependencyManager.detect_circular_dependencies current_nodes;
  Some (match circular_deps with
        | [] => Returned [("valid", true)]
        | _ :: _ => Raised ("Circular dependencies detected: " +:+ repr circular_deps)
        end).

End Lifecycle.

(** ** backend/langgraph/state.py, backend/agents/base_agent.py,
       workflows/langgraph.py *)

Module Scheduler.
Section Workflow.
(** [Output] is the type of the structured outputs agents store. *)
Context {Output : Type}.

(** The fields of [DynamicGlobalState] the scheduler reads or writes. *)
Record DynamicGlobalState := mkState {
  agent_outputs : gmap string (gmap Z Output);
  current_iteration : Z;
  max_iterations : Z;
  stability_threshold : Z;
  project_complete : bool;
  last_update_iteration : gmap string Z;
  agent_execution_status : gmap string string
}.

(** The [for agent_name, last_update in ...items()] loop of
    [check_stability]: [true] when it reaches its end, [false] when it
    returns early. *)
Fixpoint stability_loop (current_iteration stability_threshold : Z)
    (items : list (string * Z)) : bool :=
  match items with
  | [] => true
  | (agent_name, last_update) :: items' =>
      if (current_iteration - last_update <? stability_threshold)%Z then false
      else stability_loop current_iteration stability_threshold items'
  end.

Definition check_stability (self : DynamicGlobalState) : bool :=
  if (current_iteration self <? stability_threshold self)%Z then false
  else stability_loop (current_iteration self) (stability_threshold self)
                      (map_to_list (last_update_iteration self)).

(** What the scheduler reads of a [BaseAgent]. *)
Record BaseAgent := mkBaseAgent {
  name : string;
  dependencies : list string
}.

(** [any(iteration <= current_iteration for iteration in dep_outputs.keys())] *)
Definition has_recent_output (current_iteration : Z) (dep_outputs : gmap Z Output) : bool :=
  existsb (λ iteration, (iteration <=? current_iteration)%Z)
          (map_to_list dep_outputs).*1.

(** The [for dependency in self.dependencies] loop. *)
Fixpoint dependencies_loop (state : DynamicGlobalState) (deps : list string) : bool :=
  match deps with
  | [] => true
  | dependency :: deps' =>
      match agent_outputs state !! dependency with
      | None => false
      | Some dep_outputs =>
          if bool_decide (dep_outputs = ∅) then false
          else if negb (has_recent_output (current_iteration state) dep_outputs) then false
          else dependencies_loop state deps'
      end
  end.

Definition check_dependencies_ready (self : BaseAgent) (state : DynamicGlobalState) : bool :=
  if bool_decide (dependencies self = []) then true
  else dependencies_loop state (dependencies self).

(** [max(agent_outputs.keys())]; [None] is the [ValueError] on a
    dictionary without keys. *)
Definition max_key (outputs : gmap Z Output) : option Z :=
  match (map_to_list outputs).*1 with
  | [] => None
  | iteration :: iterations => Some (foldr Z.max iteration iterations)
  end.

(** [None] is Python's [None]; the lookup of the latest iteration is
    shown never to fail. *)
Definition get_own_previous_output (self : BaseAgent) (state : DynamicGlobalState)
    : option Output :=
  match agent_outputs state !! name self with
  | None => None
  | Some agent_outputs =>
      if bool_decide (agent_outputs = ∅) then None
      else latest_iteration ← max_key agent_outputs; agent_outputs !! latest_iteration
  end.

(** The loop of [get_dependency_outputs]; [None] is an exception of
    [max] or of the subscript. *)
Fixpoint dependency_outputs_loop (state : DynamicGlobalState) (deps : list string)
    (dependency_outputs : list (string * Output)) : option (list (string * Output)) :=
  match deps with
  | [] => Some dependency_outputs
  | dependency :: deps' =>
      match agent_outputs state !! dependency with
      | Some dep_outputs =>
          if bool_decide (dep_outputs = ∅)
          then dependency_outputs_loop state deps' dependency_outputs
          else
            latest_iteration ← max_key dep_outputs;
            output ← dep_outputs !! latest_iteration;
            dependency_outputs_loop state deps' (dict_set dependency output dependency_outputs)
      | None => dependency_outputs_loop state deps' dependency_outputs
      end
  end.

Definition get_dependency_outputs (self : BaseAgent) (state : DynamicGlobalState)
    : option (list (string * Output)) :=
  dependency_outputs_loop state (dependencies self) [].

(** [output] is what [outputs] holds at its highest iteration. *)
Definition latest_output (outputs : gmap Z Output) (output : Output) : Prop :=
  ∃ latest, outputs !! latest = Some output
            ∧ ∀ iteration, is_Some (outputs !! iteration) → (iteration ≤ latest)%Z.

Definition set_status (agent_name status : string) (state : DynamicGlobalState)
    : DynamicGlobalState :=
  mkState (agent_outputs state) (current_iteration state) (max_iterations state)
          (stability_threshold state) (project_complete state)
          (last_update_iteration state)
          (<[agent_name := status]> (agent_execution_status state)).

(** The tasks of a round are created together, by
    [asyncio.create_task(agent.process(state))] on the one state object,
    and run interleaved while the loop awaits them in turn; what a task
    does may depend on the tasks it runs with.
    [process round start task state] is [await task] for a task of the
    round [round] created on the content [start]: [state] is the content
    of the shared state as the loop left it after the task before, and
    the result is the content when the task is seen to return or raise,
    with the text of the exception when it raises.  Tasks that run one
    after the other are the case in which [round] and [start] are not
    used. *)
Section Aggregator.
Context {Config : Type}.
Variable _create_agent_instance : Config → option BaseAgent.
Variable process : list (nat * BaseAgent) → DynamicGlobalState → nat * BaseAgent
                   → DynamicGlobalState → DynamicGlobalState * option string.

(** The [for agent, task in tasks] loop over what is left, [tasks], of
    the tasks of [round].  Agents are told apart by their position in
    [agents], as [agent not in executed_agents] compares objects. *)
Fixpoint await_tasks (round : list (nat * BaseAgent)) (start : DynamicGlobalState)
    (tasks : list (nat * BaseAgent)) (state : DynamicGlobalState)
    (executed_agents : list nat) : DynamicGlobalState * list nat :=
  match tasks with
  | [] => (state, executed_agents)
  | (i, agent) :: tasks' =>
      match process round start (i, agent) state with
      | (state, None) => await_tasks round start tasks' state (executed_agents ++ [i])
      | (state, Some e) =>
          await_tasks round start tasks'
                      (set_status (name agent) ("error: " +:+ e) state)
                      executed_agents
      end
  end.

Definition ready_agents (agents : list BaseAgent) (executed_agents : list nat)
    (state : DynamicGlobalState) : list (nat * BaseAgent) :=
  filter (λ ia : nat * BaseAgent,
            (ia.1 ∉ executed_agents) ∧ (check_dependencies_ready ia.2 state = true))
         (imap pair agents).

(** The [for attempt in range(max_attempts)] loop.  Besides the state it
    returns the rounds of dispatch: the agents handed to
    [asyncio.create_task] and the state they were selected in. *)
Fixpoint attempts (n : nat) (agents : list BaseAgent) (state : DynamicGlobalState)
    (executed_agents : list nat) (rounds : list (list BaseAgent * DynamicGlobalState))
    : DynamicGlobalState * list (list BaseAgent * DynamicGlobalState) :=
  match n with
  | O => (state, rounds)
  | S n' =>
      let ready := ready_agents agents executed_agents state in
      if bool_decide (ready = []) then (state, rounds)
      else
        let '(state', executed_agents) :=
          await_tasks ready state ready state executed_agents in
        attempts n' agents state' executed_agents (rounds ++ [(ready.*2, state)])
  end.

Definition max_attempts : nat := 3.

(** [_create_agent_instance] catches its own exceptions and returns
    [None], so the [except] branch of the creation loop is never taken. *)
Definition dynamic_aggregator (agent_configs : list Config) (state : DynamicGlobalState)
    : DynamicGlobalState * list (list BaseAgent * DynamicGlobalState) :=
  let agents := omap _create_agent_instance agent_configs in
  if bool_decide (agents = []) then (state, [])
  else attempts max_attempts agents state [] [].

End Aggregator.
End Workflow.
Arguments DynamicGlobalState : clear implicits.
End Scheduler.

(** * Agents and conversations of the global state

    [backend/langgraph/state.py] and the messaging of
    [backend/agents/base_agent.py].  [GlobalState] adds the registry of
    agents and the conversations to the fields the scheduler uses; the
    conversations are only reached by key.  [Time] is the type of the
    readings of [time.time()]. *)

Module GlobalState.
Import Scheduler.
Section State.
Context {Output Config Meta Time : Type}.

Record AgentMessage := mkMessage {
  id : string;
  from_agent : string;
  to_agent : string;
  content : string;
  timestamp : Time;
  iteration : Z;
  metadata : list (string * Meta)
}.

Record AgentConversation := mkConversation {
  participants : list string;
  messages : list AgentMessage;
  last_activity : option Time
}.

Definition add_message (message : AgentMessage) (self : AgentConversation)
    : AgentConversation :=
  mkConversation (participants self) (messages self ++ [message])
                 (Some (timestamp message)).

Record GlobalState := mkGlobal {
  scheduling : DynamicGlobalState Output;
  conversations : gmap string AgentConversation;
  active_agents : list (string * Config)
}.

(** [sorted([agent1, agent2])]: Python orders strings by code point,
    which on the UTF-8 bytes a [string] holds is the order of
    [String.ltb]; the sort is stable. *)
Definition sorted_pair (agent1 agent2 : string) : list string :=
  if String.ltb agent2 agent1 then [agent2; agent1] else [agent1; agent2].

Definition conversation_key (agent1 agent2 : string) : string :=
  String.concat "_" (sorted_pair agent1 agent2).

Definition add_agent (agent_name : string) (agent_config : Config) (self : GlobalState)
    : GlobalState :=
  let s := scheduling self in
  mkGlobal
    (mkState
       (if bool_decide (is_Some (agent_outputs s !! agent_name)) then agent_outputs s
        else <[agent_name := ∅]> (agent_outputs s))
       (current_iteration s) (max_iterations s) (stability_threshold s)
       (project_complete s)
       (if bool_decide (is_Some (last_update_iteration s !! agent_name))
        then last_update_iteration s
        else <[agent_name := (-1)%Z]> (last_update_iteration s))
       (if bool_decide (is_Some (agent_execution_status s !! agent_name))
        then agent_execution_status s
        else <[agent_name := "ready"]> (agent_execution_status s)))
    (conversations self)
    (dict_set agent_name agent_config (active_agents self)).

(** [active_agents.pop(agent_name, None)] *)
Definition dict_pop {V} (k : string) (d : list (string * V)) : list (string * V) :=
  filter (λ item : string * V, item.1 ≠ k) d.

Definition remove_agent (agent_name : string) (self : GlobalState) : GlobalState :=
  let s := scheduling self in
  let to_remove :=
    (filter (λ item : string * AgentConversation, agent_name ∈ participants item.2)
            (map_to_list (conversations self))).*1 in
  mkGlobal
    (mkState (delete agent_name (agent_outputs s))
             (current_iteration s) (max_iterations s) (stability_threshold s)
             (project_complete s)
             (delete agent_name (last_update_iteration s))
             (delete agent_name (agent_execution_status s)))
    (foldl (λ conversations key, delete key conversations) (conversations self) to_remove)
    (dict_pop agent_name (active_agents self)).

Definition get_conversation (agent1 agent2 : string) (self : GlobalState)
    : option AgentConversation :=
  conversations self !! conversation_key agent1 agent2.

(** The state [create_conversation] leaves; the conversation it returns
    is the one stored under the key. *)
Definition create_conversation (agent1 agent2 : string) (self : GlobalState) : GlobalState :=
  mkGlobal (scheduling self)
           (<[conversation_key agent1 agent2 :=
                mkConversation (sorted_pair agent1 agent2) [] None]> (conversations self))
           (active_agents self).

(** [fmt] renders a reading of the clock as an f-string does; [now_id]
    and [now] are the two readings the message takes.  The key is
    present when the message is added. *)
Definition send_message (fmt : Time → string) (now_id now : Time)
    (from_agent to_agent content : string) (metadata : option (list (string * Meta)))
    (self : GlobalState) : GlobalState :=
  let conversation_key := conversation_key from_agent to_agent in
  let self :=
    if bool_decide (is_Some (conversations self !! conversation_key)) then self
    else create_conversation from_agent to_agent self in
  let message :=
    mkMessage (from_agent +:+ "_" +:+ to_agent +:+ "_" +:+ fmt now_id)
              from_agent to_agent content now
              (current_iteration (scheduling self)) (default [] metadata) in
  mkGlobal (scheduling self)
           (alter (add_message message) conversation_key (conversations self))
           (active_agents self).

(** *** Messaging of [BaseAgent] *)

(** [communication_rules] is [self.config.get("communication_rules")].
    [list(set(rules))] is only asked for membership. *)
Definition _get_communication_rules (self : BaseAgent)
    (communication_rules : option (list string)) : gset string :=
  list_to_set (dependencies self ++ default [] communication_rules).

Definition can_communicate_with (self : BaseAgent)
    (communication_rules : option (list string)) (other_agent : string) : bool :=
  bool_decide (other_agent ∈ _get_communication_rules self communication_rules).

(** [BaseAgent.send_message] *)
Definition agent_send_message (self : BaseAgent)
    (communication_rules : option (list string))
    (fmt : Time → string) (now_id now : Time)
    (state : GlobalState) (to_agent content : string)
    (metadata : option (list (string * Meta))) : GlobalState :=
  if negb (can_communicate_with self communication_rules to_agent) then state
  else
    let conversation_key := conversation_key (name self) to_agent in
    let conversations :=
      if bool_decide (is_Some (conversations state !! conversation_key))
      then conversations state
      else <[conversation_key := mkConversation (sorted_pair (name self) to_agent) [] None]>
             (conversations state) in
    let message :=
      mkMessage (name self +:+ "_" +:+ to_agent +:+ "_" +:+ fmt now_id)
                (name self) to_agent content now
                (current_iteration (scheduling state)) (default [] metadata) in
    mkGlobal (scheduling state)
             (alter (add_message message) conversation_key conversations)
             (active_agents state).

End State.
Arguments AgentMessage : clear implicits.
Arguments AgentConversation : clear implicits.
Arguments GlobalState : clear implicits.
End GlobalState.

(** * Sample data *)

(** A state at the boundary: iteration 3, threshold 3, one agent whose
    last materially different output dates from iteration 0. *)
Definition boundary_state : Scheduler.DynamicGlobalState unit :=
  Scheduler.mkState ∅ 3 10 3 false {[ "aerodynamics" := 0%Z ]} ∅.

(** Three agents: structures depends on mission_planner and on
    aerodynamics, aerodynamics on mission_planner. *)
Definition uav_db : list Models.Agent :=
  [ Models.mkAgent 1 "mission_planner" Models.INACTIVE (Some []);
    Models.mkAgent 2 "aerodynamics" Models.INACTIVE (Some ["mission_planner"]);
    Models.mkAgent 3 "structures" Models.RUNNING
                   (Some ["mission_planner"; "aerodynamics"]) ].

(** One agent that lists itself. *)
Definition self_db : list Models.Agent :=
  [ Models.mkAgent 1 "propulsion" Models.INACTIVE (Some ["propulsion"]) ].

(** The six steps [create_agent_atomically] declares for an agent with
    dependencies (parameter values abbreviated to strings). *)
Definition create_step (name service operation : string)
    (rollback : option (string * list (string * string))) : Lifecycle.OperationStep string :=
  Lifecycle.mkStep name service operation [("agent_name", "thermal")]
                   (fst <$> rollback) (snd <$> rollback) false None None.

Definition create_steps : list (Lifecycle.OperationStep string) :=
  [ create_step "validate_dependencies" "dependency_manager"
                "validate_circular_dependencies" None;
    create_step "validate_files" "agent_factory" "validate_agent_files"
                (Some ("cleanup_validation_artifacts", [("agent_name", "thermal")]));
    create_step "create_agent_files" "agent_factory" "create_agent"
                (Some ("delete_agent", [("agent_name", "thermal")]));
    create_step "create_database_record" "database" "create_agent_record"
                (Some ("delete_agent_record", [("agent_name", "thermal")]));
    create_step "update_prompts" "prompt_manager" "cascade_update_on_agent_addition"
                (Some ("cascade_update_on_agent_removal", [("agent_name", "thermal")]));
    create_step "rebuild_workflow" "workflow_builder" "rebuild_workflow_on_agent_change"
                (Some ("rebuild_workflow_on_agent_change",
                       [("operation", "remove"); ("agent_name", "thermal")])) ].

Definition create_operation : Lifecycle.AtomicOperation string :=
  Lifecycle.mkOperation "create_agent_0001" "create_agent" create_steps [] None false None false.

(** Collaborators that work, except that the record cannot be created. *)
Definition record_creation_fails : Lifecycle.World string :=
  Lifecycle.mkWorld
    (λ _ step, if decide (Lifecycle.operation step = "create_agent_record")
               then Lifecycle.Raised "IntegrityError"
               else Lifecycle.Returned "ok")
    (λ _, Lifecycle.Returned ()).

(** Collaborators that work. *)
Definition collaborators_work : Lifecycle.World string :=
  Lifecycle.mkWorld (λ _ _, Lifecycle.Returned "ok") (λ _, Lifecycle.Returned ()).

(** One iteration in which mission_planner has an output and propulsion
    has none. *)
Definition iteration_one : Scheduler.DynamicGlobalState unit :=
  Scheduler.mkState {[ "mission_planner" := {[ 0%Z := () ]} ]} 1 10 3 false ∅ ∅.

Definition three_agents : list Scheduler.BaseAgent :=
  [ Scheduler.mkBaseAgent "mission_planner" [];
    Scheduler.mkBaseAgent "aerodynamics" ["mission_planner"];
    Scheduler.mkBaseAgent "structures" ["propulsion"] ].

Definition first_round : list Scheduler.BaseAgent * Scheduler.DynamicGlobalState unit :=
  ([ Scheduler.mkBaseAgent "mission_planner" [];
     Scheduler.mkBaseAgent "aerodynamics" ["mission_planner"] ], iteration_one).


(** Two agents that depend on each other. *)
Definition mutual_db : list Models.Agent :=
  [ Models.mkAgent 1 "aerodynamics" Models.INACTIVE (Some ["structures"]);
    Models.mkAgent 2 "structures" Models.INACTIVE (Some ["aerodynamics"]) ].

(** An agent in the ERROR state that an INACTIVE agent lists. *)
Definition failed_db : list Models.Agent :=
  [ Models.mkAgent 1 "propulsion" Models.ERROR (Some []);
    Models.mkAgent 2 "structures" Models.INACTIVE (Some ["propulsion"]) ].

(** Depth of an agent of [uav_db] in its dependency chain. *)
Definition uav_rank (agent_name : string) : nat :=
  if decide (agent_name = "structures") then 2
  else if decide (agent_name = "aerodynamics") then 1
  else 0.

(** * Properties *)

#[local] Set Warnings "-clear-no-such-hyp".

Lemma size_list_to_set_le (l : list string) :
  size (list_to_set l : gset string) ≤ length l.
Proof.
  induction l as [|x l IH].
  - rewrite list_to_set_nil, size_empty. done.
  - rewrite list_to_set_cons, size_union_alt, size_singleton. simpl.
    pose proof (subseteq_size (list_to_set l ∖ {[x]}) (list_to_set l : gset string)
                  ltac:(set_solver)).
    lia.
Qed.

(** ** Dictionaries *)

Section DictFacts.
Context {V : Type}.
Implicit Types (d : list (string * V)) (k : string) (v : V).

Lemma dict_get_Some_elem k v d : dict_get k d = Some v → (k, v) ∈ d.
Proof.
  induction d as [|[k' v'] d IH]; csimpl; [done|].
  case_decide; intros Hg.
  - injection Hg as ->. subst. left.
  - right. auto.
Qed.

Lemma dict_get_is_Some k d : is_Some (dict_get k d) ↔ k ∈ d.*1.
Proof.
  induction d as [|[k' v'] d IH]; csimpl.
  - split; [intros [? ?]; done | intros H; inversion H].
  - case_decide; subst.
    + split; [intros _; left | eauto].
    + rewrite IH, elem_of_cons. split; [by right | intros [?|?]; done].
Qed.

Lemma dict_get_None k d : dict_get k d = None ↔ k ∉ d.*1.
Proof. rewrite <- dict_get_is_Some, eq_None_not_Some. done. Qed.

Lemma dict_mem_true k d : dict_mem k d = true ↔ k ∈ d.*1.
Proof. unfold dict_mem. rewrite bool_decide_eq_true. apply dict_get_is_Some. Qed.

Lemma dict_get_elem_NoDup k v d : NoDup d.*1 → (k, v) ∈ d → dict_get k d = Some v.
Proof.
  induction d as [|[k' v'] d IH]; csimpl; intros Hnd Hin.
  - inversion Hin.
  - apply NoDup_cons in Hnd as [Hk Hnd].
    apply elem_of_cons in Hin as [Heq | Hin].
    + injection Heq as -> ->. by rewrite decide_True.
    + rewrite decide_False; [auto|].
      intros ->. apply Hk. apply list_elem_of_fmap. by exists (k', v).
Qed.

Lemma dict_alter_keys f k d : (dict_alter f k d).*1 = d.*1.
Proof.
  induction d as [|[k' v'] d IH]; csimpl; [done|].
  case_decide; csimpl; [done | by rewrite IH].
Qed.

Lemma dict_get_alter f k k' d :
  dict_get k' (dict_alter f k d)
  = if decide (k = k') then f <$> dict_get k d else dict_get k' d.
Proof.
  induction d as [|[k0 v0] d IH]; csimpl; [by case_decide|].
  destruct (decide (k = k0)) as [->|Hk0]; csimpl; rewrite ?IH;
    repeat case_decide; simplify_eq; done.
Qed.

Lemma dict_set_keys k v d k' : k' ∈ (dict_set k v d).*1 ↔ k' = k ∨ k' ∈ d.*1.
Proof.
  induction d as [|[k0 v0] d IH]; csimpl.
  - rewrite list_elem_of_singleton. split; [by left | intros [?|H]; [done | inversion H]].
  - case_decide; csimpl; subst.
    + rewrite elem_of_cons. split; [by right | intros [->|?]; [by left | done]].
    + rewrite !elem_of_cons, IH. tauto.
Qed.

Lemma dict_set_NoDup k v d : NoDup d.*1 → NoDup (dict_set k v d).*1.
Proof.
  induction d as [|[k0 v0] d IH]; csimpl; intros Hnd.
  - apply NoDup_singleton.
  - apply NoDup_cons in Hnd as [Hk Hnd].
    case_decide; csimpl; subst.
    + by apply NoDup_cons.
    + apply NoDup_cons. split; [|auto].
      rewrite dict_set_keys. intros [?|?]; done.
Qed.

Lemma dict_get_set k v d k' :
  dict_get k' (dict_set k v d) = if decide (k = k') then Some v else dict_get k' d.
Proof.
  induction d as [|[k0 v0] d IH]; csimpl; [repeat case_decide; simplify_eq; done|].
  destruct (decide (k = k0)) as [->|Hk0]; csimpl; rewrite ?IH;
    repeat case_decide; simplify_eq; done.
Qed.

End DictFacts.

(** ** The scheduler's stability check *)

Section StabilityFacts.
Import Scheduler.
Context {Output : Type}.
Implicit Types (s : DynamicGlobalState Output).

Lemma stability_loop_true (c t : Z) (items : list (string * Z)) :
  stability_loop c t items = true
  ↔ ∀ a lu, (a, lu) ∈ items → (t ≤ c - lu)%Z.
Proof.
  induction items as [|[a lu] items IH]; simpl.
  - split; [intros _ ? ? H; inversion H | done].
  - destruct (Z.ltb_spec (c - lu) t) as [Hlt|Hge].
    + split; [done|]. intros H. specialize (H a lu ltac:(left)). lia.
    + rewrite IH. split.
      * intros H a' lu' [Heq|Hin]%elem_of_cons; [by injection Heq as -> ->|eauto].
      * intros H a' lu' Hin. apply (H a' lu'). by right.
Qed.

(** C2 (as amended).  [check_stability] answers true exactly when the
    current iteration has reached the stability threshold and, for every
    tracked agent, at least [stability_threshold] iterations separate the
    current iteration from the agent's last materially different output:
    [current_iteration - last_update_iteration >= stability_threshold]. *)
Theorem check_stability_spec s :
  check_stability s = true
  ↔ (stability_threshold s ≤ current_iteration s)%Z
    ∧ ∀ agent_name last_update,
        last_update_iteration s !! agent_name = Some last_update →
        (stability_threshold s ≤ current_iteration s - last_update)%Z.
Proof.
  unfold check_stability.
  destruct (Z.ltb_spec (current_iteration s) (stability_threshold s)) as [Hlt|Hge].
  - split; [done | intros [? _]; lia].
  - rewrite stability_loop_true. split.
    + intros H. split; [done|]. intros a lu Hlu.
      apply elem_of_map_to_list in Hlu. specialize (H a lu Hlu). lia.
    + intros [_ H] a lu Hin. apply elem_of_map_to_list in Hin.
      specialize (H a lu Hin). lia.
Qed.

End StabilityFacts.

(** C2, as stated, fails: the check reports stability when exactly
    [stability_threshold] iterations have passed, not only when more
    have. *)
Lemma check_stability_not_strict :
  ¬ (Scheduler.check_stability boundary_state = true
     ↔ (Scheduler.stability_threshold boundary_state
          ≤ Scheduler.current_iteration boundary_state)%Z
       ∧ ∀ agent_name last_update,
           Scheduler.last_update_iteration boundary_state !! agent_name
             = Some last_update →
           (Scheduler.stability_threshold boundary_state
              < Scheduler.current_iteration boundary_state - last_update)%Z).
Proof.
  intros [H _].
  assert (Hc : Scheduler.check_stability boundary_state = true) by (vm_compute; done).
  destruct (H Hc) as [_ Hall].
  specialize (Hall "aerodynamics" 0%Z (lookup_singleton_eq _ _)).
  simpl in Hall. lia.
Qed.

(** ** The graph builder *)

Section BuilderFacts.
Import DependencyManager.
Implicit Types (nodes items : list (string * DependencyNode)) (db : list Models.Agent).

Lemma populate_one_keys who deps nodes : (populate_one who deps nodes).*1 = nodes.*1.
Proof.
  revert nodes. induction deps as [|dep deps IH]; intros nodes; [done|].
  unfold populate_one in *. simpl. rewrite IH.
  destruct (dict_mem dep nodes); [apply dict_alter_keys | done].
Qed.

Lemma populate_keys items nodes : (populate_dependents items nodes).*1 = nodes.*1.
Proof.
  unfold populate_dependents. revert nodes.
  induction items as [|item items IH]; intros nodes; [done|].
  simpl. rewrite IH. apply populate_one_keys.
Qed.

Lemma populate_one_dependencies who deps nodes y :
  node_dependencies (populate_one who deps nodes) y = node_dependencies nodes y.
Proof.
  revert nodes. induction deps as [|dep deps IH]; intros nodes; [done|].
  unfold populate_one in *. simpl. rewrite IH.
  destruct (dict_mem dep nodes); [|done].
  unfold node_dependencies. rewrite dict_get_alter.
  case_decide; [subst|done]. by destruct (dict_get y nodes).
Qed.

Lemma populate_dependencies items nodes y :
  node_dependencies (populate_dependents items nodes) y = node_dependencies nodes y.
Proof.
  unfold populate_dependents. revert nodes.
  induction items as [|item items IH]; intros nodes; [done|].
  simpl. rewrite IH. apply populate_one_dependencies.
Qed.

Lemma populate_one_dependents who deps nodes y d :
  d ∈ node_dependents (populate_one who deps nodes) y
  ↔ d ∈ node_dependents nodes y ∨ (d = who ∧ y ∈ deps ∧ y ∈ nodes.*1).
Proof.
  revert nodes. induction deps as [|dep deps IH]; intros nodes.
  - simpl. split; [by left | intros [?|(_ & H & _)]; [done | inversion H]].
  - unfold populate_one in *. simpl. rewrite IH. clear IH.
    destruct (dict_mem dep nodes) eqn:Hmem.
    + rewrite dict_alter_keys. unfold node_dependents. rewrite dict_get_alter.
      apply dict_mem_true, dict_get_is_Some in Hmem as [n Hn].
      destruct (decide (dep = y)) as [->|Hne].
      * rewrite Hn. simpl. rewrite elem_of_app, list_elem_of_singleton, elem_of_cons.
        assert (y ∈ nodes.*1) by (apply dict_get_is_Some; eauto).
        tauto.
      * rewrite elem_of_cons. split; [tauto|].
        intros [?|(? & [?|?] & ?)]; [tauto | congruence | tauto].
    + rewrite elem_of_cons. split; [tauto|].
      intros [?|(? & [->|?] & Hk)]; [tauto | | tauto].
      apply dict_mem_true in Hk. congruence.
Qed.

Lemma populate_dependents_spec items nodes y d :
  d ∈ node_dependents (populate_dependents items nodes) y
  ↔ d ∈ node_dependents nodes y
    ∨ (∃ item, item ∈ items ∧ item.1 = d ∧ y ∈ dependencies item.2 ∧ y ∈ nodes.*1).
Proof.
  unfold populate_dependents. revert nodes.
  induction items as [|item items IH]; intros nodes.
  - simpl. split; [by left | intros [?|(? & H & _)]; [done | inversion H]].
  - simpl. rewrite IH, populate_one_dependents, populate_one_keys. split.
    + intros [[?|(? & ? & ?)]|(it & ? & ? & ? & ?)].
      * by left.
      * right. exists item. split; [left | done].
      * right. exists it. split; [by right | done].
    + intros [?|(it & [->|?]%elem_of_cons & ? & ? & ?)].
      * by left; left.
      * left; right. done.
      * right. by exists it.
Qed.

Lemma build_nodes_fold (names : gset string) (agents : list Models.Agent) nodes :
  fresh_nodes names nodes →
  let result :=
    foldl (λ nodes agent,
             dict_set (Models.name agent)
               (mkNode (Models.name agent) (Models.id agent)
                  (filter (λ dep, dep ∈ names) (default [] (Models.dependencies agent))) [])
               nodes) nodes agents in
  fresh_nodes names result
  ∧ ∀ k, k ∈ result.*1 ↔ k ∈ nodes.*1 ∨ k ∈ Models.name <$> agents.
Proof.
  revert nodes. induction agents as [|agent agents IH]; intros nodes Hfresh; csimpl.
  - split; [done|]. intros k. split; [by left | intros [?|H]; [done | inversion H]].
  - edestruct (IH (dict_set (Models.name agent)
               (mkNode (Models.name agent) (Models.id agent)
                  (filter (λ dep, dep ∈ names) (default [] (Models.dependencies agent))) [])
               nodes)) as [Hres Hkeys].
    + destruct Hfresh as [Hnd Hnodes]. split; [by apply dict_set_NoDup|].
      intros k node. rewrite dict_get_set. case_decide; [|by apply Hnodes].
      intros [= <-]. simpl. split; [done|].
      intros dep Hdep. by apply list_elem_of_filter in Hdep as [? _].
    + split; [done|]. intros k. rewrite Hkeys, dict_set_keys, elem_of_cons.
      tauto.
Qed.

Lemma build_nodes_spec agents :
  fresh_nodes (list_to_set (Models.name <$> agents)) (build_nodes agents)
  ∧ ∀ k, k ∈ (build_nodes agents).*1 ↔ k ∈ Models.name <$> agents.
Proof.
  destruct (build_nodes_fold (list_to_set (Models.name <$> agents)) agents []) as [H1 H2].
  - split; [constructor | done].
  - split; [done|]. intros k. unfold build_nodes. rewrite H2.
    split; [intros [H|?]; [inversion H | done] | by right].
Qed.

(** The graph of [get_dependency_graph]: distinct keys, every dependency
    a key, and [dependents] the exact converse of [dependencies]. *)
Lemma graph_NoDup db : NoDup (get_dependency_graph db).*1.
Proof.
  unfold get_dependency_graph. rewrite populate_keys.
  apply build_nodes_spec.
Qed.

Lemma graph_closed db x y :
  depends_on (get_dependency_graph db) x y → y ∈ (get_dependency_graph db).*1.
Proof.
  unfold depends_on, get_dependency_graph.
  rewrite populate_dependencies, populate_keys.
  set (agents := filter _ db).
  destruct (build_nodes_spec agents) as [[_ Hnodes] Hkeys].
  unfold node_dependencies. destruct (dict_get x (build_nodes agents)) as [node|] eqn:Hx.
  - intros Hy. apply Hkeys. apply (Hnodes _ _ Hx) in Hy. by apply elem_of_list_to_set in Hy.
  - intros H. inversion H.
Qed.

Lemma graph_dependents db x y :
  x ∈ node_dependents (get_dependency_graph db) y ↔ depends_on (get_dependency_graph db) x y.
Proof.
  split.
  - unfold depends_on, get_dependency_graph.
    rewrite populate_dependencies, populate_dependents_spec.
    set (agents := filter _ db).
    destruct (build_nodes_spec agents) as [[Hnd Hnodes] Hkeys].
    intros [Hx|(item & Hitem & <- & Hy & _)].
    + unfold node_dependents in Hx.
      destruct (dict_get y (build_nodes agents)) as [node|] eqn:Hg; [|inversion Hx].
      apply Hnodes in Hg as [Hg _]. rewrite Hg in Hx. inversion Hx.
    + unfold node_dependencies. destruct item as [k node]. simpl in *.
      by rewrite (dict_get_elem_NoDup _ _ _ Hnd Hitem).
  - intros Hdep. pose proof (graph_closed _ _ _ Hdep) as Hy.
    unfold depends_on, get_dependency_graph in *.
    rewrite populate_dependencies in Hdep. rewrite populate_keys in Hy.
    rewrite populate_dependents_spec. right.
    unfold node_dependencies in Hdep.
    destruct (dict_get x (build_nodes _)) as [node|] eqn:Hx; [|inversion Hdep].
    exists (x, node). split; [by apply dict_get_Some_elem | done].
Qed.

End BuilderFacts.

(** ** Orphaned dependencies *)

Section OrphanFacts.
Import DependencyManager.

Lemma find_orphaned_nil (nodes : list (string * DependencyNode)) :
  (∀ node dep, node ∈ nodes.*2 → dep ∈ dependencies node → dep ∈ nodes.*1) →
  find_orphaned_dependencies nodes = [].
Proof.
  intros Hclosed. unfold find_orphaned_dependencies, dict_values, dict_keys.
  set (agent_names := list_to_set nodes.*1 : gset string).
  assert (Hinner : ∀ (node : DependencyNode) deps orphaned,
             (∀ dep, dep ∈ deps → dep ∈ agent_names) →
             foldl (λ orphaned dependency,
                      if bool_decide (dependency ∉ agent_names)
                      then orphaned ++ [orphan_message (name node) dependency]
                      else orphaned) orphaned deps = orphaned).
  { intros node deps. induction deps as [|dep deps IH]; intros orphaned Hdeps; [done|].
    simpl. rewrite bool_decide_eq_false_2.
    - apply IH. intros d Hd. apply Hdeps. by right.
    - intros Hn. apply Hn, Hdeps. left. }
  assert (Houter : ∀ values orphaned,
             (∀ node, node ∈ values → node ∈ nodes.*2) →
             foldl (λ orphaned node,
                      foldl (λ orphaned dependency,
                               if bool_decide (dependency ∉ agent_names)
                               then orphaned ++ [orphan_message (name node) dependency]
                               else orphaned) orphaned (dependencies node))
                   orphaned values = orphaned).
  { intros values. induction values as [|node values IH]; intros orphaned Hsub; [done|].
    simpl. rewrite Hinner.
    - apply IH. intros n Hn. apply Hsub. by right.
    - intros dep Hdep. apply elem_of_list_to_set. apply (Hclosed node); [|done].
      apply Hsub. left. }
  by apply Houter.
Qed.

(** C10.  On every graph [get_dependency_graph] builds,
    [find_orphaned_dependencies] returns the empty list: the builder
    keeps in each node only the dependencies that name a selected agent,
    and those are exactly the keys. *)
Theorem built_graph_has_no_orphans (db : list Models.Agent) :
  find_orphaned_dependencies (get_dependency_graph db) = [].
Proof.
  apply find_orphaned_nil. intros node dep Hnode Hdep.
  apply list_elem_of_fmap in Hnode as ([k node'] & -> & Hin). simpl in Hdep.
  apply (graph_closed db k). unfold depends_on, node_dependencies.
  by rewrite (dict_get_elem_NoDup _ _ _ (graph_NoDup db) Hin).
Qed.

End OrphanFacts.

(** ** Deletion of an agent nobody depends on *)

Section TrivialPlanFacts.
Import DependencyManager.

(** C8 (as amended).  When [n] is a node of the graph and no agent of the
    graph, [n] itself included, lists [n] as a dependency,
    [analyze_deletion_impact] returns the plan with
    [can_delete_safely = true] and [deletion_order = [n]]. *)
Theorem analyze_deletion_impact_no_dependents
    (set_iter : gset string → list string) (db : list Models.Agent) (n : string) :
  n ∈ (get_dependency_graph db).*1 →
  (∀ m, ¬ depends_on (get_dependency_graph db) m n) →
  analyze_deletion_impact set_iter db n = Some (mkPlan n true [] false [n] []).
Proof.
  intros Hkey Hnone. unfold analyze_deletion_impact.
  apply dict_get_is_Some in Hkey as [node Hnode]. rewrite Hnode.
  assert (Hdeps : dependents node = []).
  { destruct (dependents node) as [|d ds] eqn:Hd; [done|].
    exfalso. apply (Hnone d). apply graph_dependents.
    unfold node_dependents. rewrite Hnode, Hd. left. }
  by rewrite Hdeps.
Qed.

End TrivialPlanFacts.

Lemma uav_graph_dependencies m :
  DependencyManager.node_dependencies (DependencyManager.get_dependency_graph uav_db) m
  = if decide (m = "mission_planner") then []
    else if decide (m = "aerodynamics") then ["mission_planner"]
    else if decide (m = "structures") then ["mission_planner"; "aerodynamics"]
    else [].
Proof.
  unfold DependencyManager.node_dependencies.
  let g := eval vm_compute in (DependencyManager.get_dependency_graph uav_db) in
  change (DependencyManager.get_dependency_graph uav_db) with g.
  simpl. repeat case_decide; done.
Qed.

Lemma analyze_deletion_impact_no_dependents_witness :
  DependencyManager.analyze_deletion_impact elements uav_db "structures"
  = Some (DependencyManager.mkPlan "structures" true [] false ["structures"] []).
Proof.
  apply analyze_deletion_impact_no_dependents.
  - vm_compute. do 2 right. left.
  - intros m. unfold DependencyManager.depends_on. rewrite uav_graph_dependencies.
    repeat case_decide; intros Hin%list_elem_of_In; simpl in Hin; intuition discriminate.
Defined.

(** C8, as stated, fails: no other agent depends on propulsion, yet the
    agent is its own dependent and no safe single-element plan comes
    out, whatever the iteration order of sets. *)
Lemma self_dependent_agent_not_safe :
  "propulsion" ∈ (DependencyManager.get_dependency_graph self_db).*1
  ∧ (∀ m, m ≠ "propulsion" →
       ¬ DependencyManager.depends_on (DependencyManager.get_dependency_graph self_db)
           m "propulsion")
  ∧ ∀ set_iter plan,
      DependencyManager.analyze_deletion_impact set_iter self_db "propulsion" = Some plan →
      DependencyManager.can_delete_safely plan = false.
Proof.
  split; [vm_compute; left|]. split.
  - intros m Hm. unfold DependencyManager.depends_on, DependencyManager.node_dependencies.
    let g := eval vm_compute in (DependencyManager.get_dependency_graph self_db) in
    change (DependencyManager.get_dependency_graph self_db) with g.
    simpl. rewrite decide_False by done. intros H. inversion H.
  - intros set_iter plan. unfold DependencyManager.analyze_deletion_impact.
    let g := eval vm_compute in (DependencyManager.get_dependency_graph self_db) in
    change (DependencyManager.get_dependency_graph self_db) with g.
    simpl.
    destruct (DependencyManager._calculate_cascade_deletion_order _ _ _); simpl;
      [|done].
    by intros [= <-].
Qed.

(** ** Depth of the dependency chain *)

Section ChainFacts.
Import DependencyManager.
Implicit Types (nodes : list (string * DependencyNode)) (visited : gset string).

(** The keys of the graph not yet on the current chain bound the depth
    of the recursion. *)
Lemma chain_length_enough_fuel nodes fuel agent_name visited :
  size ((list_to_set nodes.*1 : gset string) ∖ visited) < fuel →
  is_Some (chain_length fuel nodes agent_name visited).
Proof.
  revert agent_name visited.
  induction fuel as [|fuel IH]; intros agent_name visited Hfuel; [lia|].
  simpl. case_bool_decide as Hvis; [by eexists|].
  destruct (dict_get agent_name nodes) as [node|] eqn:Hnode; [|by eexists].
  case_bool_decide; [by eexists|].
  assert (Hsmaller :
    size ((list_to_set nodes.*1 : gset string) ∖ ({[agent_name]} ∪ visited)) < fuel).
  { assert (Hkey : agent_name ∈ (list_to_set nodes.*1 : gset string)).
    { apply elem_of_list_to_set, dict_get_is_Some. eauto. }
    assert ((list_to_set nodes.*1 : gset string) ∖ ({[agent_name]} ∪ visited)
            ⊂ (list_to_set nodes.*1 : gset string) ∖ visited) as Hsub%subset_size.
    { apply strict_spec_alt. split; [set_solver|]. intros Heq.
      assert (Hin : agent_name ∈ (list_to_set nodes.*1 : gset string) ∖ visited)
        by set_solver.
      rewrite <- Heq in Hin. set_solver. }
    lia. }
  assert (Hloop : ∀ deps acc,
    is_Some acc →
    is_Some (foldl (λ acc dependency,
                      max_depth ← acc;
                      depth ← chain_length fuel nodes dependency ({[agent_name]} ∪ visited);
                      Some (Z.max max_depth depth)) acc deps)).
  { induction deps as [|dep deps IHd]; intros acc [m ->]; [by eexists|].
    simpl. apply IHd.
    destruct (IH dep ({[agent_name]} ∪ visited) Hsmaller) as [d ->]. by eexists. }
  destruct (Hloop (dependencies node) (Some 0%Z)) as [m ->]; [by eexists|].
  by eexists.
Qed.

Lemma chain_length_S nodes fuel agent_name visited :
  chain_length (S fuel) nodes agent_name visited
  = if bool_decide (agent_name ∈ visited) then Some 0%Z
    else
      match dict_get agent_name nodes with
      | None => Some 1%Z
      | Some node =>
          if bool_decide (dependencies node = []) then Some 1%Z
          else
            max_depth ← foldl (λ acc dependency,
                                 max_depth ← acc;
                                 depth ← chain_length fuel nodes dependency
                                           ({[agent_name]} ∪ visited);
                                 Some (Z.max max_depth depth))
                              (Some 0%Z) (dependencies node);
            Some (max_depth + 1)%Z
      end.
Proof. done. Qed.

(** A larger bound gives the same depth. *)
Lemma chain_length_more_fuel nodes fuel agent_name visited depth :
  chain_length fuel nodes agent_name visited = Some depth →
  chain_length (S fuel) nodes agent_name visited = Some depth.
Proof.
  revert agent_name visited depth.
  induction fuel as [|fuel IH]; intros agent_name visited depth; [done|].
  rewrite (chain_length_S nodes (S fuel)), (chain_length_S nodes fuel).
  case_bool_decide; [done|].
  destruct (dict_get agent_name nodes) as [node|]; [|done].
  case_bool_decide; [done|].
  assert (Hloop : ∀ deps acc r,
    foldl (λ acc dependency,
             max_depth ← acc;
             depth ← chain_length fuel nodes dependency ({[agent_name]} ∪ visited);
             Some (Z.max max_depth depth)) acc deps = Some r →
    foldl (λ acc dependency,
             max_depth ← acc;
             depth ← chain_length (S fuel) nodes dependency ({[agent_name]} ∪ visited);
             Some (Z.max max_depth depth)) acc deps = Some r).
  { induction deps as [|d deps IHd]; intros acc r; [done|].
    cbn [foldl]. intros Hrun. apply IHd.
    destruct acc as [m|]; [|done]. cbn [mbind option_bind] in *.
    destruct (chain_length fuel nodes d ({[agent_name]} ∪ visited)) as [x|] eqn:Hx.
    - by rewrite (IH _ _ _ Hx).
    - exfalso. cbn [mbind option_bind] in Hrun. clear -Hrun.
      induction deps as [|d' deps IHd']; [done | by apply IHd']. }
  destruct (foldl _ _ _) as [m|] eqn:Hm; [|done].
  by rewrite (Hloop _ _ _ Hm).
Qed.

(** C9.  [_calculate_dependency_chain_length] returns an integer for
    every graph, cyclic or not, and every name, the same for every
    larger bound on the recursion depth; and a call on a name that is
    already in its visited set returns 0 at once. *)
Theorem chain_length_total nodes agent_name :
  (∃ depth : Z,
     _calculate_dependency_chain_length agent_name nodes = Some depth
     ∧ ∀ fuel, length nodes < fuel → chain_length fuel nodes agent_name ∅ = Some depth)
  ∧ ∀ fuel visited,
      chain_length (S fuel) nodes agent_name ({[agent_name]} ∪ visited) = Some 0%Z.
Proof.
  split.
  - destruct (chain_length_enough_fuel nodes (S (length nodes)) agent_name ∅)
      as [depth Hdepth].
    { rewrite difference_empty_L.
      pose proof (size_list_to_set_le nodes.*1) as Hle.
      rewrite length_fmap in Hle. lia. }
    exists depth. split; [done|]. intros fuel Hfuel.
    replace fuel with ((fuel - S (length nodes)) + S (length nodes)) by lia.
    induction (fuel - S (length nodes)) as [|extra IHextra]; [done|].
    by apply chain_length_more_fuel.
  - intros fuel visited.
    rewrite chain_length_S, bool_decide_eq_true_2; [done | set_solver].
Qed.

End ChainFacts.

(** ** The saga engine *)

Section SagaFacts.
Import Lifecycle.
Context {Any : Type}.
Implicit Types (w : World Any) (step : OperationStep Any) (op : AtomicOperation Any)
  (history : list (Call Any)).

Lemma omap_reverse {A B} (f : A → option B) (l : list A) :
  omap f (reverse l) = reverse (omap f l).
Proof.
  induction l as [|x l IH]; [done|].
  rewrite reverse_cons, omap_app, IH. csimpl.
  destruct (f x); csimpl; [by rewrite reverse_cons | by rewrite app_nil_r].
Qed.

Lemma omap_fmap_eq {A B} (f : A → option B) (l1 l2 : list A) :
  f <$> l1 = f <$> l2 → omap f l1 = omap f l2.
Proof.
  revert l2. induction l1 as [|x l1 IH]; intros [|y l2] Heq; try done.
  csimpl in *. injection Heq as Hxy Hrest. by rewrite Hxy, (IH l2).
Qed.

Lemma omap_lookup_seq {A B} (f : A → option B) (l : list A) (k : nat) :
  k ≤ length l → omap (λ i, l !! i ≫= f) (seq 0 k) = omap f (take k l).
Proof.
  induction k as [|k IH]; intros Hk; [done|].
  destruct (lookup_lt_is_Some_2 l k) as [x Hx]; [lia|].
  rewrite seq_S, omap_app, IH by lia.
  rewrite (take_S_r _ _ _ Hx), omap_app. csimpl. by rewrite Hx.
Qed.

Lemma compensation_alter (g : OperationStep Any → OperationStep Any) i
    (l : list (OperationStep Any)) :
  (∀ step, compensation (g step) = compensation step) →
  compensation <$> alter g i l = compensation <$> l.
Proof.
  intros Hg. revert i. induction l as [|x l IH]; intros [|i]; csimpl; [done..| |].
  - by rewrite Hg.
  - by rewrite IH.
Qed.

(** The sweep visits every index it is given, whatever the compensating
    calls return or raise. *)
Lemma rollback_loop_spec w (steps : list (OperationStep Any)) (todo : list nat) history :
  Forall (λ i, i < length steps) todo →
  rollback_loop w steps todo history
  = Returned (history ++ omap (λ i, steps !! i ≫= compensation) todo).
Proof.
  intros Hall. revert history.
  induction Hall as [|i todo Hi _ IH]; intros history; csimpl.
  - by rewrite app_nil_r.
  - destruct (lookup_lt_is_Some_2 steps i Hi) as [step Hstep].
    rewrite Hstep. csimpl. unfold compensation.
    destruct (truthy (rollback_operation step)); csimpl.
    + destruct (_execute_step w history (rollback_step step));
        rewrite IH; by rewrite <- app_assoc.
    + apply IH.
Qed.

Lemma execute_from_failure w (steps0 : list (OperationStep Any)) history0 k failing e :
  steps0 !! k = Some failing →
  (∀ j step, j < k → steps0 !! j = Some step →
     ∃ r, _execute_step w (history0 ++ (ExecuteStep <$> take j steps0)) step = Returned r) →
  _execute_step w (history0 ++ (ExecuteStep <$> take k steps0)) failing = Raised e →
  ∀ n i op,
    k = i + n →
    compensation <$> steps op = compensation <$> steps0 →
    completed_steps op = seq 0 i →
    ∃ res op',
      execute_from w i (drop i steps0) op (history0 ++ (ExecuteStep <$> take i steps0))
      = Returned (res, op',
                  history0 ++ (ExecuteStep <$> take (S k) steps0)
                    ++ omap compensation (reverse (take k steps0))
                    ++ [DbRollback])
      ∧ failed_step op' = Some k
      ∧ completed_steps op' = seq 0 k
      ∧ res_success res = false
      ∧ res_failed_step res = Some (name failing)
      ∧ rollback_completed op' = true.
Proof.
  intros Hk Hbefore Hfail n.
  induction n as [|n IH]; intros i op Hsum Hcomp Hdone.
  - rewrite Nat.add_0_r in Hsum. subst i.
    rewrite (drop_S _ _ _ Hk). simpl. rewrite Hfail.
    unfold _rollback_operation. simpl. rewrite Hdone.
    assert (Hlen : length (alter (step_failed e) k (steps op)) = length steps0).
    { rewrite length_alter. apply (f_equal length) in Hcomp.
      by rewrite !length_fmap in Hcomp. }
    pose proof (lookup_lt_Some _ _ _ Hk) as Hklt.
    rewrite rollback_loop_spec.
    2:{ apply Forall_forall. intros j Hj. rewrite elem_of_reverse, elem_of_seq in Hj.
        lia. }
    rewrite omap_reverse, omap_lookup_seq by lia.
    assert (Hsame : omap compensation (take k (alter (step_failed e) k (steps op)))
                    = omap compensation (take k steps0)).
    { apply omap_fmap_eq. rewrite !fmap_take.
      rewrite compensation_alter by done. by rewrite Hcomp. }
    rewrite Hsame.
    assert (Hhist : ((history0 ++ (ExecuteStep <$> take k steps0)) ++ [ExecuteStep failing])
                      ++ reverse (omap compensation (take k steps0))
                    = history0 ++ (ExecuteStep <$> take (S k) steps0)
                        ++ omap compensation (reverse (take k steps0))).
    { rewrite (take_S_r _ _ _ Hk), fmap_app, omap_reverse.
      by rewrite <- !app_assoc. }
    destruct (db_rollback w _); eexists _, _;
      (split; [do 2 f_equal; by rewrite Hhist, <- !app_assoc | done]).
  - assert (Hi : i < k) by lia.
    destruct (lookup_lt_is_Some_2 steps0 i) as [step Hstep].
    { apply lookup_lt_Some in Hk. lia. }
    destruct (Hbefore i step Hi Hstep) as [r Hr].
    rewrite (drop_S _ _ _ Hstep). simpl. rewrite Hr.
    assert (Hhist : (history0 ++ (ExecuteStep <$> take i steps0)) ++ [ExecuteStep step]
                    = history0 ++ (ExecuteStep <$> take (S i) steps0)).
    { by rewrite (take_S_r _ _ _ Hstep), fmap_app, <- app_assoc. }
    rewrite Hhist. apply IH.
    + lia.
    + cbn [steps]. by rewrite compensation_alter.
    + cbn [completed_steps]. by rewrite Hdone, seq_S.
Qed.

(** C1 (as amended).  Let the steps before index [k] return and the step
    at index [k] raise.  Then the engine returns a failure naming that
    step, and what it has asked of its collaborators is, in this order:
    the steps [0..k] once each; then, for the completed steps taken in
    reverse order [k-1, ..., 0], one call per step that declares a
    non-empty rollback operation, on the step's own service with its
    declared rollback operation and parameters; then the rollback of the
    database session.  Nothing in the statement depends on what the
    compensating calls return or raise.  Completed steps without a
    rollback operation get no call; the steps after [k] are never
    called, and neither step [k] nor a later step is compensated. *)
Theorem saga_compensates_in_reverse w op history k failing e :
  completed_steps op = [] →
  steps op !! k = Some failing →
  (∀ j step, j < k → steps op !! j = Some step →
     ∃ r, _execute_step w (history ++ (ExecuteStep <$> take j (steps op))) step
          = Returned r) →
  _execute_step w (history ++ (ExecuteStep <$> take k (steps op))) failing = Raised e →
  ∃ res op',
    _execute_atomic_operation w op history
    = Returned (res, op',
                history ++ (ExecuteStep <$> take (S k) (steps op))
                  ++ omap compensation (reverse (take k (steps op)))
                  ++ [DbRollback])
    ∧ failed_step op' = Some k
    ∧ completed_steps op' = seq 0 k
    ∧ res_success res = false
    ∧ res_failed_step res = Some (name failing)
    ∧ rollback_completed op' = true.
Proof.
  intros Hnone Hk Hbefore Hfail. unfold _execute_atomic_operation.
  pose proof (execute_from_failure w (steps op) history k failing e Hk Hbefore Hfail
                k 0 op eq_refl eq_refl Hnone) as H.
  by rewrite drop_0, take_0, app_nil_r in H.
Qed.

End SagaFacts.

Lemma saga_compensates_in_reverse_witness :
  ∃ res op',
    Lifecycle._execute_atomic_operation record_creation_fails create_operation []
    = Lifecycle.Returned
        (res, op',
         [] ++ (Lifecycle.ExecuteStep <$> take 4 (Lifecycle.steps create_operation))
            ++ omap Lifecycle.compensation (reverse (take 3 (Lifecycle.steps create_operation)))
            ++ [Lifecycle.DbRollback])
    ∧ Lifecycle.failed_step op' = Some 3
    ∧ Lifecycle.completed_steps op' = seq 0 3
    ∧ Lifecycle.res_success res = false
    ∧ Lifecycle.res_failed_step res = Some "create_database_record"
    ∧ Lifecycle.rollback_completed op' = true.
Proof.
  apply (saga_compensates_in_reverse record_creation_fails create_operation [] 3
           (create_step "create_database_record" "database" "create_agent_record"
              (Some ("delete_agent_record", [("agent_name", "thermal")])))
           "IntegrityError").
  - reflexivity.
  - reflexivity.
  - intros j step Hj Hstep.
    destruct j as [|[|[|j]]]; [| | | lia];
      injection Hstep as <-; eexists; vm_compute; reflexivity.
  - vm_compute. reflexivity.
Defined.

(** The compensation declared for [validate_files] is not an operation
    [_execute_agent_factory_step] knows: the call raises, whatever the
    collaborators do, and the sweep goes on. *)
Lemma cleanup_validation_artifacts_raises (w : Lifecycle.World string)
    (history : list (Lifecycle.Call string)) :
  Lifecycle._execute_step w history
    (Lifecycle.rollback_step
       (create_step "validate_files" "agent_factory" "validate_agent_files"
          (Some ("cleanup_validation_artifacts", [("agent_name", "thermal")]))))
  = Lifecycle.Raised "Unknown agent factory operation: cleanup_validation_artifacts".
Proof. reflexivity. Qed.

(** C1, as stated, fails on that run: steps 0, 1 and 2 have completed
    when step 3 raises, and the sweep calls the compensations of steps 2
    and 1 only, since [validate_dependencies] declares none. *)
Lemma validation_step_is_not_compensated :
  ∃ res op',
    Lifecycle._execute_atomic_operation record_creation_fails create_operation []
    = Lifecycle.Returned
        (res, op',
         (Lifecycle.ExecuteStep <$> take 4 create_steps)
           ++ [ Lifecycle.ExecuteStep
                  (Lifecycle.mkStep "rollback_create_agent_files" "agent_factory"
                     "delete_agent" [("agent_name", "thermal")] None None false None None);
                Lifecycle.ExecuteStep
                  (Lifecycle.mkStep "rollback_validate_files" "agent_factory"
                     "cleanup_validation_artifacts" [("agent_name", "thermal")]
                     None None false None None);
                Lifecycle.DbRollback ])
    ∧ Lifecycle.completed_steps op' = [0; 1; 2]
    ∧ Lifecycle.failed_step op' = Some 3.
Proof. eexists _, _. split; [vm_compute; reflexivity | done]. Qed.

(** ** Dispatch of dependency-ready agents *)

Section DispatchFacts.
Import Scheduler.
Context {Output Config : Type}.
Implicit Types (state : DynamicGlobalState Output) (agent : BaseAgent).

Lemma has_recent_output_true (current : Z) (dep_outputs : gmap Z Output) :
  has_recent_output current dep_outputs = true →
  ∃ iteration, is_Some (dep_outputs !! iteration) ∧ (iteration ≤ current)%Z.
Proof.
  unfold has_recent_output. intros H.
  apply existsb_exists in H as (iteration & Hin & Hle).
  exists iteration. split; [|lia].
  apply list_elem_of_In, list_elem_of_fmap in Hin as ([it out] & -> & Hin).
  apply elem_of_map_to_list in Hin. by exists out.
Qed.

Lemma dependencies_loop_true state (deps : list string) dependency :
  dependencies_loop state deps = true →
  dependency ∈ deps →
  ∃ dep_outputs iteration,
    agent_outputs state !! dependency = Some dep_outputs
    ∧ is_Some (dep_outputs !! iteration)
    ∧ (iteration ≤ current_iteration state)%Z.
Proof.
  induction deps as [|dep deps IH]; simpl; intros Hloop Hin; [inversion Hin|].
  destruct (agent_outputs state !! dep) as [dep_outputs|] eqn:Hdep; [|done].
  case_bool_decide; [done|].
  destruct (has_recent_output _ dep_outputs) eqn:Hrecent; [|done]. simpl in Hloop.
  apply elem_of_cons in Hin as [->|Hin]; [|by apply IH].
  apply has_recent_output_true in Hrecent as (iteration & ? & ?).
  by exists dep_outputs, iteration.
Qed.

Lemma check_dependencies_ready_true agent state dependency :
  check_dependencies_ready agent state = true →
  dependency ∈ dependencies agent →
  ∃ dep_outputs iteration,
    agent_outputs state !! dependency = Some dep_outputs
    ∧ is_Some (dep_outputs !! iteration)
    ∧ (iteration ≤ current_iteration state)%Z.
Proof.
  unfold check_dependencies_ready. case_bool_decide as Hnil.
  - rewrite Hnil. intros _ H. inversion H.
  - apply dependencies_loop_true.
Qed.

Section WithCollaborators.
Variable _create_agent_instance : Config → option BaseAgent.
Variable process : list (nat * BaseAgent) → DynamicGlobalState Output → nat * BaseAgent
                   → DynamicGlobalState Output
                   → DynamicGlobalState Output * option string.

Lemma attempts_rounds n (agents : list BaseAgent) state executed rounds round agent :
  round ∈ (attempts process n agents state executed rounds).2 →
  agent ∈ round.1 →
  round ∈ rounds ∨ check_dependencies_ready agent round.2 = true.
Proof.
  revert state executed rounds.
  induction n as [|n IH]; intros state executed rounds; simpl; [by left|].
  case_bool_decide; [by left|].
  destruct (await_tasks _ _ _ _ _ _) as [state' executed'] eqn:Hawait.
  intros Hround Hagent.
  destruct (IH _ _ _ Hround Hagent) as [Hold|?]; [|by right].
  apply elem_of_app in Hold as [?|Hnew]; [by left|].
  apply list_elem_of_singleton in Hnew. subst round. simpl in *. right.
  apply list_elem_of_fmap in Hagent as ([i a] & -> & Hin).
  by apply list_elem_of_filter in Hin as [[_ Hready] _].
Qed.

(** C5.  In every round of dispatch of [dynamic_aggregator], each agent
    handed to the executor has, for every declared dependency, an output
    recorded at an iteration not later than the current iteration of
    the state it was selected in; and an agent without declared
    dependencies passes the readiness check in every state. *)
Theorem dispatched_agents_are_ready (agent_configs : list Config) state round agent :
  round ∈ (dynamic_aggregator _create_agent_instance process agent_configs state).2 →
  agent ∈ round.1 →
  (∀ dependency, dependency ∈ dependencies agent →
     ∃ dep_outputs iteration,
       agent_outputs round.2 !! dependency = Some dep_outputs
       ∧ is_Some (dep_outputs !! iteration)
       ∧ (iteration ≤ current_iteration round.2)%Z)
  ∧ (∀ agent_name state', check_dependencies_ready (mkBaseAgent agent_name []) state' = true).
Proof.
  intros Hround Hagent. split; [|done].
  intros dependency Hdep. unfold dynamic_aggregator in Hround.
  case_bool_decide; [inversion Hround|].
  destruct (attempts_rounds _ _ _ _ _ _ _ Hround Hagent) as [Hnil|Hready];
    [inversion Hnil|].
  by apply (check_dependencies_ready_true agent).
Qed.

End WithCollaborators.
End DispatchFacts.

Lemma dispatched_agents_are_ready_witness :
  (∀ dependency,
     dependency ∈ Scheduler.dependencies (Scheduler.mkBaseAgent "aerodynamics" ["mission_planner"]) →
     ∃ dep_outputs iteration,
       Scheduler.agent_outputs first_round.2 !! dependency = Some dep_outputs
       ∧ is_Some (dep_outputs !! iteration)
       ∧ (iteration ≤ Scheduler.current_iteration first_round.2)%Z)
  ∧ (∀ agent_name state',
       Scheduler.check_dependencies_ready (Output := unit)
         (Scheduler.mkBaseAgent agent_name []) state' = true).
Proof.
  apply (dispatched_agents_are_ready Some (λ _ _ _ s, (s, None)) three_agents iteration_one
           first_round (Scheduler.mkBaseAgent "aerodynamics" ["mission_planner"])).
  - vm_compute. left.
  - vm_compute. right. left.
Defined.

(** ** Cycle detection *)

Section DfsFacts.
Import DependencyManager.
Variable nodes : list (string * DependencyNode).
Implicit Types (st : dfs_state) (n d : string) (ds : list string).

Lemma pop_snoc (l : list string) x : pop (l ++ [x]) = l.
Proof.
  unfold pop. rewrite length_app. simpl.
  replace (length l + 1 - 1) with (length l) by lia.
  by rewrite take_app_length.
Qed.

Lemma index_lt x (l : list string) : x ∈ l → index x l < length l.
Proof.
  induction l as [|y l IH]; simpl; intros Hin; [inversion Hin|].
  case_decide; [lia|].
  apply elem_of_cons in Hin as [?|Hin]; [done|]. specialize (IH Hin). lia.
Qed.

Lemma last_elem_of_drop (l : list string) i m :
  last l = Some m → i < length l → m ∈ drop i l.
Proof.
  revert i. induction l as [|x l IH]; intros i Hlast Hi; simpl in Hi; [lia|].
  destruct i as [|i]; simpl.
  - by apply last_Some_elem_of.
  - destruct l as [|y l]; simpl in Hi; [lia|].
    rewrite last_cons_cons in Hlast. apply IH; [done | simpl; lia].
Qed.

(** *** The function computes the relation *)

Lemma dfs_each_None fuel ds :
  foldl (λ acc dependency, acc ≫= dfs fuel nodes dependency) None ds = None.
Proof. induction ds as [|d ds IH]; [done | apply IH]. Qed.

Lemma dfs_each_rel fuel ds st st' :
  (∀ n st st', dfs fuel nodes n st = Some st' → dfs_rel nodes n st st') →
  foldl (λ acc dependency, acc ≫= dfs fuel nodes dependency) (Some st) ds = Some st' →
  dfs_list_rel nodes ds st st'.
Proof.
  intros Hdfs. revert st. induction ds as [|d ds IH]; intros st; simpl.
  - intros [= <-]. constructor.
  - destruct (dfs fuel nodes d st) as [st1|] eqn:Hd.
    + intros Hrest. econstructor; [by apply Hdfs | by apply IH].
    + by rewrite dfs_each_None.
Qed.

Lemma dfs_computes_rel fuel n st st' :
  dfs fuel nodes n st = Some st' → dfs_rel nodes n st st'.
Proof.
  revert n st st'. induction fuel as [|fuel IH]; intros n st st'; simpl; [done|].
  case_bool_decide as Hpath; [intros [= <-]; by constructor|].
  case_bool_decide as Hvis; [intros [= <-]; by constructor|].
  destruct (foldl _ _ _) as [st2|] eqn:Hloop; simpl; [|done].
  intros [= <-]. apply (dfs_fresh nodes n st st2); [done..|].
  by apply (dfs_each_rel fuel).
Qed.

(** *** What every run preserves *)

Lemma dfs_frame :
  (∀ n st st', dfs_rel nodes n st st' →
     path st' = path st ∧ visited st ⊆ visited st'
     ∧ ∃ more, circular_deps st' = circular_deps st ++ more)
  ∧ (∀ ds st st', dfs_list_rel nodes ds st st' →
     path st' = path st ∧ visited st ⊆ visited st'
     ∧ ∃ more, circular_deps st' = circular_deps st ++ more).
Proof.
  apply dfs_mutind.
  - intros n st _. simpl. split; [done|]. split; [done|]. by eexists.
  - intros n st _ _. split; [done|]. split; [done|]. exists []. by rewrite app_nil_r.
  - intros n st st2 _ _ _ (Hp & Hv & more & Hc). simpl in *.
    split; [by rewrite Hp, pop_snoc|]. split; [set_solver|]. by exists more.
  - intros st. split; [done|]. split; [done|]. exists []. by rewrite app_nil_r.
  - intros d ds st st1 st2 _ (Hp1 & Hv1 & more1 & Hc1) _ (Hp2 & Hv2 & more2 & Hc2).
    split; [congruence|]. split; [set_solver|].
    exists (more1 ++ more2). by rewrite Hc2, Hc1, app_assoc.
Qed.

Lemma dfs_list_path ds st st' : dfs_list_rel nodes ds st st' → path st' = path st.
Proof. intros H. by apply dfs_frame in H as (? & _). Qed.

Lemma dfs_rel_path n st st' : dfs_rel nodes n st st' → path st' = path st.
Proof. intros H. by apply dfs_frame in H as (? & _). Qed.

Lemma dfs_rel_visited n st st' : dfs_rel nodes n st st' → visited st ⊆ visited st'.
Proof. intros H. by apply dfs_frame in H as (_ & ? & _). Qed.

Lemma dfs_list_visited ds st st' : dfs_list_rel nodes ds st st' → visited st ⊆ visited st'.
Proof. intros H. by apply dfs_frame in H as (_ & ? & _). Qed.

Lemma dfs_rel_nil_before n st st' :
  dfs_rel nodes n st st' → circular_deps st' = [] → circular_deps st = [].
Proof.
  intros H Hnil. apply dfs_frame in H as (_ & _ & more & Hc).
  rewrite Hnil in Hc. symmetry in Hc. by apply app_eq_nil in Hc as [? _].
Qed.

Lemma dfs_list_nil_before ds st st' :
  dfs_list_rel nodes ds st st' → circular_deps st' = [] → circular_deps st = [].
Proof.
  intros H Hnil. apply dfs_frame in H as (_ & _ & more & Hc).
  rewrite Hnil in Hc. symmetry in Hc. by apply app_eq_nil in Hc as [? _].
Qed.

Lemma reports_both_mono_rel a b n st st' :
  dfs_rel nodes n st st' → reports_both a b st → reports_both a b st'.
Proof.
  intros H (c & Hc & ? & ?). apply dfs_frame in H as (_ & _ & more & Hmore).
  exists c. rewrite Hmore, elem_of_app. auto.
Qed.

Lemma reports_both_mono_list a b ds st st' :
  dfs_list_rel nodes ds st st' → reports_both a b st → reports_both a b st'.
Proof.
  intros H (c & Hc & ? & ?). apply dfs_frame in H as (_ & _ & more & Hmore).
  exists c. rewrite Hmore, elem_of_app. auto.
Qed.

(** *** Every call returns *)

Lemma dfs_enough_fuel fuel n st :
  size ((list_to_set nodes.*1 : gset string) ∖ visited st) < fuel →
  is_Some (dfs fuel nodes n st).
Proof.
  revert n st. induction fuel as [|fuel IH]; intros n st Hfuel; [lia|].
  simpl. case_bool_decide as Hpath; [by eexists|].
  case_bool_decide as Hvis; [by eexists|].
  assert (Hloop : ∀ ds st1,
    size ((list_to_set nodes.*1 : gset string) ∖ visited st1) < fuel →
    is_Some (foldl (λ acc dependency, acc ≫= dfs fuel nodes dependency) (Some st1) ds)).
  { induction ds as [|d ds IHds]; intros st1 H1; [by eexists|].
    simpl. destruct (IH d st1 H1) as [st' Hst']. rewrite Hst'.
    apply IHds. apply dfs_computes_rel, dfs_rel_visited in Hst'.
    pose proof (subseteq_size ((list_to_set nodes.*1 : gset string) ∖ visited st')
                  ((list_to_set nodes.*1 : gset string) ∖ visited st1) ltac:(set_solver)).
    lia. }
  unfold node_dependencies.
  destruct (dict_get n nodes) as [node|] eqn:Hnode; [|by eexists].
  destruct (Hloop (dependencies node)
              (mkDfs (circular_deps st) ({[n]} ∪ visited st) (path st ++ [n])))
    as [st2 ->]; [|by eexists].
  simpl.
  assert (Hkey : n ∈ (list_to_set nodes.*1 : gset string)).
  { apply elem_of_list_to_set, dict_get_is_Some. eauto. }
  assert ((list_to_set nodes.*1 : gset string) ∖ ({[n]} ∪ visited st)
          ⊂ (list_to_set nodes.*1 : gset string) ∖ visited st) as Hsub%subset_size.
  { apply strict_spec_alt. split; [set_solver|]. intros Heq.
    assert (Hin : n ∈ (list_to_set nodes.*1 : gset string) ∖ visited st) by set_solver.
    rewrite <- Heq in Hin. set_solver. }
  lia.
Qed.

(** The detector returns, and its answer is the list of cycles of a run
    of the loop over the keys from the initial state. *)
Lemma detect_run :
  ∃ final,
    detect_circular_dependencies nodes = Some (circular_deps final)
    ∧ dfs_list_rel nodes (dict_keys nodes) (mkDfs [] ∅ []) final.
Proof.
  unfold detect_circular_dependencies, dfs_all.
  assert (Hloop : ∀ ds st,
    is_Some (foldl (λ acc node_name, acc ≫= dfs (S (length nodes)) nodes node_name)
                   (Some st) ds)).
  { assert (Hfuel : ∀ st,
      size ((list_to_set nodes.*1 : gset string) ∖ visited st) < S (length nodes)).
    { intros st.
      pose proof (subseteq_size ((list_to_set nodes.*1 : gset string) ∖ visited st)
                    (list_to_set nodes.*1) ltac:(set_solver)).
      pose proof (size_list_to_set_le nodes.*1) as Hle.
      rewrite length_fmap in Hle. lia. }
    induction ds as [|d ds IHds]; intros st; [by eexists|].
    cbn [foldl mbind option_bind]. destruct (dfs_enough_fuel _ d st (Hfuel st)) as [st' Hst'].
    rewrite Hst'. apply IHds. }
  destruct (Hloop (dict_keys nodes) (mkDfs [] ∅ [])) as [final Hfinal].
  exists final. rewrite Hfinal. split; [done|].
  apply (dfs_each_rel (S (length nodes))); [|done].
  intros n st st'. apply dfs_computes_rel.
Qed.

(** *** No report on an acyclic graph *)

Lemma dfs_acyclic_silent :
  acyclic nodes →
  (∀ n st st', dfs_rel nodes n st st' →
     (∀ x, x ∈ path st → tc (depends_on nodes) x n) →
     circular_deps st' = circular_deps st)
  ∧ (∀ ds st st', dfs_list_rel nodes ds st st' →
     (∀ x d, x ∈ path st → d ∈ ds → tc (depends_on nodes) x d) →
     circular_deps st' = circular_deps st).
Proof.
  intros Hacyclic. apply dfs_mutind.
  - intros n st Hpath Hreach. destruct (Hacyclic n). by apply Hreach.
  - done.
  - intros n st st2 _ _ Hloop IH Hreach. simpl. rewrite IH; [done|].
    intros x d Hx Hd. simpl in Hx. apply elem_of_app in Hx as [Hx|Hx].
    + eapply tc_r; [by apply Hreach | done].
    + apply list_elem_of_singleton in Hx as ->. by apply tc_once.
  - done.
  - intros d ds st st1 st2 Hd IHd Hds IHds Hreach.
    rewrite IHds, IHd; [done| |].
    + intros x Hx. apply Hreach; [done | left].
    + intros x d' Hx Hd'. rewrite (dfs_rel_path _ _ _ Hd) in Hx.
      apply Hreach; [done | by right].
Qed.

(** *** A run without report proves the graph acyclic *)

Lemma closed_under_rtc (P : string → Prop) u v :
  (∀ x y, P x → depends_on nodes x y → P y) →
  rtc (depends_on nodes) u v → P u → P v.
Proof. intros Hclosed Hrtc. induction Hrtc; eauto. Qed.

Lemma dfs_silent_finished :
  (∀ n st st', dfs_rel nodes n st st' →
     finished_ok nodes st → circular_deps st' = [] →
     finished_ok nodes st' ∧ n ∈ visited st' ∧ n ∉ path st)
  ∧ (∀ ds st st', dfs_list_rel nodes ds st st' →
     finished_ok nodes st → circular_deps st' = [] →
     finished_ok nodes st' ∧ ∀ d, d ∈ ds → d ∈ visited st' ∧ d ∉ path st).
Proof.
  apply dfs_mutind.
  - intros n st _ _ Hnil. simpl in Hnil. by apply app_eq_nil in Hnil as [_ ?].
  - intros n st Hpath Hvis Hok _. done.
  - intros n st st2 Hpath Hvis Hloop IH (Hclosed & Hnocycle & Hsub) Hnil.
    simpl in Hnil.
    pose proof (dfs_list_path _ _ _ Hloop) as Hp2. simpl in Hp2.
    pose proof (dfs_list_visited _ _ _ Hloop) as Hv2. simpl in Hv2.
    destruct IH as ((Hclosed2 & Hnocycle2 & Hsub2) & Hdeps); [|done|].
    { split; [|split]; simpl.
      - intros u d Hu Hnp Hdep.
        assert (u ≠ n) by (intros ->; apply Hnp; set_solver).
        assert (u ∈ visited st) by set_solver.
        assert (u ∉ path st) by (intros ?; apply Hnp; set_solver).
        destruct (Hclosed u d) as [Hd1 Hd2]; [done..|].
        split; [set_solver|].
        intros [?| ->%list_elem_of_singleton]%elem_of_app; done.
      - intros u Hu Hnp. apply Hnocycle; [|intros ?; apply Hnp; set_solver].
        assert (u ≠ n) by (intros ->; apply Hnp; set_solver). set_solver.
      - intros x [?| ->%list_elem_of_singleton]%elem_of_app; [|set_solver].
        apply elem_of_union_r. by apply Hsub. }
    assert (Hn2 : n ∈ path st2) by (rewrite Hp2; set_solver).
    split; [|split; [set_solver | done]].
    split; [|split]; simpl; rewrite Hp2, pop_snoc.
    + intros u d Hu Hnp Hdep. destruct (decide (u = n)) as [->|Hne].
      * destruct (Hdeps d Hdep) as [? Hd]. split; [done|].
        intros ?. apply Hd. simpl. set_solver.
      * destruct (Hclosed2 u d) as [? Hd]; [done | | done |].
        { rewrite Hp2. intros [?| ->%list_elem_of_singleton]%elem_of_app; done. }
        split; [done|]. intros ?. apply Hd. rewrite Hp2. set_solver.
    + intros u Hu Hnp. destruct (decide (u = n)) as [->|Hne].
      * intros Htc.
        assert (∃ d, depends_on nodes n d ∧ rtc (depends_on nodes) d n) as (d & Hd & Hback).
        { inversion Htc as [? ? Honce|? d ? Hstep Hrest]; subst.
          - exists n. split; [done | constructor].
          - exists d. split; [done | by apply tc_rtc]. }
        destruct (Hdeps d Hd) as [Hdv Hdp].
        assert (Hfin : n ∈ visited st2 ∧ n ∉ path st2).
        { apply (closed_under_rtc (λ x, x ∈ visited st2 ∧ x ∉ path st2) d n); [|done|].
          - intros x y [? ?] ?. by apply (Hclosed2 x y).
          - split; [done|]. simpl in Hdp. by rewrite Hp2. }
        by destruct Hfin.
      * apply Hnocycle2; [done|]. rewrite Hp2.
        intros [?| ->%list_elem_of_singleton]%elem_of_app; done.
    + intros x Hx. apply Hv2. apply elem_of_union_r. by apply Hsub.
  - intros st Hok _. split; [done|]. intros d Hd. inversion Hd.
  - intros d ds st st1 st2 Hd IHd Hds IHds Hok Hnil.
    pose proof (dfs_list_nil_before _ _ _ Hds Hnil) as Hnil1.
    destruct (IHd Hok Hnil1) as (Hok1 & Hdv & Hdp).
    destruct (IHds Hok1 Hnil) as (Hok2 & Hrest).
    split; [done|]. intros d' [->|Hd']%elem_of_cons.
    + split; [|done]. by apply (dfs_list_visited _ _ _ Hds).
    + rewrite <- (dfs_rel_path _ _ _ Hd). by apply Hrest.
Qed.

Lemma detect_empty_acyclic :
  detect_circular_dependencies nodes = Some [] → acyclic nodes.
Proof.
  destruct detect_run as (final & Hdetect & Hrun). rewrite Hdetect. intros [= Hnil].
  destruct dfs_silent_finished as [_ Hlist].
  destruct (Hlist _ _ _ Hrun) as ((_ & Hnocycle & _) & Hkeys); [|done|].
  { split; [|split]; simpl; intros; set_solver. }
  pose proof (dfs_list_path _ _ _ Hrun) as Hpath. simpl in Hpath.
  intros x Htc.
  assert (Hkey : x ∈ dict_keys nodes).
  { assert (∃ d, depends_on nodes x d) as (d & Hd).
    { inversion Htc; subst; eauto. }
    unfold depends_on, node_dependencies in Hd.
    destruct (dict_get x nodes) eqn:Hx; [|inversion Hd].
    apply dict_get_is_Some. eauto. }
  destruct (Hkeys x Hkey) as [Hv _].
  apply (Hnocycle x); [done | | done]. rewrite Hpath. intros H. inversion H.
Qed.

(** *** A cycle of two nodes is reported with both of them *)

Section TwoCycle.
Variables a b : string.
Hypothesis Hab : depends_on nodes a b.
Hypothesis Hba : depends_on nodes b a.

(** [m] is the partner of [n] on the cycle. *)
Let partner (n m : string) : Prop := (n = a ∧ m = b) ∨ (n = b ∧ m = a).

(** Once one of the two nodes is finished, the cycle has been reported. *)
Let finished_reported (st : dfs_state) : Prop :=
  ∀ u, u = a ∨ u = b → u ∈ visited st → u ∉ path st → reports_both a b st.

Lemma partner_depends n m : partner n m → depends_on nodes n m.
Proof. intros [[-> ->]|[-> ->]]; done. Qed.

Lemma partner_sym n m : partner n m → partner m n.
Proof. unfold partner. tauto. Qed.

Lemma dfs_two_cycle :
  (∀ n st st', dfs_rel nodes n st st' →
     finished_reported st →
     finished_reported st'
     ∧ ∀ m, partner n m → n ∉ path st ∨ last (path st) = Some m → reports_both a b st')
  ∧ (∀ ds st st', dfs_list_rel nodes ds st st' →
     finished_reported st →
     finished_reported st'
     ∧ ∀ d m, d ∈ ds → partner d m →
         d ∉ path st ∨ last (path st) = Some m → reports_both a b st').
Proof.
  apply dfs_mutind.
  - intros n st Hpath Hfin. split.
    + intros u Hu Hv Hp. destruct (Hfin u Hu Hv Hp) as (c & ? & ? & ?).
      exists c. simpl. rewrite elem_of_app. auto.
    + intros m Hpartner [?|Hlast]; [done|].
      exists (drop (index n (path st)) (path st) ++ [n]). simpl.
      split; [rewrite elem_of_app, list_elem_of_singleton; by right|].
      assert (n ∈ drop (index n (path st)) (path st) ++ [n])
        by (rewrite elem_of_app, list_elem_of_singleton; by right).
      assert (m ∈ drop (index n (path st)) (path st) ++ [n]).
      { rewrite elem_of_app. left. apply last_elem_of_drop; [done|]. by apply index_lt. }
      destruct Hpartner as [[-> ->]|[-> ->]]; done.
  - intros n st Hpath Hvis Hfin. split; [done|].
    intros m Hpartner _. apply (Hfin n); [|done..].
    destruct Hpartner as [[-> _]|[-> _]]; auto.
  - intros n st st2 Hpath Hvis Hloop IH Hfin.
    pose proof (dfs_list_path _ _ _ Hloop) as Hp2. simpl in Hp2.
    destruct IH as [Hfin2 Hfound].
    { intros u Hu Hv Hp. simpl in *.
      assert (u ≠ n) by (intros ->; apply Hp; set_solver).
      destruct (Hfin u Hu) as (c & ? & ? & ?); [set_solver | set_solver |].
      by exists c. }
    assert (Hmine : ∀ m, partner n m → reports_both a b (popped st2)).
    { intros m Hpartner.
      destruct (Hfound m n) as (c & ? & ? & ?).
      - by apply partner_depends.
      - by apply partner_sym.
      - right. simpl. apply last_snoc.
      - by exists c. }
    split; [|intros m Hpartner _; by apply (Hmine m)].
    intros u Hu Hv Hp. simpl in Hv, Hp. rewrite Hp2, pop_snoc in Hp.
    destruct (decide (u = n)) as [->|Hne].
    + destruct Hu as [->| ->]; [apply (Hmine b) | apply (Hmine a)]; unfold partner; auto.
    + destruct (Hfin2 u Hu Hv) as (c & ? & ? & ?); [|by exists c].
      rewrite Hp2. intros [?| ->%list_elem_of_singleton]%elem_of_app; done.
  - intros st Hfin. split; [done|]. intros d m Hd. inversion Hd.
  - intros d ds st st1 st2 Hd IHd Hds IHds Hfin.
    destruct (IHd Hfin) as [Hfin1 Hfound1].
    destruct (IHds Hfin1) as [Hfin2 Hfound2].
    split; [done|].
    intros d' m [->|Hd']%elem_of_cons Hpartner Hcase.
    + apply (reports_both_mono_list _ _ _ _ _ Hds). by apply (Hfound1 m).
    + apply (Hfound2 d' m); [done..|]. by rewrite (dfs_rel_path _ _ _ Hd).
Qed.

Lemma detect_two_cycle :
  ∃ cycles cycle,
    detect_circular_dependencies nodes = Some cycles
    ∧ cycle ∈ cycles ∧ a ∈ cycle ∧ b ∈ cycle.
Proof.
  destruct detect_run as (final & Hdetect & Hrun).
  destruct dfs_two_cycle as [_ Hlist].
  destruct (Hlist _ _ _ Hrun) as [_ Hfound].
  { intros u _ Hv. simpl in Hv. set_solver. }
  destruct (Hfound a b) as (c & ? & ? & ?).
  - unfold depends_on, node_dependencies in Hab.
    destruct (dict_get a nodes) eqn:Ha; [|inversion Hab].
    apply dict_get_is_Some. eauto.
  - unfold partner. auto.
  - left. simpl. intros H. inversion H.
  - by exists (circular_deps final), c.
Qed.

End TwoCycle.

End DfsFacts.

Section DetectionTheorems.
Import DependencyManager.

(** C6.  On every graph without a cycle, [detect_circular_dependencies]
    returns the empty list. *)
Theorem detect_acyclic_empty (nodes : list (string * DependencyNode)) :
  acyclic nodes → detect_circular_dependencies nodes = Some [].
Proof.
  intros Hacyclic.
  destruct (detect_run nodes) as (final & Hdetect & Hrun). rewrite Hdetect.
  destruct (dfs_acyclic_silent nodes Hacyclic) as [_ Hlist].
  rewrite (Hlist _ _ _ Hrun); [done|].
  intros x d Hx. inversion Hx.
Qed.

End DetectionTheorems.

(** ** Rejection of a proposal that closes a cycle *)

Section UpdateFacts.
Import DependencyManager.
Implicit Types (nodes : list (string * DependencyNode)) (db : list Models.Agent).

Lemma clear_dependents_dependencies nodes x :
  node_dependencies (clear_dependents nodes) x = node_dependencies nodes x.
Proof.
  unfold node_dependencies, clear_dependents.
  induction nodes as [|[k node] nodes IH]; csimpl; [done|].
  case_decide; [done | apply IH].
Qed.

Lemma acyclic_same_edges nodes1 nodes2 :
  (∀ x, node_dependencies nodes1 x = node_dependencies nodes2 x) →
  acyclic nodes1 → acyclic nodes2.
Proof.
  intros Hsame Hacyclic x Htc. apply (Hacyclic x).
  assert (Hgen : ∀ u v, tc (depends_on nodes2) u v → tc (depends_on nodes1) u v).
  { intros u v H. induction H as [u v H|u w v H _ IH].
    - apply tc_once. unfold depends_on in *. by rewrite Hsame.
    - eapply tc_l; [|done]. unfold depends_on in *. by rewrite Hsame. }
  by apply Hgen.
Qed.


End UpdateFacts.


(** The node objects are shared between [nodes] and [test_nodes]: on
    success the reported previous dependencies are the new ones. *)
Lemma update_success_reports_new_as_previous :
  DependencyManager.previous_dependencies
    <$> (fst <$> DependencyManager.update_agent_dependencies true uav_db
                   "aerodynamics" [])
  = Some (Some []).
Proof. vm_compute. reflexivity. Qed.


(** ** Cascade deletion order *)

Section OrderFacts.
Import DependencyManager.
Variable nodes : list (string * DependencyNode).

(** *** The collection of the affected agents returns *)

Lemma collect_weight_insert (affected : gset string) current :
  collect_weight nodes ({[current]} ∪ affected) ≤ collect_weight nodes affected.
Proof.
  unfold collect_weight. induction nodes as [|[k node] l IH]; csimpl; [done|].
  repeat case_decide; try lia. set_solver.
Qed.

Lemma collect_weight_take (affected : gset string) current node :
  dict_get current nodes = Some node → current ∉ affected →
  collect_weight nodes ({[current]} ∪ affected) + length (dependents node)
  ≤ collect_weight nodes affected.
Proof.
  unfold collect_weight. induction nodes as [|[k n] l IH]; csimpl; [done|].
  intros Hget Hnot. destruct (decide (current = k)) as [->|Hne].
  - injection Hget as ->.
    rewrite decide_True by set_solver. rewrite decide_False by done.
    pose proof (collect_weight_insert affected k) as Hle. unfold collect_weight in Hle.
    clear IH. revert Hle. generalize (dependents node). intros deps.
    assert (Hmono : sum_list ((λ item : string * DependencyNode,
               if decide (item.1 ∈ {[k]} ∪ affected) then 0
               else length (dependents item.2)) <$> l)
             ≤ sum_list ((λ item : string * DependencyNode,
               if decide (item.1 ∈ affected) then 0
               else length (dependents item.2)) <$> l)).
    { clear. induction l as [|[k' n'] l IH]; csimpl; [done|].
      repeat case_decide; try lia. set_solver. }
    lia.
  - specialize (IH Hget Hnot). repeat case_decide; try lia. set_solver.
Qed.

Lemma collect_affected_enough_fuel fuel (to_process : list string) (affected : gset string) :
  length to_process + collect_weight nodes affected < fuel →
  is_Some (collect_affected fuel nodes to_process affected).
Proof.
  revert to_process affected.
  induction fuel as [|fuel IH]; intros to_process affected Hfuel; [lia|].
  simpl. destruct (last to_process) as [current|] eqn:Hlast; [|by eexists].
  apply last_Some in Hlast as [rest ->]. rewrite pop_snoc.
  rewrite length_app in Hfuel. simpl in Hfuel.
  case_bool_decide as Hin; [apply IH; lia|].
  unfold dict_mem, node_dependents.
  destruct (dict_get current nodes) as [node|] eqn:Hget.
  - rewrite bool_decide_eq_true_2 by eauto. apply IH. rewrite length_app.
    pose proof (collect_weight_take affected current node Hget Hin). lia.
  - rewrite bool_decide_eq_false_2 by (intros [? ?]; done). apply IH.
    pose proof (collect_weight_insert affected current). lia.
Qed.

Lemma collect_weight_empty :
  collect_weight nodes ∅ = sum_list ((λ node, length (dependents node)) <$> nodes.*2).
Proof.
  unfold collect_weight. induction nodes as [|[k n] l IH]; csimpl in *; [done|].
  by rewrite IH.
Qed.

Lemma collect_affected_total agent_name :
  is_Some (collect_affected (collect_fuel nodes) nodes [agent_name] ∅).
Proof.
  apply collect_affected_enough_fuel. rewrite collect_weight_empty.
  unfold collect_fuel, dict_values. simpl. lia.
Qed.

(** *** The order built by [add_to_order] *)

Variable affected : gset string.

Lemma before_app (l more : list string) x y : before l x y → before (l ++ more) x y.
Proof.
  intros (l1 & l2 & l3 & ->). exists l1, l2, (l3 ++ more).
  repeat (rewrite <- app_assoc; simpl). done.
Qed.

Lemma before_snoc (l : list string) x y : x ∈ l → before (l ++ [y]) x y.
Proof.
  intros (l1 & l2 & ->)%list_elem_of_split. exists l1, l2, [].
  repeat (rewrite <- app_assoc; simpl). done.
Qed.

Lemma order_ok_append (st : list string * gset string) agent :
  order_ok nodes affected st →
  agent ∉ st.2 → agent ∈ affected →
  (∀ d, dependent_of nodes agent d → d ∈ affected → d ∈ st.2) →
  order_ok nodes affected (st.1 ++ [agent], {[agent]} ∪ st.2).
Proof.
  intros (Hset & Hnd & Haff & Hbefore) Hnew Hagent Hdeps.
  split; [|split; [|split]]; simpl.
  - intros x. rewrite elem_of_union, elem_of_singleton, elem_of_app,
      list_elem_of_singleton, Hset. tauto.
  - apply NoDup_app. split; [done|]. split; [|apply NoDup_singleton].
    intros x Hx ->%list_elem_of_singleton. apply Hnew. by apply Hset.
  - intros x [?| ->%list_elem_of_singleton]%elem_of_app; auto.
  - intros y d [Hy| ->%list_elem_of_singleton]%elem_of_app Hd Hda.
    + apply before_app. by apply Hbefore.
    + apply before_snoc. apply Hset. by apply Hdeps.
Qed.

Lemma add_to_order_ok fuel agent st st' :
  add_to_order fuel nodes affected agent st = Some st' →
  order_ok nodes affected st →
  order_ok nodes affected st' ∧ st.2 ⊆ st'.2 ∧ (agent ∈ affected → agent ∈ st'.2).
Proof.
  revert agent st st'. induction fuel as [|fuel IH]; intros agent st st'; simpl; [done|].
  destruct (bool_decide (agent ∈ st.2) || bool_decide (agent ∉ affected)) eqn:Hret.
  { intros [= <-] Hok. split; [done|]. split; [done|]. intros Hin.
    apply orb_true_iff in Hret as [H|H]; [by apply bool_decide_eq_true in H|].
    apply bool_decide_eq_true in H. done. }
  apply orb_false_iff in Hret as [Hnp Hna].
  apply bool_decide_eq_false in Hnp. apply bool_decide_eq_false in Hna.
  assert (Hagent : agent ∈ affected) by (destruct (decide (agent ∈ affected)); tauto).
  assert (Hloop : ∀ ds s s1,
    foldl (λ acc dependent,
             s ← acc;
             if bool_decide (dependent ∈ affected)
             then add_to_order fuel nodes affected dependent s
             else Some s) (Some s) ds = Some s1 →
    order_ok nodes affected s →
    order_ok nodes affected s1 ∧ s.2 ⊆ s1.2
    ∧ ∀ d, d ∈ ds → d ∈ affected → d ∈ s1.2).
  { induction ds as [|d ds IHds]; intros s s1.
    - intros [= <-] Hok. split; [done|]. split; [done|]. intros d Hd. inversion Hd.
    - cbn [foldl mbind option_bind]. case_bool_decide as Hd.
      + destruct (add_to_order fuel nodes affected d s) as [s'|] eqn:Hcall.
        * intros Hrest Hok.
          destruct (IH _ _ _ Hcall Hok) as (Hok' & Hsub' & Hin').
          destruct (IHds _ _ Hrest Hok') as (Hok1 & Hsub1 & Hin1).
          split; [done|]. split; [set_solver|].
          intros d' [->|Hd']%elem_of_cons Hd'a; [set_solver | by apply Hin1].
        * intros Hrest. exfalso. clear -Hrest.
          induction ds as [|d' ds IHds']; [done | by apply IHds'].
      + intros Hrest Hok. destruct (IHds _ _ Hrest Hok) as (Hok1 & Hsub1 & Hin1).
        split; [done|]. split; [done|].
        intros d' [->|Hd']%elem_of_cons Hd'a; [done | by apply Hin1]. }
  intros Hrun Hok.
  assert (∃ st1, Some st1 = (if dict_mem agent nodes
               then foldl (λ acc dependent,
                             s ← acc;
                             if bool_decide (dependent ∈ affected)
                             then add_to_order fuel nodes affected dependent s
                             else Some s)
                          (Some st) (node_dependents nodes agent)
               else Some st)
          ∧ order_ok nodes affected st1 ∧ st.2 ⊆ st1.2
          ∧ ∀ d, dependent_of nodes agent d → d ∈ affected → d ∈ st1.2)
    as (st1 & Hst1 & Hok1 & Hsub1 & Hdeps1).
  { destruct (dict_mem agent nodes) eqn:Hmem.
    - destruct (foldl _ _ _) as [st1|] eqn:Hfold; [|done].
      exists st1. split; [done|]. by apply (Hloop _ _ _ Hfold).
    - exists st. split; [done|]. split; [done|]. split; [done|].
      intros d Hd. unfold dependent_of, node_dependents in Hd.
      unfold dict_mem in Hmem. apply bool_decide_eq_false in Hmem.
      destruct (dict_get agent nodes); [|inversion Hd]. destruct Hmem. eauto. }
  rewrite <- Hst1 in Hrun. simpl in Hrun.
  case_bool_decide as Hfresh.
  - injection Hrun as <-. split; [by apply order_ok_append|].
    simpl. split; set_solver.
  - injection Hrun as <-. split; [done|]. split; [done|]. intros _.
    destruct (decide (agent ∈ st1.2)); tauto.
Qed.

(** *** On an acyclic graph [add_to_order] returns *)

Lemma add_to_order_enough_fuel :
  (∀ x, ¬ tc (dependent_of nodes) x x) →
  ∀ fuel (stack : list string) agent st,
    NoDup stack →
    (∀ x, x ∈ stack → x ∈ nodes.*1) →
    (∀ x, x ∈ stack → tc (dependent_of nodes) x agent) →
    length nodes < fuel + length stack →
    is_Some (add_to_order fuel nodes affected agent st).
Proof.
  intros Hacyclic fuel.
  induction fuel as [|fuel IH]; intros stack agent st Hnd Hkeys Hreach Hfuel.
  { exfalso. simpl in Hfuel.
    assert (length stack ≤ length nodes.*1).
    { apply submseteq_length, NoDup_submseteq; done. }
    rewrite length_fmap in *. lia. }
  simpl. destruct (_ || _); [by eexists|].
  destruct (dict_mem agent nodes) eqn:Hmem.
  - assert (Hloop : ∀ ds s,
      (∀ d, d ∈ ds → dependent_of nodes agent d) →
      is_Some (foldl (λ acc dependent,
                        s ← acc;
                        if bool_decide (dependent ∈ affected)
                        then add_to_order fuel nodes affected dependent s
                        else Some s) (Some s) ds)).
    { induction ds as [|d ds IHds]; intros s Hds; [by eexists|].
      cbn [foldl mbind option_bind].
      assert (is_Some (if bool_decide (d ∈ affected)
                       then add_to_order fuel nodes affected d s
                       else Some s)) as [s' ->].
      { case_bool_decide; [|by eexists].
        apply (IH (agent :: stack)).
        - apply NoDup_cons. split; [|done].
          intros Hin. apply (Hacyclic agent). by apply Hreach.
        - intros x [->|?]%elem_of_cons; [by apply dict_mem_true | by apply Hkeys].
        - intros x [->|Hx]%elem_of_cons.
          + apply tc_once. apply Hds. left.
          + eapply tc_r; [by apply Hreach|]. apply Hds. left.
        - simpl. lia. }
      apply IHds. intros d' Hd'. apply Hds. by right. }
    destruct (Hloop (node_dependents nodes agent) st) as [st1 ->]; [done|].
    simpl. case_bool_decide; by eexists.
  - simpl. case_bool_decide; by eexists.
Qed.

End OrderFacts.

Section DeletionPlanFacts.
Import DependencyManager.

Lemma dependent_of_converse db x y :
  tc (dependent_of (get_dependency_graph db)) x y →
  tc (depends_on (get_dependency_graph db)) y x.
Proof.
  intros H. induction H as [x y H|x w y H _ IH].
  - apply tc_once. by apply graph_dependents.
  - eapply tc_r; [done|]. by apply graph_dependents.
Qed.

Lemma cascade_order_spec (set_iter : gset string → list string) db agent_name :
  acyclic (get_dependency_graph db) →
  ∃ affected st,
    _calculate_cascade_deletion_order set_iter agent_name (get_dependency_graph db)
      = Some st.1
    ∧ order_ok (get_dependency_graph db) affected st.
Proof.
  intros Hacyclic. unfold _calculate_cascade_deletion_order.
  set (nodes := get_dependency_graph db) in *.
  destruct (collect_affected_total nodes agent_name) as [affected ->].
  cbn [mbind option_bind].
  assert (Hloop : ∀ agents st,
    order_ok nodes affected st →
    ∃ st', foldl (λ acc agent,
                    acc ≫= add_to_order (S (length nodes)) nodes affected agent)
                 (Some st) agents = Some st'
           ∧ order_ok nodes affected st').
  { induction agents as [|agent agents IH]; intros st Hok; [by exists st|].
    cbn [foldl mbind option_bind].
    destruct (add_to_order_enough_fuel nodes affected
                ltac:(intros x Hx; apply (Hacyclic x); by apply dependent_of_converse)
                (S (length nodes)) [] agent st) as [st1 Hst1].
    - constructor.
    - intros x Hx. inversion Hx.
    - intros x Hx. inversion Hx.
    - simpl. lia.
    - rewrite Hst1. apply IH. by apply (add_to_order_ok _ _ _ _ _ _ Hst1). }
  destruct (Hloop (set_iter affected) ([], ∅)) as (st & -> & Hok).
  { split; [|split; [|split]]; simpl.
    - intros x. split; intros H; [set_solver | inversion H].
    - constructor.
    - intros x Hx. inversion Hx.
    - intros y d Hy. inversion Hy. }
  by exists affected, st.
Qed.

(** C4.  On an acyclic graph, for a target that has at least one
    dependent, [analyze_deletion_impact] returns a plan whose
    [deletion_order] lists no agent twice and places [x] strictly before
    [y] whenever both are listed and [x] depends on [y].  This holds for
    every order in which the set of affected agents is iterated. *)
Theorem deletion_order_topological (set_iter : gset string → list string)
    (db : list Models.Agent) (target : string) :
  acyclic (get_dependency_graph db) →
  node_dependents (get_dependency_graph db) target ≠ [] →
  ∃ plan,
    analyze_deletion_impact set_iter db target = Some plan
    ∧ can_delete_safely plan = false
    ∧ NoDup (deletion_order plan)
    ∧ ∀ x y, x ∈ deletion_order plan → y ∈ deletion_order plan →
             depends_on (get_dependency_graph db) x y →
             before (deletion_order plan) x y.
Proof.
  intros Hacyclic Hdependents. unfold analyze_deletion_impact.
  unfold node_dependents in Hdependents.
  destruct (dict_get target (get_dependency_graph db)) as [node|]; [|done].
  rewrite bool_decide_eq_false_2
    by (intros Hlen; by apply length_zero_iff_nil in Hlen).
  destruct (cascade_order_spec set_iter db target Hacyclic)
    as (affected & st & -> & Hset & Hnd & Haff & Hbefore).
  simpl. eexists. split; [done|]. simpl. split; [done|]. split; [done|].
  intros x y Hx Hy Hdep. apply Hbefore; [done | | by apply Haff].
  by apply graph_dependents.
Qed.

Lemma acyclic_by_rank (nodes : list (string * DependencyNode)) (rank : string → nat) :
  (∀ x y, depends_on nodes x y → rank y < rank x) → acyclic nodes.
Proof.
  intros Hrank x Htc.
  assert (Hgen : ∀ u v, tc (depends_on nodes) u v → rank v < rank u).
  { intros u v H. induction H as [u v H|u w v H _ IH].
    - by apply Hrank.
    - apply Hrank in H. lia. }
  apply Hgen in Htc. lia.
Qed.

End DeletionPlanFacts.

Lemma uav_graph_acyclic :
  DependencyManager.acyclic (DependencyManager.get_dependency_graph uav_db).
Proof.
  apply (acyclic_by_rank _ uav_rank). intros x y.
  unfold DependencyManager.depends_on. rewrite uav_graph_dependencies.
  unfold uav_rank.
  repeat case_decide; subst; intros Hin%list_elem_of_In; simpl in Hin;
    intuition (subst; simpl; try discriminate; lia).
Defined.

Lemma deletion_order_topological_witness :
  ∃ plan,
    DependencyManager.analyze_deletion_impact elements uav_db "mission_planner" = Some plan
    ∧ DependencyManager.can_delete_safely plan = false
    ∧ NoDup (DependencyManager.deletion_order plan)
    ∧ ∀ x y, x ∈ DependencyManager.deletion_order plan →
             y ∈ DependencyManager.deletion_order plan →
             DependencyManager.depends_on (DependencyManager.get_dependency_graph uav_db) x y →
             DependencyManager.before (DependencyManager.deletion_order plan) x y.
Proof.
  apply deletion_order_topological.
  - exact uav_graph_acyclic.
  - vm_compute. discriminate.
Defined.

Lemma detect_acyclic_empty_witness :
  DependencyManager.detect_circular_dependencies
    (DependencyManager.get_dependency_graph uav_db) = Some [].
Proof. apply detect_acyclic_empty. exact uav_graph_acyclic. Defined.

(** * Further properties of the dependency manager *)

Section DetectionMore.
Import DependencyManager.
Implicit Types (nodes : list (string * DependencyNode)).

(** X1.  [detect_circular_dependencies] returns a list for every graph,
    and the list is empty exactly on the graphs without a cycle. *)
Theorem detect_empty_iff_acyclic nodes :
  ∃ cycles,
    detect_circular_dependencies nodes = Some cycles
    ∧ (cycles = [] ↔ acyclic nodes).
Proof.
  destruct (detect_run nodes) as (final & Hdetect & Hrun).
  exists (circular_deps final). split; [done|]. split.
  - intros Hnil. apply detect_empty_acyclic. by rewrite Hdetect, Hnil.
  - intros Hacyclic.
    destruct (dfs_acyclic_silent nodes Hacyclic) as [_ Hlist].
    rewrite (Hlist _ _ _ Hrun); [done|].
    intros x d Hx. inversion Hx.
Qed.

Lemma walk_snoc nodes l x y :
  walk nodes (l ++ [x]) → depends_on nodes x y → walk nodes ((l ++ [x]) ++ [y]).
Proof.
  induction l as [|a l IH]; simpl; [done|].
  destruct (l ++ [x]) as [|b l'] eqn:Hl.
  - by destruct l.
  - intros [Hab Hrest] Hxy. simpl. split; [done|]. by apply IH.
Qed.

Lemma walk_drop nodes l i : walk nodes l → walk nodes (drop i l).
Proof.
  revert l. induction i as [|i IH]; intros l; [by rewrite drop_0|].
  destruct l as [|a l]; [done|]. simpl. intros Hw. apply IH.
  destruct l; [done | by destruct Hw].
Qed.

Lemma drop_index (l : list string) x :
  x ∈ l → ∃ rest, drop (index x l) l = x :: rest.
Proof.
  induction l as [|y l IH]; simpl; intros Hin; [inversion Hin|].
  case_decide as Hxy; [subst; by eexists|].
  apply elem_of_cons in Hin as [?|Hin]; [done | by apply IH].
Qed.

Lemma dfs_reports_walks nodes :
  (∀ n st st', dfs_rel nodes n st st' →
     walk nodes (path st ++ [n]) →
     Forall (closed_walk nodes) (circular_deps st) →
     Forall (closed_walk nodes) (circular_deps st'))
  ∧ (∀ ds st st', dfs_list_rel nodes ds st st' →
     (∀ d, d ∈ ds → walk nodes (path st ++ [d])) →
     Forall (closed_walk nodes) (circular_deps st) →
     Forall (closed_walk nodes) (circular_deps st')).
Proof.
  apply dfs_mutind.
  - intros n st Hpath Hwalk Hall. simpl. apply Forall_app. split; [done|].
    apply Forall_singleton. split.
    + destruct (drop_index _ _ Hpath) as [rest ->]. by exists n, rest.
    + pose proof (index_lt _ _ Hpath) as Hlt.
      replace (drop (index n (path st)) (path st) ++ [n])
        with (drop (index n (path st)) (path st ++ [n])).
      * by apply walk_drop.
      * rewrite drop_app_le; [done | lia].
  - done.
  - intros n st st2 _ _ Hloop IH Hwalk Hall. simpl. apply IH; [|done].
    intros d Hd. simpl. by apply walk_snoc.
  - done.
  - intros d ds st st1 st2 Hd IHd Hds IHds Hwalk Hall.
    apply IHds.
    + intros d' Hd'. rewrite (dfs_rel_path _ _ _ _ Hd). apply Hwalk. by right.
    + apply IHd; [|done]. apply Hwalk. left.
Qed.

(** Whatever [detect_circular_dependencies] returns is a list of closed
    walks of the graph. *)
Lemma detect_closed_walks nodes (cycles : list (list string)) :
  detect_circular_dependencies nodes = Some cycles →
  Forall (closed_walk nodes) cycles.
Proof.
  destruct (detect_run nodes) as (final & Hdetect & Hrun). rewrite Hdetect.
  intros [= <-]. destruct (dfs_reports_walks nodes) as [_ Hlist].
  apply (Hlist _ _ _ Hrun); [|constructor].
  intros d _. simpl. done.
Qed.

(** C7.  On every graph in which [a] depends on [b] and [b] on [a],
    [detect_circular_dependencies] returns a list that holds a cycle of
    the graph with both [a] and [b] on it: a list of names that ends
    with the name it starts with, in which each name lists the next one
    among its dependencies, and in which [a] and [b] occur. *)
Theorem detect_reports_two_cycle (nodes : list (string * DependencyNode)) (a b : string) :
  depends_on nodes a b → depends_on nodes b a →
  ∃ cycles cycle,
    detect_circular_dependencies nodes = Some cycles
    ∧ cycle ∈ cycles ∧ closed_walk nodes cycle ∧ a ∈ cycle ∧ b ∈ cycle.
Proof.
  intros Hab Hba.
  destruct (detect_two_cycle nodes a b Hab Hba) as (cycles & cycle & Hdetect & Hin & Ha & Hb).
  exists cycles, cycle. split; [done|]. split; [done|]. split; [|done].
  apply detect_closed_walks in Hdetect.
  by apply (proj1 (Forall_forall _ _) Hdetect).
Qed.

(** X2.  Every cycle [detect_circular_dependencies] reports is a closed
    walk of the graph: it ends with the name it starts with, and each
    element lists the next one among its dependencies. *)
Theorem detect_reports_closed_walks nodes :
  ∃ cycles,
    detect_circular_dependencies nodes = Some cycles
    ∧ Forall (closed_walk nodes) cycles.
Proof.
  destruct (detect_run nodes) as (final & Hdetect & Hrun).
  exists (circular_deps final). split; [done|].
  destruct (dfs_reports_walks nodes) as [_ Hlist].
  apply (Hlist _ _ _ Hrun); [|constructor].
  intros d _. simpl. done.
Qed.

(** X3.  The graph [get_dependency_graph] builds has one node per name
    of an INACTIVE or RUNNING agent, every dependency it keeps is such a
    name, and [dependents] is the exact converse of [dependencies]. *)
Theorem built_graph_well_formed (db : list Models.Agent) :
  NoDup (get_dependency_graph db).*1
  ∧ (∀ k, k ∈ (get_dependency_graph db).*1
          ↔ ∃ a, a ∈ db ∧ selected a = true ∧ Models.name a = k)
  ∧ (∀ x y, y ∈ node_dependencies (get_dependency_graph db) x →
            y ∈ (get_dependency_graph db).*1)
  ∧ (∀ x y, x ∈ node_dependents (get_dependency_graph db) y
            ↔ y ∈ node_dependencies (get_dependency_graph db) x).
Proof.
  split; [apply graph_NoDup|]. split; [|split].
  - intros k. unfold get_dependency_graph. rewrite populate_keys.
    destruct (build_nodes_spec (filter (λ a, selected a = true) db)) as [_ ->].
    rewrite list_elem_of_fmap. split.
    + intros (a & -> & [? ?]%list_elem_of_filter). by exists a.
    + intros (a & ? & ? & <-). exists a. split; [done|]. by apply list_elem_of_filter.
  - intros x y. apply graph_closed.
  - intros x y. apply graph_dependents.
Qed.

End DetectionMore.

Lemma detect_reports_two_cycle_witness :
  ∃ cycles cycle,
    DependencyManager.detect_circular_dependencies
      (DependencyManager.get_dependency_graph mutual_db) = Some cycles
    ∧ cycle ∈ cycles
    ∧ DependencyManager.closed_walk (DependencyManager.get_dependency_graph mutual_db) cycle
    ∧ "aerodynamics" ∈ cycle ∧ "structures" ∈ cycle.
Proof.
  apply detect_reports_two_cycle;
    unfold DependencyManager.depends_on; vm_compute; left.
Defined.

Section ValidationMore.
Import DependencyManager.
Implicit Types (nodes : list (string * DependencyNode)) (db : list Models.Agent).

Lemma chain_length_returns nodes agent_name :
  is_Some (_calculate_dependency_chain_length agent_name nodes).
Proof.
  apply chain_length_enough_fuel. rewrite difference_empty_L.
  pose proof (size_list_to_set_le nodes.*1) as Hle.
  rewrite length_fmap in Hle. lia.
Qed.

(** The chain warnings are appended to the warnings collected before. *)
Lemma chain_warnings_loop nodes (names : list string) (warnings : list string) :
  ∃ more,
    foldl (λ acc node_name,
             warnings ← acc;
             chain_length ← _calculate_dependency_chain_length node_name nodes;
             Some (if bool_decide (5 < chain_length)%Z
                   then warnings ++ [chain_warning node_name chain_length]
                   else warnings))
          (Some warnings) names = Some (warnings ++ more)
    ∧ ∀ w, w ∈ more →
        ∃ node_name depth,
          node_name ∈ names
          ∧ _calculate_dependency_chain_length node_name nodes = Some depth
          ∧ (5 < depth)%Z ∧ w = chain_warning node_name depth.
Proof.
  revert warnings. induction names as [|n names IH]; intros warnings.
  - exists []. split; [by rewrite app_nil_r | intros w Hw; inversion Hw].
  - cbn [foldl mbind option_bind].
    destruct (chain_length_returns nodes n) as [depth Hdepth]. rewrite Hdepth.
    cbn [mbind option_bind]. case_bool_decide as Hlong.
    + destruct (IH (warnings ++ [chain_warning n depth])) as (more & -> & Hmore).
      exists (chain_warning n depth :: more). split; [by rewrite <- app_assoc|].
      intros w [->|Hw]%elem_of_cons.
      * exists n, depth. split; [left | done].
      * destruct (Hmore w Hw) as (n' & d' & ? & ? & ? & ?).
        exists n', d'. split; [by right | done].
    + destruct (IH warnings) as (more & -> & Hmore).
      exists more. split; [done|]. intros w Hw.
      destruct (Hmore w Hw) as (n' & d' & ? & ? & ? & ?).
      exists n', d'. split; [by right | done].
Qed.

(** X4.  [validate_dependencies] returns for every content of the
    agents table.  It declares the system valid exactly when the graph
    has no cycle, lists one issue per reported cycle, never reports an
    orphaned dependency, and every warning it gives is about a
    dependency chain of more than five levels. *)
Theorem validate_dependencies_spec db :
  ∃ r,
    validate_dependencies db = Some r
    ∧ (Validation.is_valid r = true ↔ acyclic (get_dependency_graph db))
    ∧ detect_circular_dependencies (get_dependency_graph db)
      = Some (Validation.circular_dependencies r)
    ∧ Validation.issues r = cycle_issue <$> Validation.circular_dependencies r
    ∧ Validation.orphaned_dependencies r = []
    ∧ ∀ w, w ∈ Validation.warnings r →
        ∃ node_name depth,
          node_name ∈ (get_dependency_graph db).*1
          ∧ _calculate_dependency_chain_length node_name (get_dependency_graph db)
            = Some depth
          ∧ (5 < depth)%Z ∧ w = chain_warning node_name depth.
Proof.
  unfold validate_dependencies.
  destruct (detect_run (get_dependency_graph db)) as (final & Hdetect & Hrun).
  rewrite Hdetect. cbn [mbind option_bind].
  assert (Horph : find_orphaned_dependencies (get_dependency_graph db) = []).
  { apply find_orphaned_nil. intros node dep Hnode Hdep.
    apply list_elem_of_fmap in Hnode as ([k node'] & -> & Hin). simpl in Hdep.
    apply (graph_closed db k). unfold depends_on, node_dependencies.
    by rewrite (dict_get_elem_NoDup _ _ _ (graph_NoDup db) Hin). }
  rewrite Horph.
  destruct (chain_warnings_loop (get_dependency_graph db)
              (dict_keys (get_dependency_graph db)) []) as (more & -> & Hmore).
  cbn [mbind option_bind]. eexists. split; [done|]. simpl.
  split; [|split; [done|split; [done|split; [done|done]]]].
  rewrite bool_decide_eq_true, length_fmap, length_zero_iff_nil. split.
  - intros Hnil. apply detect_empty_acyclic. by rewrite Hdetect, Hnil.
  - intros Hacyclic.
    destruct (dfs_acyclic_silent _ Hacyclic) as [_ Hlist].
    rewrite (Hlist _ _ _ Hrun); [done|]. intros x d Hx. inversion Hx.
Qed.

(** *** The depth of a chain *)

Lemma chain_length_bounds nodes fuel agent_name (visited : gset string) depth :
  chain_length fuel nodes agent_name visited = Some depth →
  (0 ≤ depth ≤ Z.of_nat (size ((list_to_set nodes.*1 : gset string) ∖ visited)) + 1)%Z
  ∧ (agent_name ∉ visited → (1 ≤ depth)%Z).
Proof.
  revert agent_name visited depth.
  induction fuel as [|fuel IH]; intros agent_name visited depth; [done|].
  rewrite chain_length_S. case_bool_decide as Hvis.
  { intros [= <-]. split; [lia | done]. }
  destruct (dict_get agent_name nodes) as [node|] eqn:Hnode.
  2:{ intros [= <-]. split; [lia | done]. }
  case_bool_decide.
  { intros [= <-]. split; [lia | done]. }
  assert (Hsmaller :
    size ((list_to_set nodes.*1 : gset string) ∖ ({[agent_name]} ∪ visited))
    < size ((list_to_set nodes.*1 : gset string) ∖ visited)).
  { apply subset_size, strict_spec_alt. split; [set_solver|]. intros Heq.
    assert (Hin : agent_name ∈ (list_to_set nodes.*1 : gset string) ∖ visited).
    { apply elem_of_difference. split; [|done].
      apply elem_of_list_to_set, dict_get_is_Some. eauto. }
    rewrite <- Heq in Hin. set_solver. }
  assert (Hloop : ∀ deps acc m r,
    acc = Some m →
    (0 ≤ m ≤ Z.of_nat (size ((list_to_set nodes.*1 : gset string)
                               ∖ ({[agent_name]} ∪ visited))) + 1)%Z →
    foldl (λ acc dependency,
             max_depth ← acc;
             depth ← chain_length fuel nodes dependency ({[agent_name]} ∪ visited);
             Some (Z.max max_depth depth)) acc deps = Some r →
    (0 ≤ r ≤ Z.of_nat (size ((list_to_set nodes.*1 : gset string)
                               ∖ ({[agent_name]} ∪ visited))) + 1)%Z).
  { induction deps as [|d deps IHd]; intros acc m r -> Hm; [by intros [= <-]|].
    cbn [foldl mbind option_bind].
    destruct (chain_length fuel nodes d ({[agent_name]} ∪ visited)) as [x|] eqn:Hx.
    - cbn [mbind option_bind]. apply (IHd _ (Z.max m x)); [done|].
      apply IH in Hx as [Hx _]. lia.
    - cbn [mbind option_bind]. intros Hrun. exfalso. clear -Hrun.
      induction deps as [|d' deps IHd']; [done | by apply IHd']. }
  destruct (foldl _ _ _) as [m|] eqn:Hm; [|done].
  intros [= <-]. apply (Hloop _ _ 0%Z) in Hm; [|done|lia].
  split; [lia | lia].
Qed.

(** X5.  The depth [_calculate_dependency_chain_length] computes for a
    name lies between 1 and the number of nodes plus one; an agent
    without dependencies, and a name that is not a node, have depth 1. *)
Theorem chain_length_range nodes agent_name :
  ∃ depth,
    _calculate_dependency_chain_length agent_name nodes = Some depth
    ∧ (1 ≤ depth ≤ Z.of_nat (length nodes) + 1)%Z
    ∧ (node_dependencies nodes agent_name = [] → depth = 1%Z).
Proof.
  destruct (chain_length_returns nodes agent_name) as [depth Hdepth].
  exists depth. split; [done|].
  pose proof Hdepth as Hb. apply chain_length_bounds in Hb as [Hrange Hpos].
  rewrite difference_empty_L in Hrange.
  pose proof (size_list_to_set_le nodes.*1) as Hle. rewrite length_fmap in Hle.
  split; [split; [apply Hpos; set_solver | lia]|].
  intros Hnone. unfold _calculate_dependency_chain_length in Hdepth.
  rewrite chain_length_S in Hdepth. rewrite bool_decide_eq_false_2 in Hdepth by set_solver.
  unfold node_dependencies in Hnone.
  destruct (dict_get agent_name nodes) as [node|]; [|by injection Hdepth].
  rewrite Hnone in Hdepth. rewrite bool_decide_eq_true_2 in Hdepth by done.
  by injection Hdepth.
Qed.

End ValidationMore.

Section UpdateMore.
Import DependencyManager.
Implicit Types (db : list Models.Agent).

Lemma shared_dependencies db agent_name new_dependencies x :
  node_dependencies
    (populate_dependents
       (clear_dependents (proposed_graph db agent_name new_dependencies))
       (clear_dependents (proposed_graph db agent_name new_dependencies))) x
  = node_dependencies (proposed_graph db agent_name new_dependencies) x.
Proof. by rewrite populate_dependencies, clear_dependents_dependencies. Qed.

(** X6.  [update_agent_dependencies] returns for every input.  Whenever
    it reports a failure the agents table is left as it was; when it
    reports success the agent is a node of the graph, the graph with the
    proposal in place has no cycle, and the table differs only in the
    dependency list stored for that agent. *)
Theorem update_agent_dependencies_outcome (commit_ok : bool) db (agent_name : string)
    (new_dependencies : list string) :
  ∃ res db',
    update_agent_dependencies commit_ok db agent_name new_dependencies = Some (res, db')
    ∧ (success res = false → db' = db)
    ∧ (success res = true →
         db' = store_dependencies agent_name new_dependencies db
         ∧ agent_name ∈ (get_dependency_graph db).*1
         ∧ acyclic (proposed_graph db agent_name new_dependencies)).
Proof.
  unfold update_agent_dependencies.
  destruct (_ && _); [by eexists _, _|].
  destruct (dict_mem agent_name (get_dependency_graph db)) eqn:Hmem;
    [|by eexists _, _].
  apply dict_mem_true in Hmem. cbn [negb].
  fold (proposed_graph db agent_name new_dependencies).
  set (shared := populate_dependents _ _).
  destruct (detect_run shared) as (final & Hdetect & _). rewrite Hdetect.
  cbn [mbind option_bind].
  case_bool_decide as Hnil; cbn [negb]; [|by eexists _, _].
  assert (Hacyclic : acyclic (proposed_graph db agent_name new_dependencies)).
  { rewrite Hnil in Hdetect. apply detect_empty_acyclic in Hdetect.
    revert Hdetect. apply acyclic_same_edges. intros x. apply shared_dependencies. }
  destruct (rows_named agent_name db) as [|row [|row' rows]]; [by eexists _, _| |by eexists _, _].
  destruct commit_ok; by eexists _, _.
Qed.

(** X7.  The node objects are shared between the graph and its
    temporary copy: on success the dependencies reported as previous are
    the new ones. *)
Theorem update_reports_new_as_previous (commit_ok : bool) db (agent_name : string)
    (new_dependencies : list string) res db' :
  update_agent_dependencies commit_ok db agent_name new_dependencies = Some (res, db') →
  success res = true →
  previous_dependencies res = Some new_dependencies
  ∧ updated_dependencies res = Some new_dependencies.
Proof.
  unfold update_agent_dependencies.
  destruct (_ && _); [by intros [= <- <-]|].
  destruct (dict_mem agent_name (get_dependency_graph db)) eqn:Hmem;
    [|by intros [= <- <-]].
  apply dict_mem_true, dict_get_is_Some in Hmem as [node Hnode]. cbn [negb].
  fold (proposed_graph db agent_name new_dependencies).
  destruct (detect_circular_dependencies _) as [cycles|]; [|done].
  cbn [mbind option_bind].
  case_bool_decide; cbn [negb]; [|by intros [= <- <-]].
  destruct (rows_named agent_name db) as [|row [|row' rows]];
    [by intros [= <- <-]| |by intros [= <- <-]].
  destruct commit_ok; [|by intros [= <- <-]].
  intros [= <- <-] _. simpl. split; [|done]. f_equal.
  rewrite shared_dependencies. unfold proposed_graph, node_dependencies.
  rewrite dict_get_alter, decide_True by done. by rewrite Hnode.
Qed.

End UpdateMore.

Lemma update_reports_new_as_previous_witness :
  DependencyManager.previous_dependencies
    (DependencyManager.mkUpdateResult true None None (Some []) (Some []))
  = Some []
  ∧ DependencyManager.updated_dependencies
      (DependencyManager.mkUpdateResult true None None (Some []) (Some []))
    = Some [].
Proof.
  apply (update_reports_new_as_previous true uav_db "aerodynamics" [] _
           (DependencyManager.store_dependencies "aerodynamics" [] uav_db)).
  - vm_compute. reflexivity.
  - reflexivity.
Defined.

Section CascadeMore.
Import DependencyManager.
Implicit Types (nodes : list (string * DependencyNode)) (db : list Models.Agent).

Lemma collect_affected_spec nodes fuel (to_process : list string)
    (affected result : gset string) :
  collect_affected fuel nodes to_process affected = Some result →
  (affected ⊆ result ∧ ∀ x, x ∈ to_process → x ∈ result)
  ∧ ((∀ x d, x ∈ affected → dependent_of nodes x d → d ∈ affected ∨ d ∈ to_process) →
     ∀ x d, x ∈ result → dependent_of nodes x d → d ∈ result)
  ∧ (∀ R : string → Prop,
       (∀ x d, R x → dependent_of nodes x d → R d) →
       (∀ x, x ∈ affected → R x) → (∀ x, x ∈ to_process → R x) →
       ∀ x, x ∈ result → R x).
Proof.
  revert to_process affected.
  induction fuel as [|fuel IH]; intros to_process affected; [done|].
  simpl. destruct (last to_process) as [current|] eqn:Hlast.
  2:{ apply last_None in Hlast as ->. intros [= <-].
      split; [split; [done | intros x Hx; inversion Hx]|]. split.
      - intros Hcl x d Hx Hd. destruct (Hcl x d Hx Hd) as [?|H]; [done | inversion H].
      - intros R _ Haff _. done. }
  apply last_Some in Hlast as [rest ->]. rewrite pop_snoc.
  case_bool_decide as Hin.
  { intros Hrun. destruct (IH _ _ Hrun) as ((Hsub & Hrest) & Hclosed & Hreach).
    split; [split; [done|]|split].
    - intros x [?| ->%list_elem_of_singleton]%elem_of_app; [by apply Hrest | by apply Hsub].
    - intros Hcl. apply Hclosed. intros x d Hx Hd.
      destruct (Hcl x d Hx Hd) as [?|[?| ->%list_elem_of_singleton]%elem_of_app]; auto.
    - intros R HR Haff Hproc. apply Hreach; [done..|].
      intros x Hx. apply Hproc. apply elem_of_app. by left. }
  destruct (dict_mem current nodes) eqn:Hmem.
  - intros Hrun. destruct (IH _ _ Hrun) as ((Hsub & Hrest) & Hclosed & Hreach).
    split; [split; [set_solver|]|split].
    + intros x [?| ->%list_elem_of_singleton]%elem_of_app.
      * apply Hrest. apply elem_of_app. by left.
      * apply Hsub. set_solver.
    + intros Hcl. apply Hclosed. intros x d [->%elem_of_singleton|Hx]%elem_of_union Hd.
      * right. apply elem_of_app. by right.
      * destruct (Hcl x d Hx Hd) as [?|[?| ->%list_elem_of_singleton]%elem_of_app].
        -- left. set_solver.
        -- right. apply elem_of_app. by left.
        -- left. set_solver.
    + intros R HR Haff Hproc.
      assert (R current) by (apply Hproc, elem_of_app; right; left).
      apply Hreach; [done| |].
      * intros x [->%elem_of_singleton|?]%elem_of_union; auto.
      * intros x [?|Hd]%elem_of_app; [apply Hproc, elem_of_app; by left|].
        by apply (HR current).
  - intros Hrun. destruct (IH _ _ Hrun) as ((Hsub & Hrest) & Hclosed & Hreach).
    assert (Hnone : node_dependents nodes current = []).
    { unfold node_dependents. unfold dict_mem in Hmem.
      apply bool_decide_eq_false in Hmem.
      destruct (dict_get current nodes); [destruct Hmem; eauto | done]. }
    split; [split; [set_solver|]|split].
    + intros x [?| ->%list_elem_of_singleton]%elem_of_app; [by apply Hrest|].
      apply Hsub. set_solver.
    + intros Hcl. apply Hclosed. intros x d [->%elem_of_singleton|Hx]%elem_of_union Hd.
      * unfold dependent_of in Hd. rewrite Hnone in Hd. inversion Hd.
      * destruct (Hcl x d Hx Hd) as [?|[?| ->%list_elem_of_singleton]%elem_of_app].
        -- left. set_solver.
        -- by right.
        -- left. set_solver.
    + intros R HR Haff Hproc.
      assert (R current) by (apply Hproc, elem_of_app; right; left).
      apply Hreach; [done| |].
      * intros x [->%elem_of_singleton|?]%elem_of_union; auto.
      * intros x Hx. apply Hproc, elem_of_app. by left.
Qed.

(** The order lists exactly the affected agents when the iteration over
    the set reaches each of them. *)
Lemma cascade_order_elements (set_iter : gset string → list string) db agent_name :
  (∀ (s : gset string) x, x ∈ s → x ∈ set_iter s) →
  acyclic (get_dependency_graph db) →
  ∃ affected st,
    collect_affected (collect_fuel (get_dependency_graph db)) (get_dependency_graph db)
                     [agent_name] ∅ = Some affected
    ∧ _calculate_cascade_deletion_order set_iter agent_name (get_dependency_graph db)
      = Some st.1
    ∧ order_ok (get_dependency_graph db) affected st
    ∧ ∀ x, x ∈ st.1 ↔ x ∈ affected.
Proof.
  intros Hiter Hacyclic. unfold _calculate_cascade_deletion_order.
  set (nodes := get_dependency_graph db) in *.
  destruct (collect_affected_total nodes agent_name) as [affected Haffected].
  rewrite Haffected. cbn [mbind option_bind].
  assert (Hloop : ∀ agents st,
    order_ok nodes affected st →
    ∃ st', foldl (λ acc agent,
                    acc ≫= add_to_order (S (length nodes)) nodes affected agent)
                 (Some st) agents = Some st'
           ∧ order_ok nodes affected st'
           ∧ st.2 ⊆ st'.2
           ∧ ∀ a, a ∈ agents → a ∈ affected → a ∈ st'.2).
  { induction agents as [|agent agents IH]; intros st Hok.
    - exists st. split; [done|]. split; [done|]. split; [done|].
      intros a Ha. inversion Ha.
    - cbn [foldl mbind option_bind].
      destruct (add_to_order_enough_fuel nodes affected
                  ltac:(intros x Hx; apply (Hacyclic x); by apply dependent_of_converse)
                  (S (length nodes)) [] agent st) as [st1 Hst1].
      + constructor.
      + intros x Hx. inversion Hx.
      + intros x Hx. inversion Hx.
      + simpl. lia.
      + rewrite Hst1.
        destruct (add_to_order_ok _ _ _ _ _ _ Hst1 Hok) as (Hok1 & Hsub1 & Hin1).
        destruct (IH st1 Hok1) as (st' & Hfold & Hok' & Hsub' & Hin').
        exists st'. split; [done|]. split; [done|]. split; [set_solver|].
        intros a [->|Ha]%elem_of_cons Haff; [set_solver | by apply Hin']. }
  destruct (Hloop (set_iter affected) ([], ∅)) as (st & -> & Hok & _ & Hall).
  { split; [|split; [|split]]; simpl.
    - intros x. split; intros H; [set_solver | inversion H].
    - constructor.
    - intros x Hx. inversion Hx.
    - intros y d Hy. inversion Hy. }
  exists affected, st. split; [done|]. split; [done|]. split; [done|].
  destruct Hok as (Hset & _ & Haff & _). intros x. split; [apply Haff|].
  intros Hx. apply Hset. apply Hall; [by apply Hiter | done].
Qed.

Lemma analyze_cascade_plan (set_iter : gset string → list string) db (target : string) :
  (∀ (s : gset string) x, x ∈ s → x ∈ set_iter s) →
  acyclic (get_dependency_graph db) →
  node_dependents (get_dependency_graph db) target ≠ [] →
  ∃ order warnings,
    analyze_deletion_impact set_iter db target
    = Some (mkPlan target false (node_dependents (get_dependency_graph db) target)
                   true order warnings)
    ∧ NoDup order
    ∧ (∀ x, x ∈ order ↔ rtc (depends_on (get_dependency_graph db)) x target)
    ∧ last order = Some target.
Proof.
  intros Hiter Hacyclic Hdependents. unfold analyze_deletion_impact.
  unfold node_dependents in *.
  destruct (dict_get target (get_dependency_graph db)) as [node|]; [|done].
  rewrite bool_decide_eq_false_2
    by (intros Hlen; by apply length_zero_iff_nil in Hlen).
  destruct (cascade_order_elements set_iter db target Hiter Hacyclic)
    as (affected & st & Hcollect & -> & (Hset & Hnd & Haff & Hbefore) & Helems).
  cbn [mbind option_bind]. eexists _, _. split; [done|]. split; [done|].
  apply collect_affected_spec in Hcollect as ((_ & Htarget) & Hclosed & Hreach).
  assert (Hchar : ∀ x, x ∈ st.1 ↔ rtc (depends_on (get_dependency_graph db)) x target).
  { intros x. rewrite Helems. split.
    - apply (Hreach (λ x, rtc (depends_on (get_dependency_graph db)) x target)).
      + intros y d Hy Hd. eapply rtc_l; [|done]. by apply graph_dependents.
      + intros y Hy. set_solver.
      + intros y ->%list_elem_of_singleton. done.
    - assert (Htg : target ∈ affected) by (apply Htarget; left).
      assert (Hcl : ∀ y d, y ∈ affected →
                dependent_of (get_dependency_graph db) y d → d ∈ affected).
      { apply Hclosed. intros ? ? H. set_solver. }
      clear -Htg Hcl. intros Hrtc. induction Hrtc as [|x y z Hxy _ IH]; [done|].
      apply (Hcl y x); [by apply IH|]. by apply graph_dependents. }
  split; [done|].
  destruct (last st.1) as [z|] eqn:Hlast.
  2:{ apply last_None in Hlast. assert (target ∈ st.1) by by apply Hchar.
      rewrite Hlast in *. by apply elem_of_nil in H. }
  f_equal. destruct (decide (z = target)) as [|Hne]; [done|]. exfalso.
  assert (Hz : z ∈ st.1) by by apply last_Some_elem_of.
  apply Hchar in Hz. inversion Hz as [|? y ? Hzy Hrest]; subst; [done|].
  assert (Hy : y ∈ st.1) by by apply Hchar.
  destruct (Hbefore y z Hy) as (l1 & l2 & l3 & Hsplit).
  { by apply graph_dependents. }
  { apply Haff. by apply last_Some_elem_of. }
  rewrite last_lookup in Hlast.
  assert (Hat : st.1 !! length l1 = Some z).
  { rewrite Hsplit. by rewrite list_lookup_middle. }
  pose proof (NoDup_lookup _ _ _ _ Hnd Hlast Hat) as Hidx.
  rewrite Hsplit in Hidx. rewrite !length_app in Hidx. simpl in Hidx.
  rewrite length_app in Hidx. simpl in Hidx. lia.
Qed.

(** X8.  On an acyclic graph, for a target with at least one dependent
    and an iteration over sets that reaches every element, the cascade
    [deletion_order] lists exactly the target and the agents that depend
    on it through one or more dependency edges, and the target comes
    last. *)
Theorem deletion_order_content (set_iter : gset string → list string) db (target : string) :
  (∀ (s : gset string) x, x ∈ s → x ∈ set_iter s) →
  acyclic (get_dependency_graph db) →
  node_dependents (get_dependency_graph db) target ≠ [] →
  ∃ plan,
    analyze_deletion_impact set_iter db target = Some plan
    ∧ (∀ x, x ∈ deletion_order plan ↔ rtc (depends_on (get_dependency_graph db)) x target)
    ∧ last (deletion_order plan) = Some target.
Proof.
  intros Hiter Hacyclic Hdependents.
  destruct (analyze_cascade_plan set_iter db target Hiter Hacyclic Hdependents)
    as (order & warnings & -> & _ & Hchar & Hlast).
  by eexists.
Qed.

End CascadeMore.

Lemma deletion_order_content_witness :
  ∃ plan,
    DependencyManager.analyze_deletion_impact elements uav_db "mission_planner" = Some plan
    ∧ (∀ x, x ∈ DependencyManager.deletion_order plan
            ↔ rtc (DependencyManager.depends_on
                     (DependencyManager.get_dependency_graph uav_db)) x "mission_planner")
    ∧ last (DependencyManager.deletion_order plan) = Some "mission_planner".
Proof.
  apply deletion_order_content.
  - intros s x Hx. by apply elem_of_elements.
  - exact uav_graph_acyclic.
  - vm_compute. discriminate.
Defined.

Section DeletionMore.
Import DependencyManager.
Implicit Types (db : list Models.Agent) (a : Models.Agent).

Lemma graph_keys db k :
  k ∈ (get_dependency_graph db).*1
  ↔ ∃ a, a ∈ db ∧ selected a = true ∧ Models.name a = k.
Proof.
  unfold get_dependency_graph. rewrite populate_keys.
  destruct (build_nodes_spec (filter (λ a, selected a = true) db)) as [_ ->].
  rewrite list_elem_of_fmap. split.
  - intros (a & -> & [? ?]%list_elem_of_filter). by exists a.
  - intros (a & ? & ? & <-). exists a. split; [done|]. by apply list_elem_of_filter.
Qed.

Lemma rows_named_nil db n : n ∉ Models.name <$> db → rows_named n db = [].
Proof.
  unfold rows_named. induction db as [|b db IH]; csimpl; intros Hn; [done|].
  rewrite not_elem_of_cons in Hn. destruct Hn as [Hne Hn].
  rewrite filter_cons_False by done. by apply IH.
Qed.

Lemma rows_named_unique db a :
  NoDup (Models.name <$> db) → a ∈ db → rows_named (Models.name a) db = [a].
Proof.
  induction db as [|b db IH]; csimpl; intros Hnd Hin; [inversion Hin|].
  apply NoDup_cons in Hnd as [Hb Hnd]. unfold rows_named in *.
  apply elem_of_cons in Hin as [->|Hin].
  - rewrite filter_cons_True by done. f_equal. by apply rows_named_nil.
  - rewrite filter_cons_False; [by apply IH|].
    intros Heq. apply Hb. rewrite Heq. by apply list_elem_of_fmap_2.
Qed.

Lemma rows_named_delete_other db n m :
  n ≠ m → rows_named n (delete_rows m db) = rows_named n db.
Proof.
  intros Hne. unfold rows_named, delete_rows. rewrite list_filter_filter.
  apply list_filter_iff. intros a. split; [by intros [? _] | intros ->; done].
Qed.

Lemma filter_all {A} (P : A → Prop) `{∀ x, Decision (P x)} (l : list A) :
  (∀ x, x ∈ l → P x) → filter P l = l.
Proof.
  induction l as [|x l IH]; intros Hall; [done|].
  rewrite filter_cons_True by (apply Hall; left). f_equal.
  apply IH. intros y Hy. apply Hall. by right.
Qed.

(** The cascade loop deletes the row of every listed name. *)
Lemma cascade_loop_spec (order : list string) db (deleted : list string) :
  NoDup order →
  (∀ x, x ∈ order → ∃ a, rows_named x db = [a]) →
  cascade_loop order db deleted
  = inl (filter (λ a, Models.name a ∉ order) db, deleted ++ order).
Proof.
  revert db deleted. induction order as [|x order IH]; intros db deleted Hnd Hrows.
  - simpl. rewrite app_nil_r. do 2 f_equal. symmetry. apply filter_all.
    intros a _ Hin. inversion Hin.
  - apply NoDup_cons in Hnd as [Hx Hnd]. simpl.
    destruct (Hrows x) as [a ->]; [left|].
    rewrite IH; [|done|].
    + do 2 f_equal.
      * unfold delete_rows. rewrite list_filter_filter. apply list_filter_iff.
        intros b. rewrite not_elem_of_cons. tauto.
      * by rewrite <- app_assoc.
    + intros y Hy. rewrite rows_named_delete_other by (intros ->; done).
      apply Hrows. by right.
Qed.

Lemma build_fold_get_other (names : gset string) (agents : list Models.Agent)
    (nodes : list (string * DependencyNode)) k :
  k ∉ Models.name <$> agents →
  dict_get k
    (foldl (λ nodes agent,
              dict_set (Models.name agent)
                (mkNode (Models.name agent) (Models.id agent)
                   (filter (λ dep, dep ∈ names) (default [] (Models.dependencies agent))) [])
                nodes) nodes agents)
  = dict_get k nodes.
Proof.
  revert nodes. induction agents as [|b agents IH]; intros nodes Hk; [done|].
  csimpl in *. rewrite not_elem_of_cons in Hk. destruct Hk as [Hne Hk].
  rewrite IH by done. rewrite dict_get_set. by rewrite decide_False.
Qed.

Lemma build_fold_get (names : gset string) (agents : list Models.Agent)
    (nodes : list (string * DependencyNode)) a :
  NoDup (Models.name <$> agents) → a ∈ agents →
  dict_get (Models.name a)
    (foldl (λ nodes agent,
              dict_set (Models.name agent)
                (mkNode (Models.name agent) (Models.id agent)
                   (filter (λ dep, dep ∈ names) (default [] (Models.dependencies agent))) [])
                nodes) nodes agents)
  = Some (mkNode (Models.name a) (Models.id a)
            (filter (λ dep, dep ∈ names) (default [] (Models.dependencies a))) []).
Proof.
  revert nodes. induction agents as [|b agents IH]; intros nodes Hnd Hin; [inversion Hin|].
  csimpl in *. apply NoDup_cons in Hnd as [Hb Hnd].
  apply elem_of_cons in Hin as [->|Hin].
  - rewrite build_fold_get_other by done. rewrite dict_get_set. by rewrite decide_True.
  - by apply IH.
Qed.

(** With distinct names in the table, the node of a selected row keeps
    the dependencies of that row that are nodes. *)
Lemma graph_row_dependencies db a dep :
  NoDup (Models.name <$> db) → a ∈ db → selected a = true →
  dep ∈ node_dependencies (get_dependency_graph db) (Models.name a)
  ↔ dep ∈ default [] (Models.dependencies a) ∧ dep ∈ (get_dependency_graph db).*1.
Proof.
  intros Hnd Hin Hsel. unfold get_dependency_graph at 1.
  rewrite populate_dependencies. unfold node_dependencies, build_nodes.
  set (agents := filter (λ a, selected a = true) db).
  rewrite (build_fold_get _ agents [] a).
  - simpl. rewrite list_elem_of_filter, elem_of_list_to_set.
    unfold get_dependency_graph. rewrite populate_keys.
    destruct (build_nodes_spec agents) as [_ Hkeys]. fold agents.
    rewrite Hkeys. tauto.
  - eapply sublist_NoDup; [done|]. apply fmap_sublist, sublist_filter.
  - by apply list_elem_of_filter.
Qed.

Lemma analyze_refuses (set_iter : gset string → list string) db (agent_name : string) :
  acyclic (get_dependency_graph db) →
  node_dependents (get_dependency_graph db) agent_name ≠ [] →
  ∃ order warnings,
    analyze_deletion_impact set_iter db agent_name
    = Some (mkPlan agent_name false
              (node_dependents (get_dependency_graph db) agent_name) true order warnings).
Proof.
  intros Hacyclic Hdependents. unfold analyze_deletion_impact.
  unfold node_dependents in *.
  destruct (dict_get agent_name (get_dependency_graph db)) as [node|]; [|done].
  rewrite bool_decide_eq_false_2
    by (intros Hlen; by apply length_zero_iff_nil in Hlen).
  destruct (cascade_order_spec set_iter db agent_name Hacyclic) as (affected & st & -> & _).
  cbn [mbind option_bind]. by eexists _, _.
Qed.

(** X9.  Without [force_cascade], [execute_safe_deletion] never deletes
    an agent that has dependents: on an acyclic graph it returns a
    failure that asks for a cascade, carries the plan with the direct
    dependents, and leaves the agents table as it was. *)
Theorem execute_safe_deletion_refuses (set_iter : gset string → list string)
    (repr : list string → string) (commit_ok : bool) db (agent_name : string) :
  acyclic (get_dependency_graph db) →
  node_dependents (get_dependency_graph db) agent_name ≠ [] →
  ∃ res plan,
    execute_safe_deletion set_iter repr commit_ok db agent_name false = Some (res, db)
    ∧ Deletion.success res = false
    ∧ Deletion.requires_cascade res = Some true
    ∧ Deletion.deleted_agents res = None
    ∧ Deletion.deletion_plan res = Some plan
    ∧ can_delete_safely plan = false
    ∧ dependent_agents plan = node_dependents (get_dependency_graph db) agent_name.
Proof.
  intros Hacyclic Hdependents. unfold execute_safe_deletion.
  destruct (analyze_refuses set_iter db agent_name Hacyclic Hdependents)
    as (order & warnings & ->).
  cbn [mbind option_bind]. simpl. by eexists _, _.
Qed.

(** X10.  For an agent that is a node nobody depends on, in a table with
    distinct names and with a commit that succeeds,
    [execute_safe_deletion] deletes exactly the row of that agent,
    whatever [force_cascade] is; the agent is no longer a node of the
    graph and the other nodes are the same. *)
Theorem execute_safe_deletion_simple (set_iter : gset string → list string)
    (repr : list string → string) db (agent_name : string) (force_cascade : bool) :
  NoDup (Models.name <$> db) →
  agent_name ∈ (get_dependency_graph db).*1 →
  node_dependents (get_dependency_graph db) agent_name = [] →
  execute_safe_deletion set_iter repr true db agent_name force_cascade
  = Some (Deletion.mkDeletionResult true None
            (Some (mkPlan agent_name true [] false [agent_name] []))
            None (Some [agent_name]) (Some false),
          delete_rows agent_name db)
  ∧ ∀ k, k ∈ (get_dependency_graph (delete_rows agent_name db)).*1
         ↔ k ∈ (get_dependency_graph db).*1 ∧ k ≠ agent_name.
Proof.
  intros Hnd Hkey Hnone. split.
  - unfold execute_safe_deletion, analyze_deletion_impact.
    pose proof Hkey as Hnode. apply dict_get_is_Some in Hnode as [node Hnode].
    unfold node_dependents in Hnone. rewrite Hnode in *. rewrite Hnone.
    cbn [mbind option_bind]. simpl. rewrite andb_false_r.
    apply graph_keys in Hkey as (a & Ha & _ & <-).
    by rewrite (rows_named_unique db a Hnd Ha).
  - intros k. rewrite !graph_keys. unfold delete_rows. split.
    + intros (a & [Hne Ha]%list_elem_of_filter & Hsel & <-). split; [by exists a | done].
    + intros [(a & Ha & Hsel & <-) Hne]. exists a. split; [|done].
      by apply list_elem_of_filter.
Qed.

(** X11.  With [force_cascade], on an acyclic graph, in a table with
    distinct names and with a commit that succeeds, the deletion of an
    agent that has dependents removes exactly the rows of the agents of
    the deletion order, and no INACTIVE or RUNNING agent that remains
    lists a deleted agent among its dependencies. *)
Theorem execute_safe_deletion_cascade (set_iter : gset string → list string)
    (repr : list string → string) db (agent_name : string) :
  (∀ (s : gset string) x, x ∈ s → x ∈ set_iter s) →
  NoDup (Models.name <$> db) →
  acyclic (get_dependency_graph db) →
  node_dependents (get_dependency_graph db) agent_name ≠ [] →
  ∃ plan,
    execute_safe_deletion set_iter repr true db agent_name true
    = Some (Deletion.mkDeletionResult true None (Some plan) None
              (Some (deletion_order plan)) (Some true),
            filter (λ a, Models.name a ∉ deletion_order plan) db)
    ∧ agent_name ∈ deletion_order plan
    ∧ ∀ a dep,
        a ∈ filter (λ a, Models.name a ∉ deletion_order plan) db →
        selected a = true →
        dep ∈ default [] (Models.dependencies a) →
        dep ∉ deletion_order plan.
Proof.
  intros Hiter Hnd Hacyclic Hdependents. unfold execute_safe_deletion.
  destruct (analyze_cascade_plan set_iter db agent_name Hiter Hacyclic Hdependents)
    as (order & warnings & -> & Hnodup & Hchar & Hlast).
  cbn [mbind option_bind]. simpl.
  assert (Hkeys : ∀ x, x ∈ order → x ∈ (get_dependency_graph db).*1).
  { intros x Hx. apply Hchar in Hx. inversion Hx as [|? y ? Hxy _]; subst.
    - unfold node_dependents in Hdependents. apply dict_get_is_Some.
      destruct (dict_get agent_name (get_dependency_graph db)); [eauto | done].
    - unfold depends_on, node_dependencies in Hxy. apply dict_get_is_Some.
      destruct (dict_get x (get_dependency_graph db)); [eauto | inversion Hxy]. }
  rewrite cascade_loop_spec; [|done|].
  2:{ intros x Hx. apply Hkeys, graph_keys in Hx as (a & Ha & _ & <-).
      exists a. by apply rows_named_unique. }
  rewrite app_nil_l.
  exists (mkPlan agent_name false
            (node_dependents (get_dependency_graph db) agent_name) true order warnings).
  split; [reflexivity|]. simpl. split; [by apply Hchar|].
  intros a dep [Hkeep Ha]%list_elem_of_filter Hsel Hdep Hdeleted.
  apply Hkeep. apply Hchar. eapply rtc_l; [|by apply Hchar].
  unfold depends_on. apply graph_row_dependencies; [done..|]. split; [done|].
  by apply Hkeys.
Qed.

End DeletionMore.

Lemma execute_safe_deletion_refuses_witness :
  ∃ res plan,
    DependencyManager.execute_safe_deletion elements (String.concat ", ") true
      uav_db "mission_planner" false = Some (res, uav_db)
    ∧ DependencyManager.Deletion.success res = false
    ∧ DependencyManager.Deletion.requires_cascade res = Some true
    ∧ DependencyManager.Deletion.deleted_agents res = None
    ∧ DependencyManager.Deletion.deletion_plan res = Some plan
    ∧ DependencyManager.can_delete_safely plan = false
    ∧ DependencyManager.dependent_agents plan
      = DependencyManager.node_dependents
          (DependencyManager.get_dependency_graph uav_db) "mission_planner".
Proof.
  apply execute_safe_deletion_refuses.
  - exact uav_graph_acyclic.
  - vm_compute. discriminate.
Defined.

Lemma execute_safe_deletion_simple_witness :
  DependencyManager.execute_safe_deletion elements (String.concat ", ") true
    uav_db "structures" false
  = Some (DependencyManager.Deletion.mkDeletionResult true None
            (Some (DependencyManager.mkPlan "structures" true [] false ["structures"] []))
            None (Some ["structures"]) (Some false),
          DependencyManager.delete_rows "structures" uav_db)
  ∧ ∀ k, k ∈ (DependencyManager.get_dependency_graph
                (DependencyManager.delete_rows "structures" uav_db)).*1
         ↔ k ∈ (DependencyManager.get_dependency_graph uav_db).*1 ∧ k ≠ "structures".
Proof.
  apply execute_safe_deletion_simple.
  - apply (bool_decide_unpack _). by vm_compute.
  - apply (bool_decide_unpack _). by vm_compute.
  - by vm_compute.
Defined.

Lemma execute_safe_deletion_cascade_witness :
  ∃ plan,
    DependencyManager.execute_safe_deletion elements (String.concat ", ") true
      uav_db "mission_planner" true
    = Some (DependencyManager.Deletion.mkDeletionResult true None (Some plan) None
              (Some (DependencyManager.deletion_order plan)) (Some true),
            filter (λ a, Models.name a ∉ DependencyManager.deletion_order plan) uav_db)
    ∧ "mission_planner" ∈ DependencyManager.deletion_order plan
    ∧ ∀ a dep,
        a ∈ filter (λ a, Models.name a ∉ DependencyManager.deletion_order plan) uav_db →
        DependencyManager.selected a = true →
        dep ∈ default [] (Models.dependencies a) →
        dep ∉ DependencyManager.deletion_order plan.
Proof.
  apply execute_safe_deletion_cascade.
  - intros s x Hx. by apply elem_of_elements.
  - apply (bool_decide_unpack _). by vm_compute.
  - exact uav_graph_acyclic.
  - vm_compute. discriminate.
Defined.

(** *** The dependency report *)

Section ReportMore.
Import DependencyManager.
Implicit Types (nodes : list (string * DependencyNode)) (db : list Models.Agent).

Lemma validate_dependencies_returns db : is_Some (validate_dependencies db).
Proof.
  unfold validate_dependencies.
  destruct (detect_run (get_dependency_graph db)) as (final & -> & _).
  cbn [mbind option_bind].
  destruct (chain_warnings_loop (get_dependency_graph db)
              (dict_keys (get_dependency_graph db))
              (find_orphaned_dependencies (get_dependency_graph db))) as (more & -> & _).
  cbn [mbind option_bind]. eauto.
Qed.

(** Three tests of which exactly one holds of every node split the nodes. *)
Lemma names_where_split (t1 t2 t3 : DependencyNode → bool) nodes :
  (∀ node, Nat.b2n (t1 node) + Nat.b2n (t2 node) + Nat.b2n (t3 node) = 1) →
  length (names_where t1 nodes) + length (names_where t2 nodes)
  + length (filter (λ node, t3 node = true) (dict_values nodes)) = length nodes.
Proof.
  intros Hone. unfold names_where, dict_values.
  induction nodes as [|[k node] nodes IH]; [done|].
  csimpl. rewrite !filter_cons. simpl. specialize (Hone node).
  destruct (t1 node), (t2 node), (t3 node); simpl in Hone; try lia;
    repeat case_decide; try congruence; csimpl; lia.
Qed.

Lemma names_where_spec (test : DependencyNode → bool) nodes x :
  NoDup nodes.*1 →
  x ∈ names_where test nodes ↔ ∃ node, dict_get x nodes = Some node ∧ test node = true.
Proof.
  intros Hnd. unfold names_where. rewrite list_elem_of_fmap. split.
  - intros ([k node] & -> & [Htest Hin]%list_elem_of_filter).
    exists node. split; [by apply dict_get_elem_NoDup | done].
  - intros (node & Hget & Htest). exists (x, node). split; [done|].
    apply list_elem_of_filter. split; [done | by apply dict_get_Some_elem].
Qed.

Lemma nonempty_false (l : list string) : nonempty l = false ↔ ∀ y, y ∉ l.
Proof.
  destruct l as [|x l]; simpl; split; try done.
  - intros _ y Hy. inversion Hy.
  - intros Hall. destruct (Hall x). left.
Qed.

Lemma nonempty_true (l : list string) : nonempty l = true ↔ ∃ y, y ∈ l.
Proof.
  destruct l as [|x l]; simpl; split; try done.
  - intros [y Hy]. inversion Hy.
  - intros _. exists x. left.
Qed.

(** X12.  [get_dependency_report] returns for every content of the
    agents table.  Its isolated, root and leaf categories hold exactly
    the nodes without any edge, with incoming edges only and with
    outgoing edges only; with the agents that have dependencies the
    isolated and root agents make up all agents, and so do the isolated
    and leaf agents with the agents that have dependents. *)
Theorem get_dependency_report_categories db :
  ∃ r,
    get_dependency_report db = Some r
    ∧ total_agents r = length (get_dependency_graph db)
    ∧ length (isolated_agents r) + length (root_agents r) + agents_with_dependencies r
      = total_agents r
    ∧ length (isolated_agents r) + length (leaf_agents r) + agents_with_dependents r
      = total_agents r
    ∧ (∀ x, x ∈ isolated_agents r
            ↔ x ∈ (get_dependency_graph db).*1
              ∧ (∀ y, ¬ depends_on (get_dependency_graph db) x y)
              ∧ (∀ y, ¬ depends_on (get_dependency_graph db) y x))
    ∧ (∀ x, x ∈ root_agents r
            ↔ x ∈ (get_dependency_graph db).*1
              ∧ (∀ y, ¬ depends_on (get_dependency_graph db) x y)
              ∧ (∃ y, depends_on (get_dependency_graph db) y x))
    ∧ (∀ x, x ∈ leaf_agents r
            ↔ x ∈ (get_dependency_graph db).*1
              ∧ (∃ y, depends_on (get_dependency_graph db) x y)
              ∧ (∀ y, ¬ depends_on (get_dependency_graph db) y x)).
Proof.
  unfold get_dependency_report.
  destruct (validate_dependencies_returns db) as [v ->]. cbn [mbind option_bind].
  eexists. split; [done|]. simpl.
  assert (Hcat : ∀ (t1 t2 : list string → bool) x,
    x ∈ names_where (λ node, t1 (dependencies node) && t2 (dependents node))
          (get_dependency_graph db)
    ↔ x ∈ (get_dependency_graph db).*1
      ∧ t1 (node_dependencies (get_dependency_graph db) x) = true
      ∧ t2 (node_dependents (get_dependency_graph db) x) = true).
  { intros t1 t2 x. rewrite names_where_spec by apply graph_NoDup.
    rewrite <- dict_get_is_Some. unfold node_dependencies, node_dependents.
    destruct (dict_get x (get_dependency_graph db)) as [node|].
    - rewrite <- andb_true_iff. split.
      + intros (node' & [= <-] & Htest). split; [by eexists | done].
      + intros [_ Htest]. by exists node.
    - split; [intros (? & ? & _); done | intros [[? ?] _]; done]. }
  assert (Hin : ∀ x, (∃ y, y ∈ node_dependents (get_dependency_graph db) x)
                     ↔ ∃ y, depends_on (get_dependency_graph db) y x).
  { intros x. by setoid_rewrite graph_dependents. }
  assert (Hnone : ∀ x, (∀ y, y ∉ node_dependents (get_dependency_graph db) x)
                       ↔ ∀ y, ¬ depends_on (get_dependency_graph db) y x).
  { intros x. by setoid_rewrite graph_dependents. }
  split; [done|]. split; [|split; [|split; [|split]]].
  - apply (names_where_split _ _ (λ node, nonempty (dependencies node))).
    intros node. by destruct (nonempty (dependencies node)), (nonempty (dependents node)).
  - apply (names_where_split _ _ (λ node, nonempty (dependents node))).
    intros node. by destruct (nonempty (dependencies node)), (nonempty (dependents node)).
  - intros x. rewrite (Hcat (λ l, negb (nonempty l)) (λ l, negb (nonempty l))).
    rewrite !negb_true_iff, !nonempty_false, Hnone. done.
  - intros x. rewrite (Hcat (λ l, negb (nonempty l)) nonempty).
    rewrite !negb_true_iff, nonempty_false, nonempty_true, Hin. done.
  - intros x. rewrite (Hcat nonempty (λ l, negb (nonempty l))).
    rewrite !negb_true_iff, nonempty_false, nonempty_true, Hnone. done.
Qed.

End ReportMore.

(** ** The cycle check of agent creation *)

Section CreationCheck.
Import DependencyManager.
Implicit Types (nodes : list (string * DependencyNode)) (db : list Models.Agent).

Lemma node_dependencies_set nodes k node x :
  node_dependencies (dict_set k node nodes) x
  = if decide (k = x) then dependencies node else node_dependencies nodes x.
Proof. unfold node_dependencies. rewrite dict_get_set. by case_decide. Qed.

(** A node added under a new name to a graph whose edges end at its own
    keys closes a cycle only through itself. *)
Lemma acyclic_new_node nodes k node :
  k ∉ nodes.*1 →
  (∀ x y, depends_on nodes x y → y ∈ nodes.*1) →
  acyclic (dict_set k node nodes) ↔ acyclic nodes ∧ k ∉ dependencies node.
Proof.
  intros Hfresh Hclosed.
  assert (Hold : ∀ x y, x ≠ k →
    depends_on (dict_set k node nodes) x y ↔ depends_on nodes x y).
  { intros x y Hx. unfold depends_on. rewrite node_dependencies_set.
    by rewrite decide_False. }
  assert (Hnone : node_dependencies nodes k = []).
  { unfold node_dependencies. apply dict_get_None in Hfresh. by rewrite Hfresh. }
  assert (Hkey : ∀ x y, depends_on nodes x y → x ≠ k).
  { intros x y Hxy ->. unfold depends_on in Hxy. rewrite Hnone in Hxy. inversion Hxy. }
  split.
  - intros Hacyclic. split.
    + intros x Htc. apply (Hacyclic x).
      eapply (tc_congruence (λ u, u)); [|done].
      intros u v Huv. apply Hold; [by eapply Hkey | done].
    + intros Hself. apply (Hacyclic k), tc_once.
      unfold depends_on. rewrite node_dependencies_set. by rewrite decide_True.
  - intros [Hacyclic Hself].
    assert (Hstay : ∀ x y, tc (depends_on (dict_set k node nodes)) x y →
                           x ≠ k → tc (depends_on nodes) x y ∧ y ≠ k).
    { intros x y Htc. induction Htc as [x y Hxy|x y z Hxy _ IH]; intros Hx.
      - apply Hold in Hxy; [|done]. split; [by apply tc_once|].
        intros ->. by apply Hclosed in Hxy.
      - apply Hold in Hxy; [|done].
        assert (Hy : y ≠ k) by (intros ->; by apply Hclosed in Hxy).
        destruct (IH Hy) as [Hyz Hz]. split; [by eapply tc_l | done]. }
    intros x Htc. destruct (decide (x = k)) as [->|Hx].
    + assert (Hfirst : ∀ y, depends_on (dict_set k node nodes) k y → y ≠ k).
      { intros y Hy ->. unfold depends_on in Hy. rewrite node_dependencies_set in Hy.
        by rewrite decide_True in Hy. }
      inversion Htc as [? ? Hkk|? y ? Hky Hyk]; subst.
      * by apply (Hfirst k).
      * destruct (Hstay y k Hyk (Hfirst y Hky)) as [_ Hne]. done.
    + destruct (Hstay x x Htc Hx) as [Hold_tc _]. by apply (Hacyclic x).
Qed.

(** X13.  The cycle check that [create_agent_atomically] runs for an
    agent that is not yet a node returns when the current graph has no
    cycle and the agent does not list itself, and raises with the
    reported cycles in every other case: dependencies that are not
    agents of the graph are accepted. *)
Theorem creation_check_outcome (repr : list (list string) → string) db
    (agent_name : string) (dependencies : list string) :
  agent_name ∉ (get_dependency_graph db).*1 →
  ∃ circular_deps,
    detect_circular_dependencies
      (dict_set agent_name (mkNode agent_name (-1) dependencies [])
         (get_dependency_graph db)) = Some circular_deps
    ∧ (circular_deps = []
       ↔ acyclic (get_dependency_graph db) ∧ agent_name ∉ dependencies)
    ∧ Lifecycle.validate_circular_dependencies repr db agent_name dependencies
      = Some (if decide (circular_deps = [])
              then Lifecycle.Returned [("valid", true)]
              else Lifecycle.Raised
                     ("Circular dependencies detected: " +:+ repr circular_deps)).
Proof.
  intros Hfresh. unfold Lifecycle.validate_circular_dependencies.
  set (nodes := dict_set _ _ _).
  destruct (detect_run nodes) as (final & Hdetect & Hrun). rewrite Hdetect.
  exists (circular_deps final). split; [done|]. split.
  - rewrite <- (acyclic_new_node (get_dependency_graph db) agent_name
                  (mkNode agent_name (-1) dependencies []) Hfresh (graph_closed db)).
    fold nodes. split.
    + intros Hnil. apply detect_empty_acyclic. by rewrite Hdetect, Hnil.
    + intros Hacyclic. destruct (dfs_acyclic_silent nodes Hacyclic) as [_ Hlist].
      rewrite (Hlist _ _ _ Hrun); [done|]. intros x d Hx. inversion Hx.
  - cbn [mbind option_bind]. by destruct (circular_deps final).
Qed.

End CreationCheck.

Lemma creation_check_outcome_witness :
  ∃ circular_deps,
    DependencyManager.detect_circular_dependencies
      (dict_set "thermal" (DependencyManager.mkNode "thermal" (-1) ["thermal"; "radar"] [])
         (DependencyManager.get_dependency_graph uav_db)) = Some circular_deps
    ∧ (circular_deps = []
       ↔ DependencyManager.acyclic (DependencyManager.get_dependency_graph uav_db)
         ∧ "thermal" ∉ ["thermal"; "radar"])
    ∧ Lifecycle.validate_circular_dependencies (λ _, "[...]") uav_db "thermal"
        ["thermal"; "radar"]
      = Some (if decide (circular_deps = [])
              then Lifecycle.Returned [("valid", true)]
              else Lifecycle.Raised ("Circular dependencies detected: " +:+ "[...]")).
Proof.
  apply (creation_check_outcome (λ _, "[...]") uav_db "thermal" ["thermal"; "radar"]).
  apply (bool_decide_unpack _). by vm_compute.
Defined.

(** ** Further properties of the saga engine *)

Section SagaMore.
Import Lifecycle.
Context {Any : Type}.
Implicit Types (w : World Any) (step : OperationStep Any) (op : AtomicOperation Any)
  (history : list (Call Any)).

Lemma execute_from_success w (steps0 : list (OperationStep Any)) history0 :
  (∀ j step, steps0 !! j = Some step →
     ∃ r, _execute_step w (history0 ++ (ExecuteStep <$> take j steps0)) step = Returned r) →
  ∀ n i op,
    length steps0 = i + n →
    length (steps op) = length steps0 →
    completed_steps op = seq 0 i →
    (∀ j step, j < i → steps op !! j = Some step → completed step = true) →
    ∃ op',
      execute_from w i (drop i steps0) op (history0 ++ (ExecuteStep <$> take i steps0))
      = Returned (mkResult true
                    (Some ("Atomic " +:+ operation_type op +:+ " completed successfully"))
                    (Some (length steps0)) None None None (operation_id op),
                  op', history0 ++ (ExecuteStep <$> steps0))
      ∧ success op' = true
      ∧ completed_steps op' = seq 0 (length steps0)
      ∧ failed_step op' = failed_step op
      ∧ rollback_completed op' = rollback_completed op
      ∧ length (steps op') = length steps0
      ∧ ∀ j step, steps op' !! j = Some step → completed step = true.
Proof.
  intros Hall n. induction n as [|n IH]; intros i op Hlen Hsame Hdone Hflags.
  - rewrite Nat.add_0_r in Hlen. subst i.
    rewrite drop_all, firstn_all. simpl. rewrite Hdone, length_seq.
    eexists. split; [reflexivity|]. simpl.
    split; [done|]. split; [done|]. split; [done|]. split; [done|]. split; [done|].
    intros j step Hj. apply (Hflags j step); [|done].
    apply lookup_lt_Some in Hj. lia.
  - destruct (lookup_lt_is_Some_2 steps0 i) as [step Hstep]; [lia|].
    destruct (Hall i step Hstep) as [r Hr].
    rewrite (drop_S _ _ _ Hstep). simpl. rewrite Hr.
    assert (Hhist : (history0 ++ (ExecuteStep <$> take i steps0)) ++ [ExecuteStep step]
                    = history0 ++ (ExecuteStep <$> take (S i) steps0)).
    { by rewrite (take_S_r _ _ _ Hstep), fmap_app, <- app_assoc. }
    rewrite Hhist.
    edestruct (IH (S i)) as (op' & -> & Hrest); [lia| | | |by eexists].
    + cbn [steps]. by rewrite length_alter.
    + cbn [completed_steps]. by rewrite Hdone, seq_S.
    + cbn [steps]. intros j step' Hj Hlookup.
      destruct (decide (j = i)) as [->|Hne].
      * rewrite list_lookup_alter, decide_True in Hlookup by done.
        destruct (steps op !! i); [|done]. by injection Hlookup as <-.
      * rewrite list_lookup_alter_ne in Hlookup by done.
        apply (Hflags j step'); [lia | done].
Qed.

(** X14.  When every step returns, [_execute_atomic_operation] reports
    success with the number of steps: it has called the steps once each
    in their order and nothing else, neither a compensation nor the
    rollback of the database session, and it has marked every step as
    completed. *)
Theorem saga_success_calls_each_step_once w op history :
  completed_steps op = [] →
  (∀ j step, steps op !! j = Some step →
     ∃ r, _execute_step w (history ++ (ExecuteStep <$> take j (steps op))) step
          = Returned r) →
  ∃ op',
    _execute_atomic_operation w op history
    = Returned (mkResult true
                  (Some ("Atomic " +:+ operation_type op +:+ " completed successfully"))
                  (Some (length (steps op))) None None None (operation_id op),
                op', history ++ (ExecuteStep <$> steps op))
    ∧ success op' = true
    ∧ completed_steps op' = seq 0 (length (steps op))
    ∧ failed_step op' = failed_step op
    ∧ rollback_completed op' = rollback_completed op
    ∧ length (steps op') = length (steps op)
    ∧ ∀ j step, steps op' !! j = Some step → completed step = true.
Proof.
  intros Hnone Hall. unfold _execute_atomic_operation.
  pose proof (execute_from_success w (steps op) history Hall (length (steps op)) 0 op
                eq_refl eq_refl Hnone) as H.
  rewrite drop_0, take_0, app_nil_r in H. apply H. intros j step Hj. lia.
Qed.

Lemma execute_from_operation_id w (todo : list (OperationStep Any)) i op history
    res op' history' :
  execute_from w i todo op history = Returned (res, op', history') →
  res_operation_id res = operation_id op.
Proof.
  revert i op history. induction todo as [|step todo IH]; intros i op history; simpl.
  - by intros [= <- _ _].
  - destruct (_execute_step w history step) as [r|e].
    + intros Hrun. by apply IH in Hrun.
    + unfold _rollback_operation. cbn [steps completed_steps].
      destruct (rollback_loop w _ _ _) as [h|msg]; [|done].
      by destruct (db_rollback w h); intros [= <- _ _].
Qed.

(** Either every step returns, or there is a first step that raises. *)
Lemma first_failure w (steps0 : list (OperationStep Any)) history0 :
  (∀ j step, steps0 !! j = Some step →
     ∃ r, _execute_step w (history0 ++ (ExecuteStep <$> take j steps0)) step = Returned r)
  ∨ ∃ k failing e,
      steps0 !! k = Some failing
      ∧ (∀ j step, j < k → steps0 !! j = Some step →
           ∃ r, _execute_step w (history0 ++ (ExecuteStep <$> take j steps0)) step
                = Returned r)
      ∧ _execute_step w (history0 ++ (ExecuteStep <$> take k steps0)) failing = Raised e.
Proof.
  assert (Hprefix : ∀ n,
    (∀ j step, j < n → steps0 !! j = Some step →
       ∃ r, _execute_step w (history0 ++ (ExecuteStep <$> take j steps0)) step = Returned r)
    ∨ ∃ k failing e,
        steps0 !! k = Some failing
        ∧ (∀ j step, j < k → steps0 !! j = Some step →
             ∃ r, _execute_step w (history0 ++ (ExecuteStep <$> take j steps0)) step
                  = Returned r)
        ∧ _execute_step w (history0 ++ (ExecuteStep <$> take k steps0)) failing = Raised e).
  { induction n as [|n [IH|IH]]; [left; intros; lia| |by right].
    destruct (steps0 !! n) as [step|] eqn:Hstep.
    - destruct (_execute_step w (history0 ++ (ExecuteStep <$> take n steps0)) step)
        as [r|e] eqn:Hrun.
      + left. intros j step' Hj Hlookup. destruct (decide (j = n)) as [->|Hne].
        * rewrite Hstep in Hlookup. injection Hlookup as <-. eauto.
        * apply IH; [lia | done].
      + right. by exists n, step, e.
    - left. intros j step' Hj Hlookup. destruct (decide (j = n)) as [->|Hne].
      + by rewrite Hstep in Hlookup.
      + apply IH; [lia | done]. }
  destruct (Hprefix (length steps0)) as [Hall|Hfail]; [left | by right].
  intros j step Hlookup. apply Hall; [|done]. by eapply lookup_lt_Some.
Qed.

(** X15.  Started on an operation without completed steps,
    [_execute_atomic_operation] returns a result whatever the
    collaborators do: no exception leaves it.  Either it reports success
    and has called exactly the steps, in order; or it reports a failure
    at some step [k], and has called the steps up to [k], the
    compensations of the completed steps in reverse, and last the
    rollback of the database session. *)
Theorem saga_returns_a_result w op history :
  completed_steps op = [] →
  ∃ res op' more,
    _execute_atomic_operation w op history = Returned (res, op', history ++ more)
    ∧ res_operation_id res = operation_id op
    ∧ if res_success res
      then more = ExecuteStep <$> steps op
           ∧ res_steps_completed res = Some (length (steps op))
      else ∃ k failing,
             steps op !! k = Some failing
             ∧ failed_step op' = Some k
             ∧ res_failed_step res = Some (name failing)
             ∧ rollback_completed op' = true
             ∧ more = (ExecuteStep <$> take (S k) (steps op))
                        ++ omap compensation (reverse (take k (steps op)))
                        ++ [DbRollback].
Proof.
  intros Hnone. unfold _execute_atomic_operation.
  destruct (first_failure w (steps op) history) as [Hall|(k & failing & e & Hk & Hbefore & Hfail)].
  - pose proof (execute_from_success w (steps op) history Hall (length (steps op)) 0 op
                  eq_refl eq_refl Hnone) as H.
    rewrite drop_0, take_0, app_nil_r in H.
    destruct H as (op' & -> & _); [intros; lia|].
    eexists _, _, _. split; [done|]. by simpl.
  - pose proof (execute_from_failure w (steps op) history k failing e Hk Hbefore Hfail
                  k 0 op eq_refl eq_refl Hnone) as H.
    rewrite drop_0, take_0, app_nil_r in H.
    destruct H as (res & op' & Hrun & Hfailed & _ & Hres & Hname & Hrolled).
    rewrite Hrun.
    eexists _, _, _. split; [done|]. rewrite Hres. split; [|by exists k, failing].
    eapply (execute_from_operation_id w (steps op) 0 op). by rewrite Hrun.
Qed.

End SagaMore.

Lemma saga_success_calls_each_step_once_witness :
  ∃ op',
    Lifecycle._execute_atomic_operation collaborators_work create_operation []
    = Lifecycle.Returned
        (Lifecycle.mkResult true
           (Some ("Atomic " +:+ Lifecycle.operation_type create_operation
                    +:+ " completed successfully"))
           (Some (length (Lifecycle.steps create_operation))) None None None
           (Lifecycle.operation_id create_operation),
         op', [] ++ (Lifecycle.ExecuteStep <$> Lifecycle.steps create_operation))
    ∧ Lifecycle.success op' = true
    ∧ Lifecycle.completed_steps op' = seq 0 (length (Lifecycle.steps create_operation))
    ∧ Lifecycle.failed_step op' = Lifecycle.failed_step create_operation
    ∧ Lifecycle.rollback_completed op' = Lifecycle.rollback_completed create_operation
    ∧ length (Lifecycle.steps op') = length (Lifecycle.steps create_operation)
    ∧ ∀ j step, Lifecycle.steps op' !! j = Some step → Lifecycle.completed step = true.
Proof.
  apply (saga_success_calls_each_step_once collaborators_work create_operation []).
  - reflexivity.
  - intros j step Hstep.
    destruct j as [|[|[|[|[|[|j]]]]]]; [| | | | | |done];
      injection Hstep as <-; eexists; vm_compute; reflexivity.
Defined.

Lemma saga_returns_a_result_witness :
  ∃ res op' more,
    Lifecycle._execute_atomic_operation record_creation_fails create_operation []
    = Lifecycle.Returned (res, op', [] ++ more)
    ∧ Lifecycle.res_operation_id res = Lifecycle.operation_id create_operation
    ∧ if Lifecycle.res_success res
      then more = Lifecycle.ExecuteStep <$> Lifecycle.steps create_operation
           ∧ Lifecycle.res_steps_completed res
             = Some (length (Lifecycle.steps create_operation))
      else ∃ k failing,
             Lifecycle.steps create_operation !! k = Some failing
             ∧ Lifecycle.failed_step op' = Some k
             ∧ Lifecycle.res_failed_step res = Some (Lifecycle.name failing)
             ∧ Lifecycle.rollback_completed op' = true
             ∧ more = (Lifecycle.ExecuteStep <$> take (S k) (Lifecycle.steps create_operation))
                        ++ omap Lifecycle.compensation
                             (reverse (take k (Lifecycle.steps create_operation)))
                        ++ [Lifecycle.DbRollback].
Proof.
  apply (saga_returns_a_result record_creation_fails create_operation []).
  reflexivity.
Defined.

(** ** The outputs an agent reads *)

Section OutputFacts.
Import Scheduler.
Context {Output : Type}.
Implicit Types (state : DynamicGlobalState Output) (outputs : gmap Z Output).

Lemma foldr_max_spec (k : Z) (ks : list Z) :
  foldr Z.max k ks ∈ k :: ks ∧ ∀ j, j ∈ k :: ks → (j ≤ foldr Z.max k ks)%Z.
Proof.
  induction ks as [|k' ks [IHin IHle]]; simpl.
  - split; [left|]. by intros j ->%list_elem_of_singleton.
  - split.
    + destruct (Z.max_spec k' (foldr Z.max k ks)) as [[_ ->]|[_ ->]].
      * apply elem_of_cons in IHin as [->|?]; [left | by do 2 right].
      * right; left.
    + intros j Hj. apply elem_of_cons in Hj as [->|Hj].
      * specialize (IHle k ltac:(left)). lia.
      * apply elem_of_cons in Hj as [->|Hj]; [lia|].
        specialize (IHle j ltac:(by right)). lia.
Qed.

Lemma max_key_spec outputs :
  outputs ≠ ∅ →
  ∃ latest output,
    max_key outputs = Some latest ∧ outputs !! latest = Some output
    ∧ ∀ iteration, is_Some (outputs !! iteration) → (iteration ≤ latest)%Z.
Proof.
  intros Hne. unfold max_key.
  assert (Hkeys : ∀ j, j ∈ (map_to_list outputs).*1 ↔ is_Some (outputs !! j)).
  { intros j. rewrite list_elem_of_fmap. split.
    - intros ([j' out] & -> & Hin). apply elem_of_map_to_list in Hin. by exists out.
    - intros [out Hout]. exists (j, out). split; [done|]. by apply elem_of_map_to_list. }
  destruct ((map_to_list outputs).*1) as [|k ks] eqn:Hlist.
  - destruct Hne. apply map_empty. intros j. apply eq_None_not_Some.
    rewrite <- Hkeys. intros Hj. inversion Hj.
  - destruct (foldr_max_spec k ks) as [Hin Hle].
    apply Hkeys in Hin as [output Hout]. exists (foldr Z.max k ks), output.
    split; [done|]. split; [done|]. intros j Hj. apply Hle. by apply Hkeys.
Qed.

Lemma latest_output_unique outputs (o1 o2 : Output) :
  latest_output outputs o1 → latest_output outputs o2 → o1 = o2.
Proof.
  intros (l1 & H1 & Hmax1) (l2 & H2 & Hmax2).
  assert (l1 = l2) as ->.
  { specialize (Hmax1 l2 ltac:(eauto)). specialize (Hmax2 l1 ltac:(eauto)). lia. }
  congruence.
Qed.

Lemma dependency_outputs_loop_spec state (deps : list string)
    (acc : list (string * Output)) :
  ∃ result,
    dependency_outputs_loop state deps acc = Some result
    ∧ ∀ d output,
        dict_get d result = Some output
        ↔ (d ∈ deps ∧ ∃ dep_outputs, agent_outputs state !! d = Some dep_outputs
                                      ∧ latest_output dep_outputs output)
          ∨ ((¬ ∃ dep_outputs, d ∈ deps ∧ agent_outputs state !! d = Some dep_outputs
                               ∧ dep_outputs ≠ ∅)
             ∧ dict_get d acc = Some output).
Proof.
  revert acc. induction deps as [|dep deps IH]; intros acc.
  - exists acc. split; [done|]. intros d output. split.
    + intros Hget. right. split; [|done]. intros (? & Hin & _). inversion Hin.
    + intros [[Hin _]|[_ Hget]]; [inversion Hin | done].
  - simpl. destruct (agent_outputs state !! dep) as [dep_outputs|] eqn:Hdep.
    + case_bool_decide as Hempty.
      * destruct (IH acc) as (result & -> & Hspec). exists result. split; [done|].
        intros d output. rewrite Hspec. split.
        -- intros [[Hin Hlatest]|[Hnone Hget]]; [left; split; [by right | done]|].
           right. split; [|done]. intros (outs & [->|Hin]%elem_of_cons & Houts & Hne).
           ++ congruence.
           ++ apply Hnone. by exists outs.
        -- intros [[[->|Hin]%elem_of_cons (outs & Houts & Hlatest)]|[Hnone Hget]].
           ++ rewrite Hdep in Houts. injection Houts as <-. subst dep_outputs.
              destruct Hlatest as (l & Hl & _). by rewrite lookup_empty in Hl.
           ++ left. split; [done | by exists outs].
           ++ right. split; [|done]. intros (outs & Hin & Houts & Hne).
              apply Hnone. exists outs. split; [by right | done].
      * destruct (max_key_spec dep_outputs Hempty) as (latest & out & -> & Hout & Hmax).
        cbn [mbind option_bind]. rewrite Hout. cbn [mbind option_bind].
        destruct (IH (dict_set dep out acc)) as (result & -> & Hspec).
        exists result. split; [done|].
        assert (Hlatest : latest_output dep_outputs out) by (by exists latest).
        intros d output. rewrite Hspec, dict_get_set. split.
        -- intros [[Hin Hl]|[Hnone Hget]]; [left; split; [by right | done]|].
           case_decide as Hd.
           ++ subst d. injection Hget as <-. left. split; [left | by exists dep_outputs].
           ++ right. split; [|done].
              intros (outs & [->|Hin]%elem_of_cons & Houts & Hne); [done|].
              apply Hnone. by exists outs.
        -- intros [[Hin (outs & Houts & Hl)]|[Hnone Hget]].
           ++ destruct (decide (d ∈ deps)) as [Hd|Hd]; [left; split; [done | by exists outs]|].
              apply elem_of_cons in Hin as [->|Hin]; [|done].
              right. split; [intros (? & ? & _); done|].
              rewrite decide_True by done. rewrite Hdep in Houts. injection Houts as <-.
              f_equal. by eapply latest_output_unique.
           ++ right. split.
              ** intros (outs & Hin & Houts & Hne). apply Hnone.
                 exists outs. split; [by right | done].
              ** case_decide as Hd; [|done]. subst d. destruct Hnone.
                 exists dep_outputs. split; [left | done].
    + destruct (IH acc) as (result & -> & Hspec). exists result. split; [done|].
      intros d output. rewrite Hspec. split.
      * intros [[Hin Hlatest]|[Hnone Hget]]; [left; split; [by right | done]|].
        right. split; [|done]. intros (outs & [->|Hin]%elem_of_cons & Houts & Hne).
        -- congruence.
        -- apply Hnone. by exists outs.
      * intros [[[->|Hin]%elem_of_cons (outs & Houts & Hlatest)]|[Hnone Hget]].
        -- congruence.
        -- left. split; [done | by exists outs].
        -- right. split; [|done]. intros (outs & Hin & Houts & Hne).
           apply Hnone. exists outs. split; [by right | done].
Qed.

(** X16.  [get_dependency_outputs] returns for every agent and state.
    It has an entry exactly for the dependencies of the agent that have
    produced an output, and the entry is the output of the highest
    iteration of that dependency; an agent whose dependencies are ready
    finds an entry for each of them. *)
Theorem get_dependency_outputs_latest (self : BaseAgent) state :
  ∃ dependency_outputs,
    get_dependency_outputs self state = Some dependency_outputs
    ∧ (∀ d output,
         dict_get d dependency_outputs = Some output
         ↔ d ∈ dependencies self
           ∧ ∃ dep_outputs, agent_outputs state !! d = Some dep_outputs
                            ∧ latest_output dep_outputs output)
    ∧ (check_dependencies_ready self state = true →
       ∀ d, d ∈ dependencies self → is_Some (dict_get d dependency_outputs)).
Proof.
  unfold get_dependency_outputs.
  destruct (dependency_outputs_loop_spec state (dependencies self) [])
    as (result & -> & Hspec).
  exists result. split; [done|].
  assert (Hchar : ∀ d output,
    dict_get d result = Some output
    ↔ d ∈ dependencies self
      ∧ ∃ dep_outputs, agent_outputs state !! d = Some dep_outputs
                       ∧ latest_output dep_outputs output).
  { intros d output. rewrite Hspec. split; [|by left].
    intros [?|[_ ?]]; done. }
  split; [done|]. intros Hready d Hd.
  destruct (check_dependencies_ready_true self state d Hready Hd)
    as (dep_outputs & iteration & Hdep & [o Ho] & _).
  destruct (max_key_spec dep_outputs) as (latest & output & _ & Hout & Hmax).
  { intros ->. by rewrite lookup_empty in Ho. }
  exists output. apply Hchar. split; [done|].
  exists dep_outputs. split; [done | by exists latest].
Qed.

(** X17.  [get_own_previous_output] gives the output of the highest
    iteration the agent has produced, and [None] exactly when the agent
    has produced none. *)
Theorem get_own_previous_output_latest (self : BaseAgent) state :
  (∀ output,
     get_own_previous_output self state = Some output
     ↔ ∃ outputs, agent_outputs state !! name self = Some outputs
                  ∧ latest_output outputs output)
  ∧ (get_own_previous_output self state = None
     ↔ ∀ outputs, agent_outputs state !! name self = Some outputs → outputs = ∅).
Proof.
  unfold get_own_previous_output.
  destruct (agent_outputs state !! name self) as [outputs|].
  - case_bool_decide as Hempty.
    + subst outputs. split.
      * intros output. split; [done|].
        intros (outputs & [= <-] & (l & Hl & _)). by rewrite lookup_empty in Hl.
      * split; [by intros _ ? [= <-] | done].
    + destruct (max_key_spec outputs Hempty) as (latest & out & -> & Hout & Hmax).
      cbn [mbind option_bind]. rewrite Hout. split.
      * intros output. split.
        -- intros [= <-]. exists outputs. split; [done | by exists latest].
        -- intros (outputs' & [= <-] & Hlatest). f_equal.
           eapply latest_output_unique; [|done]. by exists latest.
      * split; [done|]. intros Hall. by destruct Hempty; apply Hall.
  - split.
    + intros output. split; [done | intros (? & ? & _); done].
    + split; [by intros _ ? ? | done].
Qed.

End OutputFacts.

(** ** Agents and conversations of the global state *)

Section StateFacts.
Import Scheduler GlobalState.
Context {Output Config Meta Time : Type}.
Implicit Types (self : GlobalState Output Config Meta Time)
  (conversation : AgentConversation Meta Time).

(** X18.  [add_agent] stores the configuration under the name of the
    agent and starts its tracking where there is none: the empty
    dictionary of outputs, last update [-1] and status ["ready"].  What
    is already recorded under that name, everything recorded for the
    other agents, the conversations and the counters are kept, and the
    answer of [check_stability] never changes. *)
Theorem add_agent_keeps_records_and_stability (agent_name : string)
    (agent_config : Config) self :
  check_stability (scheduling (add_agent agent_name agent_config self))
  = check_stability (scheduling self)
  ∧ dict_get agent_name (active_agents (add_agent agent_name agent_config self))
    = Some agent_config
  ∧ agent_outputs (scheduling (add_agent agent_name agent_config self)) !! agent_name
    = Some (default ∅ (agent_outputs (scheduling self) !! agent_name))
  ∧ last_update_iteration (scheduling (add_agent agent_name agent_config self)) !! agent_name
    = Some (default (-1)%Z (last_update_iteration (scheduling self) !! agent_name))
  ∧ agent_execution_status (scheduling (add_agent agent_name agent_config self)) !! agent_name
    = Some (default "ready" (agent_execution_status (scheduling self) !! agent_name))
  ∧ (∀ a, a ≠ agent_name →
       dict_get a (active_agents (add_agent agent_name agent_config self))
       = dict_get a (active_agents self)
       ∧ agent_outputs (scheduling (add_agent agent_name agent_config self)) !! a
         = agent_outputs (scheduling self) !! a
       ∧ last_update_iteration (scheduling (add_agent agent_name agent_config self)) !! a
         = last_update_iteration (scheduling self) !! a
       ∧ agent_execution_status (scheduling (add_agent agent_name agent_config self)) !! a
         = agent_execution_status (scheduling self) !! a)
  ∧ conversations (add_agent agent_name agent_config self) = conversations self
  ∧ current_iteration (scheduling (add_agent agent_name agent_config self))
    = current_iteration (scheduling self)
  ∧ max_iterations (scheduling (add_agent agent_name agent_config self))
    = max_iterations (scheduling self)
  ∧ stability_threshold (scheduling (add_agent agent_name agent_config self))
    = stability_threshold (scheduling self)
  ∧ project_complete (scheduling (add_agent agent_name agent_config self))
    = project_complete (scheduling self).
Proof.
  assert (Hnew : ∀ {A} (m : gmap string A) (x : A),
    (if bool_decide (is_Some (m !! agent_name)) then m else <[agent_name := x]> m)
      !! agent_name
    = Some (default x (m !! agent_name))).
  { intros A m x. case_bool_decide as Hin.
    - destruct Hin as [v Hv]. by rewrite Hv.
    - rewrite lookup_insert_eq. apply eq_None_not_Some in Hin. by rewrite Hin. }
  assert (Hother : ∀ {A} (m : gmap string A) (x : A) a,
    a ≠ agent_name →
    (if bool_decide (is_Some (m !! agent_name)) then m else <[agent_name := x]> m) !! a
    = m !! a).
  { intros A m x a Hne. case_bool_decide; [done|]. by rewrite lookup_insert_ne. }
  split; [|split; [|split; [|split; [|split; [|split]]]]].
  - unfold check_stability. simpl.
    destruct (Z.ltb_spec (current_iteration (scheduling self))
                (stability_threshold (scheduling self))) as [Hlt|Hge]; [done|].
    case_bool_decide as Hin; [done|].
    apply Bool.eq_iff_eq_true. rewrite !stability_loop_true. split.
    + intros Hall a lu Ha. apply (Hall a lu).
      apply elem_of_map_to_list. apply elem_of_map_to_list in Ha.
      rewrite lookup_insert_ne; [done|]. intros ->. apply Hin. eauto.
    + intros Hall a lu Ha. apply elem_of_map_to_list in Ha.
      apply lookup_insert_Some in Ha as [[_ <-]|[_ Ha]]; [lia|].
      apply (Hall a lu). by apply elem_of_map_to_list.
  - simpl. rewrite dict_get_set. by rewrite decide_True.
  - simpl. apply Hnew.
  - simpl. apply Hnew.
  - simpl. apply Hnew.
  - intros a Hne. simpl. rewrite dict_get_set, decide_False by done.
    by rewrite !Hother.
  - done.
Qed.

Lemma lookup_foldl_delete {A} (m : gmap string A) (keys : list string) (k : string) :
  foldl (λ m key, delete key m) m keys !! k = if decide (k ∈ keys) then None else m !! k.
Proof.
  revert m. induction keys as [|key keys IH]; intros m; cbn [foldl].
  - case_decide as Hin; [inversion Hin | done].
  - rewrite IH. destruct (decide (k ∈ keys)) as [Hin|Hin].
    + rewrite decide_True by (by right). done.
    + destruct (decide (k = key)) as [->|Hne].
      * rewrite lookup_delete_eq. rewrite decide_True by left. done.
      * rewrite lookup_delete_ne by done.
        rewrite decide_False; [done|]. by intros [?|?]%elem_of_cons.
Qed.

Lemma dict_get_pop {V} (k a : string) (d : list (string * V)) :
  dict_get a (dict_pop k d) = if decide (a = k) then None else dict_get a d.
Proof.
  unfold dict_pop. induction d as [|[k' v] d IH]; [by case_decide|].
  destruct (decide (k' = k)) as [->|Hne].
  - rewrite filter_cons_False by (simpl; intros H; by apply H).
    rewrite IH. cbn [dict_get]. by repeat case_decide; simplify_eq.
  - rewrite filter_cons_True by done. cbn [dict_get]. rewrite IH.
    by repeat case_decide; simplify_eq.
Qed.

(** X19.  [remove_agent] leaves no trace of the agent: no
    configuration, outputs, last update or status under its name, and no
    conversation it takes part in.  The configuration, the outputs, the
    last update and the status of every other agent, the conversations
    the agent takes no part in and the counters are kept. *)
Theorem remove_agent_leaves_no_trace (agent_name : string) self :
  dict_get agent_name (active_agents (remove_agent agent_name self)) = None
  ∧ agent_outputs (scheduling (remove_agent agent_name self)) !! agent_name = None
  ∧ last_update_iteration (scheduling (remove_agent agent_name self)) !! agent_name = None
  ∧ agent_execution_status (scheduling (remove_agent agent_name self)) !! agent_name = None
  ∧ (∀ key conversation,
       conversations (remove_agent agent_name self) !! key = Some conversation
       ↔ conversations self !! key = Some conversation
         ∧ agent_name ∉ participants conversation)
  ∧ (∀ a, a ≠ agent_name →
       dict_get a (active_agents (remove_agent agent_name self))
       = dict_get a (active_agents self)
       ∧ agent_outputs (scheduling (remove_agent agent_name self)) !! a
         = agent_outputs (scheduling self) !! a
       ∧ last_update_iteration (scheduling (remove_agent agent_name self)) !! a
         = last_update_iteration (scheduling self) !! a
       ∧ agent_execution_status (scheduling (remove_agent agent_name self)) !! a
         = agent_execution_status (scheduling self) !! a)
  ∧ (active_agents (remove_agent agent_name self)).*1
    = filter (λ a, a ≠ agent_name) (active_agents self).*1
  ∧ current_iteration (scheduling (remove_agent agent_name self))
    = current_iteration (scheduling self)
  ∧ max_iterations (scheduling (remove_agent agent_name self))
    = max_iterations (scheduling self)
  ∧ stability_threshold (scheduling (remove_agent agent_name self))
    = stability_threshold (scheduling self)
  ∧ project_complete (scheduling (remove_agent agent_name self))
    = project_complete (scheduling self).
Proof.
  split; [|split; [|split; [|split; [|split; [|split]]]]]; simpl.
  - rewrite dict_get_pop. by rewrite decide_True.
  - apply lookup_delete_eq.
  - apply lookup_delete_eq.
  - apply lookup_delete_eq.
  - intros key conversation. rewrite lookup_foldl_delete. case_decide as Hin.
    + split; [done|]. intros [Hkey Hnot].
      apply list_elem_of_fmap in Hin as ([k c] & -> & [Hpart Hc]%list_elem_of_filter).
      apply elem_of_map_to_list in Hc. simpl in *. congruence.
    + split; [|by intros [? _]]. intros Hkey. split; [done|]. intros Hpart.
      apply Hin. apply list_elem_of_fmap. exists (key, conversation). split; [done|].
      apply list_elem_of_filter. split; [done | by apply elem_of_map_to_list].
  - intros a Hne. rewrite dict_get_pop, decide_False by done.
    by rewrite !lookup_delete_ne.
  - split; [|done]. unfold dict_pop.
    induction (active_agents self) as [|[k v] d IH]; csimpl; [done|].
    destruct (decide (k = agent_name)) as [->|Hne].
    + rewrite !filter_cons_False by (simpl; intros H; by apply H). apply IH.
    + rewrite !filter_cons_True by done. csimpl. by rewrite IH.
Qed.

Lemma sorted_pair_comm (agent1 agent2 : string) :
  sorted_pair agent1 agent2 = sorted_pair agent2 agent1.
Proof.
  unfold sorted_pair, String.ltb.
  rewrite (String.compare_antisym agent1 agent2).
  destruct (String.compare agent2 agent1) eqn:Hcmp; simpl; [|done..].
  apply String.compare_eq_iff in Hcmp. by subst.
Qed.

(** X20.  A message sent through the state reaches the conversation of
    the two agents, which [get_conversation] finds under either order of
    their names: the conversation is created when there is none, its
    participants are the two names in order, the message is appended
    after the messages it held, and every other conversation and the
    rest of the state are as before. *)
Theorem send_message_reaches_conversation (fmt : Time → string) (now_id now : Time)
    (from_agent to_agent content : string) (metadata : option (list (string * Meta))) self :
  ∃ conversation,
    get_conversation from_agent to_agent
      (send_message fmt now_id now from_agent to_agent content metadata self)
    = Some conversation
    ∧ get_conversation to_agent from_agent
        (send_message fmt now_id now from_agent to_agent content metadata self)
      = Some conversation
    ∧ messages conversation
      = default [] (messages <$> get_conversation from_agent to_agent self)
        ++ [mkMessage (from_agent +:+ "_" +:+ to_agent +:+ "_" +:+ fmt now_id)
              from_agent to_agent content now
              (current_iteration (scheduling self)) (default [] metadata)]
    ∧ participants conversation
      = default (sorted_pair from_agent to_agent)
                (participants <$> get_conversation from_agent to_agent self)
    ∧ last_activity conversation = Some now
    ∧ scheduling (send_message fmt now_id now from_agent to_agent content metadata self)
      = scheduling self
    ∧ active_agents (send_message fmt now_id now from_agent to_agent content metadata self)
      = active_agents self
    ∧ ∀ key, key ≠ conversation_key from_agent to_agent →
        conversations (send_message fmt now_id now from_agent to_agent content metadata self)
          !! key
        = conversations self !! key.
Proof.
  unfold get_conversation, conversation_key.
  rewrite (sorted_pair_comm to_agent from_agent).
  unfold send_message, conversation_key.
  set (key := String.concat "_" (sorted_pair from_agent to_agent)).
  case_bool_decide as Hin.
  - destruct Hin as [conversation Hc]. simpl. rewrite lookup_alter_eq, Hc. simpl.
    eexists. split; [done|]. split; [done|]. simpl.
    split; [done|]. split; [done|]. split; [done|]. split; [done|]. split; [done|].
    intros k Hk. by rewrite lookup_alter_ne.
  - simpl. rewrite lookup_alter_eq, lookup_insert_eq. simpl.
    assert (Hnone : conversations self !! key = None).
    { by apply eq_None_not_Some. }
    rewrite Hnone. simpl.
    eexists. split; [done|]. split; [done|]. simpl.
    split; [done|]. split; [done|]. split; [done|]. split; [done|]. split; [done|].
    intros k Hk. by rewrite lookup_alter_ne, lookup_insert_ne.
Qed.

(** X21.  An agent may send messages exactly to its dependencies and to
    the agents of its configured communication rules.  A message to any
    other agent leaves the state as it was; a
    message that is allowed leaves the state that [send_message] of the
    state leaves for the same sender, receiver and clock readings. *)
Theorem agent_send_message_spec (agent : BaseAgent)
    (communication_rules : option (list string))
    (fmt : Time → string) (now_id now : Time) self (to_agent content : string)
    (metadata : option (list (string * Meta))) :
  (can_communicate_with agent communication_rules to_agent = true
   ↔ to_agent ∈ dependencies agent ∨ to_agent ∈ default [] communication_rules)
  ∧ agent_send_message agent communication_rules fmt now_id now self to_agent content metadata
    = if can_communicate_with agent communication_rules to_agent
      then send_message fmt now_id now (name agent) to_agent content metadata self
      else self.
Proof.
  split.
  - unfold can_communicate_with, _get_communication_rules.
    by rewrite bool_decide_eq_true, elem_of_list_to_set, elem_of_app.
  - unfold agent_send_message.
    destruct (can_communicate_with agent communication_rules to_agent); simpl; [|done].
    unfold send_message. by case_bool_decide.
Qed.

End StateFacts.

(** ** Cascade deletion on a graph with a cycle *)

Section CycleDeletion.
Import DependencyManager.
Implicit Types (nodes : list (string * DependencyNode)) (db : list Models.Agent)
  (affected : gset string) (st : list string * gset string).

Lemma add_to_order_S fuel nodes affected agent st :
  add_to_order (S fuel) nodes affected agent st
  = if bool_decide (agent ∈ st.2) || bool_decide (agent ∉ affected) then Some st
    else
      st1 ← (if dict_mem agent nodes
             then foldl (λ acc dependent,
                           s ← acc;
                           if bool_decide (dependent ∈ affected)
                           then add_to_order fuel nodes affected dependent s
                           else Some s)
                        (Some st) (node_dependents nodes agent)
             else Some st);
      if bool_decide (agent ∉ st1.2)
      then Some (st1.1 ++ [agent], {[agent]} ∪ st1.2)
      else Some st1.
Proof. done. Qed.

(** Let every agent of [B] be affected and have a dependent in [B], and
    let no agent of [B] be processed.  Then a call on an agent of [B]
    reaches every depth, and a call that returns has processed no agent
    of [B]. *)
Lemma add_to_order_closed_set nodes affected (B : string → Prop) :
  (∀ x, B x → x ∈ affected ∧ ∃ y, dependent_of nodes x y ∧ B y) →
  ∀ fuel,
    (∀ agent st, B agent → (∀ x, B x → x ∉ st.2) →
       add_to_order fuel nodes affected agent st = None)
    ∧ (∀ agent st st', add_to_order fuel nodes affected agent st = Some st' →
         (∀ x, B x → x ∉ st.2) → ∀ x, B x → x ∉ st'.2).
Proof.
  intros Hclosed fuel. induction fuel as [|fuel [IH1 IH2]]; [done|].
  assert (Hloop : ∀ deps st,
    (∀ x, B x → x ∉ st.2) →
    match foldl (λ acc dependent,
                   s ← acc;
                   if bool_decide (dependent ∈ affected)
                   then add_to_order fuel nodes affected dependent s
                   else Some s)
                (Some st) deps with
    | None => True
    | Some st' => (∀ x, B x → x ∉ st'.2) ∧ ∀ y, y ∈ deps → ¬ B y
    end).
  { assert (Hnone : ∀ deps,
      foldl (λ acc dependent,
               s ← acc;
               if bool_decide (dependent ∈ affected)
               then add_to_order fuel nodes affected dependent s
               else Some s)
            None deps = None).
    { intros deps. induction deps as [|d deps IHd]; [done|]. by cbn [foldl mbind option_bind]. }
    intros deps. induction deps as [|d deps IHd]; intros st Hinv.
    - simpl. split; [done|]. intros y Hy. inversion Hy.
    - cbn [foldl mbind option_bind]. case_bool_decide as Hd.
      + destruct (add_to_order fuel nodes affected d st) as [s1|] eqn:Hrun.
        * assert (Hnot : ¬ B d).
          { intros HB. by rewrite (IH1 d st HB Hinv) in Hrun. }
          specialize (IHd s1 (IH2 d st s1 Hrun Hinv)).
          destruct (foldl _ (Some s1) deps) as [st'|]; [|done].
          destruct IHd as [Hinv' Hdeps]. split; [done|].
          intros y [->|Hy]%elem_of_cons; [done | by apply Hdeps].
        * by rewrite Hnone.
      + specialize (IHd st Hinv).
        destruct (foldl _ (Some st) deps) as [st'|]; [|done].
        destruct IHd as [Hinv' Hdeps]. split; [done|].
        intros y [->|Hy]%elem_of_cons; [|by apply Hdeps].
        intros HB. by apply Hclosed in HB as [? _]. }
  assert (H1 : ∀ agent st, B agent → (∀ x, B x → x ∉ st.2) →
                add_to_order (S fuel) nodes affected agent st = None).
  { intros agent st HB Hinv. rewrite add_to_order_S.
    destruct (Hclosed agent HB) as [Haff (y & Hy & HBy)].
    rewrite bool_decide_eq_false_2 by (by apply Hinv).
    rewrite bool_decide_eq_false_2 by (by intros ?). simpl.
    assert (Hmem : dict_mem agent nodes = true).
    { apply dict_mem_true, dict_get_is_Some.
      unfold dependent_of, node_dependents in Hy.
      destruct (dict_get agent nodes); [eauto | inversion Hy]. }
    rewrite Hmem. specialize (Hloop (node_dependents nodes agent) st Hinv).
    destruct (foldl _ (Some st) (node_dependents nodes agent)) as [st'|]; [|done].
    destruct Hloop as [_ Hdeps]. by destruct (Hdeps y Hy). }
  split; [done|].
  intros agent st st' Hrun Hinv.
  assert (Hnot : ¬ B agent).
  { intros HB. by rewrite (H1 agent st HB Hinv) in Hrun. }
  rewrite add_to_order_S in Hrun.
  destruct (bool_decide (agent ∈ st.2) || bool_decide (agent ∉ affected)).
  { by injection Hrun as <-. }
  assert (Hst1 : ∀ st1,
    (if bool_decide (agent ∉ st1.2)
     then Some (st1.1 ++ [agent], {[agent]} ∪ st1.2) else Some st1) = Some st' →
    (∀ x, B x → x ∉ st1.2) → ∀ x, B x → x ∉ st'.2).
  { intros st1 Hlast Hinv1 x HB. case_bool_decide; injection Hlast as <-; [|by apply Hinv1].
    simpl. apply not_elem_of_union. split; [|by apply Hinv1].
    intros ->%elem_of_singleton. done. }
  destruct (dict_mem agent nodes).
  - specialize (Hloop (node_dependents nodes agent) st Hinv).
    destruct (foldl _ (Some st) (node_dependents nodes agent)) as [st1|]; [|done].
    cbn [mbind option_bind] in Hrun. destruct Hloop as [Hinv1 _]. by eapply Hst1.
  - cbn [mbind option_bind] in Hrun. by eapply Hst1.
Qed.

(** X22.  [add_to_order] does not return on a cycle.  When [B] is a set
    of affected agents none of which is processed, and each of them has a
    dependent in [B] (the agents of a dependency cycle are such a set),
    the recursion started on an agent of [B] reaches every depth: no
    bound lets it return. *)
Theorem add_to_order_unbounded_on_cycle nodes affected (B : string → Prop)
    (fuel : nat) (agent : string) st :
  (∀ x, B x → x ∈ affected ∧ ∃ y, dependent_of nodes x y ∧ B y) →
  (∀ x, B x → x ∉ st.2) →
  B agent →
  add_to_order fuel nodes affected agent st = None.
Proof.
  intros Hclosed Hinv HB.
  destruct (add_to_order_closed_set nodes affected B Hclosed fuel) as [H1 _].
  by apply H1.
Qed.

Lemma depends_on_converse db x y :
  tc (depends_on (get_dependency_graph db)) x y →
  tc (dependent_of (get_dependency_graph db)) y x.
Proof.
  intros H. induction H as [x y H|x w y H _ IH].
  - apply tc_once. by apply graph_dependents.
  - eapply tc_r; [done|]. by apply graph_dependents.
Qed.

(** X23.  For an agent that lies on a dependency cycle,
    [analyze_deletion_impact] returns no plan, in whatever order Python
    iterates over the set of affected agents: the recursion of
    [add_to_order] does not end. *)
Theorem analyze_deletion_impact_on_cycle (set_iter : gset string → list string) db
    (target : string) :
  (∀ (s : gset string) x, x ∈ s → x ∈ set_iter s) →
  tc (depends_on (get_dependency_graph db)) target target →
  analyze_deletion_impact set_iter db target = None.
Proof.
  intros Hiter Hcycle. apply depends_on_converse in Hcycle.
  set (nodes := get_dependency_graph db) in *.
  assert (Hdep : node_dependents nodes target ≠ []).
  { assert (∃ y, dependent_of nodes target y) as (y & Hy).
    { inversion Hcycle; subst; eauto. }
    intros Hnil. unfold dependent_of in Hy. rewrite Hnil in Hy. inversion Hy. }
  unfold analyze_deletion_impact. fold nodes. unfold node_dependents in Hdep.
  destruct (dict_get target nodes) as [node|]; [|done].
  rewrite bool_decide_eq_false_2
    by (intros Hlen; by apply length_zero_iff_nil in Hlen).
  unfold _calculate_cascade_deletion_order.
  destruct (collect_affected_total nodes target) as [affected Haffected].
  rewrite Haffected. cbn [mbind option_bind].
  destruct (collect_affected_spec _ _ _ _ _ Haffected) as ((_ & Hstart) & Hcl & _).
  assert (Hreach : ∀ x, rtc (dependent_of nodes) target x → x ∈ affected).
  { apply (rtc_ind_r (λ x, x ∈ affected)).
    - apply Hstart. left.
    - intros y z _ Hyz Hy. eapply Hcl; [|done..]. intros ? ? Hempty. set_solver. }
  set (B := λ x, rtc (dependent_of nodes) target x ∧ tc (dependent_of nodes) x target).
  assert (Hclosed : ∀ x, B x → x ∈ affected ∧ ∃ y, dependent_of nodes x y ∧ B y).
  { intros x [Hto Hback]. split; [by apply Hreach|].
    inversion Hback as [? ? Hxt|? y ? Hxy Hyt]; subst.
    - exists target. split; [done|]. split; [done | done].
    - exists y. split; [done|]. split; [|done]. eapply rtc_r; done. }
  assert (HB : B target) by (split; [done | done]).
  assert (Hin : target ∈ set_iter affected) by (apply Hiter, Hreach; done).
  assert (Hnone : ∀ agents,
    foldl (λ acc agent, acc ≫= add_to_order (S (length nodes)) nodes affected agent)
          None agents = None).
  { intros agents. induction agents as [|a agents IH]; [done|]. by simpl. }
  assert (Hloop : ∀ agents st,
    target ∈ agents → (∀ x, B x → x ∉ st.2) →
    foldl (λ acc agent, acc ≫= add_to_order (S (length nodes)) nodes affected agent)
          (Some st) agents = None).
  { destruct (add_to_order_closed_set nodes affected B Hclosed (S (length nodes)))
      as [H1 H2].
    intros agents. induction agents as [|a agents IH]; intros st Hmem Hinv;
      [inversion Hmem|].
    cbn [foldl mbind option_bind].
    destruct (add_to_order (S (length nodes)) nodes affected a st) as [s1|] eqn:Hrun;
      [|apply Hnone].
    apply IH; [|by eapply H2].
    apply elem_of_cons in Hmem as [<-|Hmem]; [|done].
    by rewrite (H1 target st HB Hinv) in Hrun. }
  rewrite Hloop; [done | done |]. intros x _. set_solver.
Qed.

End CycleDeletion.

Lemma add_to_order_unbounded_on_cycle_witness :
  DependencyManager.add_to_order 3 (DependencyManager.get_dependency_graph self_db)
    {["propulsion"]} "propulsion" ([], ∅) = None.
Proof.
  apply (add_to_order_unbounded_on_cycle _ _ (λ x, x = "propulsion")).
  - intros x ->. split; [by apply elem_of_singleton|].
    exists "propulsion". split; [|done].
    unfold DependencyManager.dependent_of. vm_compute. left.
  - intros x _. simpl. apply not_elem_of_empty.
  - done.
Defined.

Lemma analyze_deletion_impact_on_cycle_witness :
  DependencyManager.analyze_deletion_impact elements mutual_db "aerodynamics" = None.
Proof.
  apply analyze_deletion_impact_on_cycle.
  - intros s x Hx. by apply elem_of_elements.
  - apply (tc_l _ _ "structures"); [|apply tc_once];
      unfold DependencyManager.depends_on; vm_compute; left.
Defined.

(** ** Deletion of an agent that is not a node; the deletion saga *)

Section DeletionEdges.
Import DependencyManager.
Implicit Types (db : list Models.Agent).

(** X24.  For an agent that is not a node of the graph (it has no row,
    or its row is neither INACTIVE nor RUNNING), [execute_safe_deletion]
    without [force_cascade] refuses, with a message about dependent
    agents and [requires_cascade] set, and leaves the table as it was.
    With [force_cascade] it deletes the row of that name when there is
    exactly one, and reports that the agent is not found when there is
    none. *)
Theorem execute_safe_deletion_not_a_node (set_iter : gset string → list string)
    (repr : list string → string) (commit_ok : bool) db (agent_name : string) :
  agent_name ∉ (get_dependency_graph db).*1 →
  execute_safe_deletion set_iter repr commit_ok db agent_name false
  = Some (Deletion.mkDeletionResult false
            (Some ("Cannot delete agent " +:+ agent_name +:+ ": has dependent agents "
                   +:+ repr []))
            (Some (mkPlan agent_name false [] false []
                          ["Agent " +:+ agent_name +:+ " not found"]))
            (Some true) None None, db)
  ∧ (∀ a, rows_named agent_name db = [a] →
       execute_safe_deletion set_iter repr true db agent_name true
       = Some (Deletion.mkDeletionResult true None
                 (Some (mkPlan agent_name false [] false []
                               ["Agent " +:+ agent_name +:+ " not found"]))
                 None (Some [agent_name]) (Some false),
               delete_rows agent_name db))
  ∧ (rows_named agent_name db = [] →
       execute_safe_deletion set_iter repr commit_ok db agent_name true
       = Some (Deletion.mkDeletionResult false
                 (Some ("Agent " +:+ agent_name +:+ " not found")) None None None None,
               db)).
Proof.
  intros Hfresh. apply dict_get_None in Hfresh.
  unfold execute_safe_deletion, analyze_deletion_impact. rewrite Hfresh.
  cbn [mbind option_bind]. simpl. split; [done|]. split.
  - by intros a ->.
  - by intros ->.
Qed.

End DeletionEdges.

Lemma execute_safe_deletion_not_a_node_witness :
  DependencyManager.execute_safe_deletion elements (String.concat ", ") true failed_db
    "propulsion" false
  = Some (DependencyManager.Deletion.mkDeletionResult false
            (Some ("Cannot delete agent " +:+ "propulsion" +:+ ": has dependent agents "
                   +:+ String.concat ", " []))
            (Some (DependencyManager.mkPlan "propulsion" false [] false []
                     ["Agent " +:+ "propulsion" +:+ " not found"]))
            (Some true) None None, failed_db)
  ∧ (∀ a, DependencyManager.rows_named "propulsion" failed_db = [a] →
       DependencyManager.execute_safe_deletion elements (String.concat ", ") true failed_db
         "propulsion" true
       = Some (DependencyManager.Deletion.mkDeletionResult true None
                 (Some (DependencyManager.mkPlan "propulsion" false [] false []
                          ["Agent " +:+ "propulsion" +:+ " not found"]))
                 None (Some ["propulsion"]) (Some false),
               DependencyManager.delete_rows "propulsion" failed_db))
  ∧ (DependencyManager.rows_named "propulsion" failed_db = [] →
       DependencyManager.execute_safe_deletion elements (String.concat ", ") true failed_db
         "propulsion" true
       = Some (DependencyManager.Deletion.mkDeletionResult false
                 (Some ("Agent " +:+ "propulsion" +:+ " not found")) None None None None,
               failed_db)).
Proof.
  apply execute_safe_deletion_not_a_node.
  apply (bool_decide_unpack _). by vm_compute.
Defined.

Section DeletionSaga.
Import Lifecycle.

(** X25.  The compensations of the deletion saga.  Of the five steps
    [delete_agent_atomically] declares, the analysis has no
    compensation; the compensations declared for the deletion of the
    rows and for the deletion of the files name operations that
    [_execute_step] does not dispatch, so these calls raise before any
    collaborator is reached, whatever the collaborators do; only the
    compensations of the prompt and workflow steps reach a
    collaborator. *)
Theorem delete_saga_compensations (w : World Value) (history : list (Call Value))
    (agent_name : string) (force_cascade : bool) (operation_id : string) :
  ∃ rows files prompts workflow,
    omap compensation (steps (delete_agent_operation agent_name force_cascade operation_id))
    = ExecuteStep <$> [rows; files; prompts; workflow]
    ∧ (service rows, operation rows) = ("dependency_manager", "restore_deleted_agents")
    ∧ (service files, operation files) = ("agent_factory", "restore_agent")
    ∧ _execute_step w history rows
      = Raised "Unknown dependency manager operation: restore_deleted_agents"
    ∧ _execute_step w history files
      = Raised "Unknown agent factory operation: restore_agent"
    ∧ _execute_step w history prompts = perform w history prompts
    ∧ _execute_step w history workflow = perform w history workflow.
Proof. eexists _, _, _, _. split; [reflexivity|]. repeat split. Qed.

End DeletionSaga.

(** ** What a deletion changes *)

Section DeletionAtomic.
Import DependencyManager.
Implicit Types (db : list Models.Agent).

(** The cascade loop removes the rows of the names it records, and no
    other row. *)
Lemma cascade_loop_deletes (order : list string) db (deleted : list string)
    db' (deleted' : list string) :
  cascade_loop order db deleted = inl (db', deleted') →
  ∃ more, deleted' = deleted ++ more
          ∧ db' = filter (λ a, Models.name a ∉ more) db.
Proof.
  revert db deleted. induction order as [|x order IH]; intros db deleted; simpl.
  - intros [= <- <-]. exists []. split; [by rewrite app_nil_r|].
    symmetry. apply filter_all. intros a _ Hin. inversion Hin.
  - destruct (rows_named x db) as [|row [|row' rows]]; [| |done].
    + apply IH.
    + intros Hrun. apply IH in Hrun as (more & -> & ->).
      exists (x :: more). split; [by rewrite <- app_assoc|].
      unfold delete_rows. rewrite list_filter_filter. apply list_filter_iff.
      intros a. rewrite not_elem_of_cons. tauto.
Qed.

(** X26.  Whatever [execute_safe_deletion] returns, a reported failure
    leaves the agents table as it was, and a reported success has
    removed exactly the rows of the agents it lists as deleted. *)
Theorem execute_safe_deletion_atomic (set_iter : gset string → list string)
    (repr : list string → string) (commit_ok : bool) db (agent_name : string)
    (force_cascade : bool) res db' :
  execute_safe_deletion set_iter repr commit_ok db agent_name force_cascade
  = Some (res, db') →
  (Deletion.success res = false → db' = db)
  ∧ (Deletion.success res = true →
     ∃ deleted,
       Deletion.deleted_agents res = Some deleted
       ∧ db' = filter (λ a, Models.name a ∉ deleted) db).
Proof.
  unfold execute_safe_deletion.
  destruct (analyze_deletion_impact set_iter db agent_name) as [plan|]; [|done].
  cbn [mbind option_bind].
  destruct (negb (can_delete_safely plan) && negb force_cascade).
  { by intros [= <- <-]. }
  destruct (force_cascade && cascade_deletion_required plan).
  - destruct (cascade_loop (deletion_order plan) db []) as [[db1 deleted]|e] eqn:Hloop.
    + destruct commit_ok; intros [= <- <-]; simpl; [|done].
      split; [done|]. intros _. exists deleted. split; [done|].
      by apply cascade_loop_deletes in Hloop as (more & -> & ->).
    + by intros [= <- <-].
  - destruct (rows_named agent_name db) as [|row [|row' rows]];
      [by intros [= <- <-]| |by intros [= <- <-]].
    destruct commit_ok; intros [= <- <-]; simpl; [|done].
    split; [done|]. intros _. exists [agent_name]. split; [done|].
    unfold delete_rows. apply list_filter_iff. intros a.
    by rewrite list_elem_of_singleton.
Qed.

End DeletionAtomic.

Lemma execute_safe_deletion_atomic_witness :
  (DependencyManager.Deletion.success
     (DependencyManager.Deletion.mkDeletionResult true None
        (Some (DependencyManager.mkPlan "structures" true [] false ["structures"] []))
        None (Some ["structures"]) (Some false)) = false →
   DependencyManager.delete_rows "structures" uav_db = uav_db)
  ∧ (DependencyManager.Deletion.success
       (DependencyManager.Deletion.mkDeletionResult true None
          (Some (DependencyManager.mkPlan "structures" true [] false ["structures"] []))
          None (Some ["structures"]) (Some false)) = true →
     ∃ deleted,
       DependencyManager.Deletion.deleted_agents
         (DependencyManager.Deletion.mkDeletionResult true None
            (Some (DependencyManager.mkPlan "structures" true [] false ["structures"] []))
            None (Some ["structures"]) (Some false)) = Some deleted
       ∧ DependencyManager.delete_rows "structures" uav_db
         = filter (λ a, Models.name a ∉ deleted) uav_db).
Proof.
  apply (execute_safe_deletion_atomic elements (String.concat ", ") true uav_db
           "structures" false).
  by vm_compute.
Defined.

(** ** The rounds of the aggregator *)

Section AggregatorMore.
Import Scheduler.
Context {Output Config : Type}.
Variable _create_agent_instance : Config → option BaseAgent.
Variable process : list (nat * BaseAgent) → DynamicGlobalState Output → nat * BaseAgent
                   → DynamicGlobalState Output
                   → DynamicGlobalState Output * option string.

Lemma attempts_bounded n (agents : list BaseAgent) (state : DynamicGlobalState Output)
    executed rounds :
  Forall (λ round : list BaseAgent * DynamicGlobalState Output, round.1 ≠ []) rounds →
  length (attempts process n agents state executed rounds).2 ≤ length rounds + n
  ∧ Forall (λ round : list BaseAgent * DynamicGlobalState Output, round.1 ≠ [])
           (attempts process n agents state executed rounds).2.
Proof.
  revert state executed rounds.
  induction n as [|n IH]; intros state executed rounds Hrounds; simpl.
  - split; [lia | done].
  - case_bool_decide as Hready; [split; [simpl; lia | done]|].
    destruct (await_tasks _ _ _ _ _ _) as [state' executed'].
    destruct (IH state' executed'
                (rounds ++ [((ready_agents agents executed state).*2, state)])) as [Hlen Hall].
    + apply Forall_app. split; [done|]. apply Forall_singleton. simpl.
      intros Hnil. apply Hready. by apply fmap_nil_inv in Hnil.
    + split; [|done]. rewrite length_app in Hlen. simpl in Hlen. lia.
Qed.

(** X27.  One call of [dynamic_aggregator] makes at most three rounds
    of dispatch, each of at least one agent; when no agent can be
    instantiated it returns the state as it is and dispatches nothing. *)
Theorem aggregator_rounds_bounded (agent_configs : list Config)
    (state : DynamicGlobalState Output) :
  length (dynamic_aggregator _create_agent_instance process agent_configs state).2 ≤ 3
  ∧ Forall (λ round : list BaseAgent * DynamicGlobalState Output, round.1 ≠ [])
           (dynamic_aggregator _create_agent_instance process agent_configs state).2
  ∧ (omap _create_agent_instance agent_configs = [] →
     dynamic_aggregator _create_agent_instance process agent_configs state = (state, [])).
Proof.
  unfold dynamic_aggregator. case_bool_decide as Hnone.
  - simpl. split; [lia|]. split; [constructor | done].
  - destruct (attempts_bounded max_attempts (omap _create_agent_instance agent_configs)
                state [] []) as [Hlen Hall]; [constructor|].
    split; [exact Hlen|]. split; [done|]. intros Hnil. done.
Qed.

End AggregatorMore.
